(** * IslamicBlogSite maintenance scripts: path fixer and footer remover

    A shallow embedding of [fix-path.js] (class [PathFixer]) and of the
    footer-removal script (class [RemoveFooterSection]).

    - JavaScript strings are sequences of code units; the model keeps the
      code units below 256 ([ascii]), on which every operation used by the
      scripts ([includes], [startsWith], [endsWith], [toLowerCase],
      [split], [replace], [match]) is modelled exactly.
    - The regular expressions of the scripts use literals, character
      classes and lazy or greedy stars only; [Regex.match_here] is the
      backtracking matcher of ECMAScript restricted to that fragment.
    - The file system is a tree of files, directories and symbolic links;
      the [fs] calls of the scripts are functions in a state-and-exception
      monad over that tree. *)

From Stdlib Require Import Ascii String.
From stdpp Require Import base tactics option list gmap strings.

Open Scope list_scope.

(** ** Strings *)

Module Str.

Definition str := list ascii.

Definition lit (s : string) : str := list_ascii_of_string s.

(** The double quote, which a string literal cannot hold. *)
Definition dq : ascii := ascii_of_nat 34.
(** The single quote. *)
Definition sq : ascii := ascii_of_nat 39.
Definition nl : ascii := ascii_of_nat 10.
Definition cr : ascii := ascii_of_nat 13.

Definition ceqb (a b : ascii) : bool := Ascii.eqb a b.

(** [s.startsWith(p)] *)
Fixpoint startsWith (p s : str) : bool :=
  match p, s with
  | [], _ => true
  | a :: p', b :: s' => ceqb a b && startsWith p' s'
  | _ :: _, [] => false
  end.

(** [s.includes(p)] *)
Fixpoint includes (p s : str) : bool :=
  startsWith p s ||
  match s with
  | [] => false
  | _ :: s' => includes p s'
  end.

(** [s.endsWith(p)] *)
Definition endsWith (p s : str) : bool :=
  startsWith (rev p) (rev s).

(** [c.toLowerCase()] on one code unit below 256: A-Z and the Latin-1
    capitals U+00C0-U+00DE (without the multiplication sign U+00D7). *)
Definition lowerChar (c : ascii) : ascii :=
  let n := nat_of_ascii c in
  if ((65 <=? n) && (n <=? 90)) || ((192 <=? n) && (n <=? 222) && negb (n =? 215))
  then ascii_of_nat (n + 32) else c.

Definition toLowerCase (s : str) : str := map lowerChar s.

(** [s.split(sep)] for a one-character separator such as [path.sep]. *)
Fixpoint split (sep : ascii) (s : str) : list str :=
  match s with
  | [] => [[]]
  | c :: s' =>
      if ceqb c sep then [] :: split sep s'
      else match split sep s' with
           | [] => [[c]]
           | w :: ws => (c :: w) :: ws
           end
  end.

(** [pieces.join(sep)] *)
Fixpoint join (sep : str) (l : list str) : str :=
  match l with
  | [] => []
  | [w] => w
  | w :: ws => w ++ sep ++ join sep ws
  end.

(** [s.repeat(n)] *)
Fixpoint repeat (s : str) (n : nat) : str :=
  match n with
  | 0 => []
  | S k => s ++ repeat s k
  end.

(** [GetSubstitution] of ECMAScript for a pattern without capture groups:
    [$$] is a dollar, [$&] the matched text, [$`] the text before the
    match, [$'] the text after it; every other dollar stays as it is. *)
Fixpoint expand (before matched after tmpl : str) : str :=
  match tmpl with
  | [] => []
  | c :: t =>
      if ceqb c "$" then
        match t with
        | d :: t' =>
            if ceqb d "$" then "$"%char :: expand before matched after t'
            else if ceqb d "&" then matched ++ expand before matched after t'
            else if ceqb d "`" then before ++ expand before matched after t'
            else if ceqb d sq then after ++ expand before matched after t'
            else c :: expand before matched after t
        | [] => [c]
        end
      else c :: expand before matched after t
  end.

(** [s.indexOf(p)] as the split of [s] around the first occurrence. *)
Fixpoint splitFirst (p s : str) : option (str * str) :=
  if startsWith p s then Some ([], drop (length p) s)
  else match s with
       | [] => None
       | c :: s' =>
           match splitFirst p s' with
           | Some (a, b) => Some (c :: a, b)
           | None => None
           end
       end.

(** [s.replace(p, tmpl)] with a string pattern: the first occurrence
    only, the template expanded by [GetSubstitution]. *)
Definition replaceFirst (p tmpl s : str) : str :=
  match splitFirst p s with
  | Some (a, b) => a ++ expand a p b tmpl ++ b
  | None => s
  end.

(** White space and line terminators below 256, as [trim] sees them:
    tab, line feed, vertical tab, form feed, carriage return, space and
    the no-break space. *)
Definition isSpace (c : ascii) : bool :=
  let n := nat_of_ascii c in
  ((9 <=? n) && (n <=? 13)) || (n =? 32) || (n =? 160).

Fixpoint trimStart (s : str) : str :=
  match s with
  | c :: s' => if isSpace c then trimStart s' else s
  | [] => []
  end.

Definition trimEnd (s : str) : str := rev (trimStart (rev s)).

(** [s.trim()] *)
Definition trim (s : str) : str := trimEnd (trimStart s).

End Str.

Import Str.

(** ** Regular expressions *)

Module Regex.

(** Character classes of the scripts' patterns. *)
Inductive cls :=
| One (c : ascii)            (* a literal character *)
| OneOf (l : list ascii)     (* [abc] *)
| NoneOf (l : list ascii)    (* [^abc] *)
| AnyChar                    (* [\s\S] *)
| Dot.                       (* . : anything but a line terminator *)

Definition mem (c : ascii) (l : list ascii) : bool := existsb (ceqb c) l.

Definition accepts (k : cls) (c : ascii) : bool :=
  match k with
  | One a => ceqb a c
  | OneOf l => mem c l
  | NoneOf l => negb (mem c l)
  | AnyChar => true
  | Dot => negb (mem c [nl; cr])
  end.

Inductive atom :=
| C (k : cls)        (* one character of the class *)
| StarG (k : cls)    (* k*  : greedy *)
| StarL (k : cls).   (* k*? : lazy *)

Definition regex := list atom.

Definition chars (s : string) : regex := map (fun c => C (One c)) (lit s).

(** [k*?] before the rest of the pattern [rest]: the rest is tried first,
    one more character of the class after that. *)
Fixpoint lazyStar (k : cls) (rest : str -> option str) (s : str) : option str :=
  match rest s with
  | Some t => Some t
  | None =>
      match s with
      | x :: s' => if accepts k x then lazyStar k rest s' else None
      | [] => None
      end
  end.

(** [k*] before the rest of the pattern [rest]: one more character of the
    class is tried first, the rest after that. *)
Fixpoint greedyStar (k : cls) (rest : str -> option str) (s : str) : option str :=
  match s with
  | x :: s' =>
      if accepts k x then
        match greedyStar k rest s' with
        | Some t => Some t
        | None => rest s
        end
      else rest s
  | [] => rest s
  end.

(** The backtracking matcher: [match_here r s] is the text left after the
    first match of [r] at the start of [s] in ECMAScript's priority
    order. *)
Fixpoint match_here (r : regex) (s : str) {struct r} : option str :=
  match r with
  | [] => Some s
  | C k :: r' =>
      match s with
      | x :: s' => if accepts k x then match_here r' s' else None
      | [] => None
      end
  | StarL k :: r' => lazyStar k (match_here r') s
  | StarG k :: r' => greedyStar k (match_here r') s
  end.

(** Length of the match of [r] at the start of [s]. *)
Definition match_len (r : regex) (s : str) : option nat :=
  match match_here r s with
  | Some t => Some (length s - length t)
  | None => None
  end.

(** [r.test(s)]: some position of [s] has a match. *)
Fixpoint test (r : regex) (s : str) : bool :=
  match match_here r s with
  | Some _ => true
  | None => match s with
            | [] => false
            | _ :: s' => test r s'
            end
  end.

(** [s.match(r)] for a pattern without the [g] flag: the text of the
    leftmost match. *)
Fixpoint matchFirst (r : regex) (s : str) : option str :=
  match match_len r s with
  | Some n => Some (take n s)
  | None => match s with
            | [] => None
            | _ :: s' => matchFirst r s'
            end
  end.

(** [s.replace(r, tmpl)] for a pattern with the [g] flag.  [skip] counts
    the characters of the current match still to be dropped, [before]
    holds (reversed) the text already passed. *)
Fixpoint replaceGo (r : regex) (tmpl : str) (before : str) (skip : nat) (s : str) : str :=
  match s with
  | [] =>
      match skip, match_len r [] with
      | 0, Some _ => expand (rev before) [] [] tmpl
      | _, _ => []
      end
  | c :: s' =>
      match skip with
      | S k => replaceGo r tmpl (c :: before) k s'
      | 0 =>
          match match_len r s with
          | Some 0 =>
              expand (rev before) [] s tmpl ++ c :: replaceGo r tmpl (c :: before) 0 s'
          | Some (S n) =>
              expand (rev before) (take (S n) s) (drop (S n) s) tmpl
                ++ replaceGo r tmpl (c :: before) n s'
          | None => c :: replaceGo r tmpl (c :: before) 0 s'
          end
      end
  end.

Definition replaceAll (r : regex) (tmpl : str) (s : str) : str :=
  replaceGo r tmpl [] 0 s.

(** The matcher with a continuation, as the language definition has it:
    [matchK r k s] is what the continuation [k] makes of the text left
    after the first match of [r] at the start of [s], in priority
    order, that the continuation accepts. *)
Fixpoint lazyK {A} (c : cls) (rest : str -> option A) (s : str) : option A :=
  match rest s with
  | Some a => Some a
  | None =>
      match s with
      | x :: s' => if accepts c x then lazyK c rest s' else None
      | [] => None
      end
  end.

Fixpoint greedyK {A} (c : cls) (rest : str -> option A) (s : str) : option A :=
  match s with
  | x :: s' =>
      if accepts c x then
        match greedyK c rest s' with
        | Some a => Some a
        | None => rest s
        end
      else rest s
  | [] => rest s
  end.

Fixpoint matchK {A} (r : regex) (k : str -> option A) (s : str) {struct r} : option A :=
  match r with
  | [] => k s
  | C c :: r' =>
      match s with
      | x :: s' => if accepts c x then matchK r' k s' else None
      | [] => None
      end
  | StarL c :: r' => lazyK c (matchK r' k) s
  | StarG c :: r' => greedyK c (matchK r' k) s
  end.

(** A pattern character under the flag [i]: the code units with the
    same canonical form, which for an ASCII letter are its two cases
    and for any other ASCII character the character alone. *)
Definition eitherCase (c : ascii) : cls :=
  let n := nat_of_ascii c in
  if (97 <=? n) && (n <=? 122) then OneOf [c; ascii_of_nat (n - 32)]
  else if (65 <=? n) && (n <=? 90) then OneOf [c; ascii_of_nat (n + 32)]
  else One c.

Definition charsI (s : string) : regex := map (fun c => C (eitherCase c)) (lit s).

(** A pattern [pre(grp)post] with one capture group, at the start of
    [s]: the text the group captured. *)
Definition captureHere (pre grp post : regex) (s : str) : option str :=
  matchK pre (fun s1 =>
    matchK grp (fun s2 =>
      matchK post (fun _ => Some (take (length s1 - length s2) s1)) s2) s1) s.

(** [s.match(r)[1]] for such a pattern without the flag [g]: the capture
    of the leftmost match. *)
Fixpoint capture (pre grp post : regex) (s : str) : option str :=
  match captureHere pre grp post s with
  | Some g => Some g
  | None => match s with
            | [] => None
            | _ :: s' => capture pre grp post s'
            end
  end.

End Regex.

Import Regex.

(** ** The file system *)

Module FS.

Definition name := str.

(** A path is the list of its segments below the source directory
    (already normalised: no [.] and no [..]). *)
Definition path := list name.

#[warnings="-register-all"]
Inductive node :=
| File (content : str)
| Dir (entries : list (name * node))
| Link (target : path).

Inductive errno :=
| ENOENT | ENOTDIR | EISDIR | ENOTEMPTY | ELOOP | EINVAL | EBUSY.

Inductive result (A : Type) :=
| Ok (a : A)
| Throw (e : errno).
Arguments Ok {A} a.
Arguments Throw {A} e.

(** The type of a directory entry, as [readdirSync] with
    [withFileTypes] reports it: a symbolic link is a link, whatever it
    points to. *)
Inductive kind := KFile | KDir | KLink.

Definition kindOf (n : node) : kind :=
  match n with
  | File _ => KFile
  | Dir _ => KDir
  | Link _ => KLink
  end.

Definition isDirectory (k : kind) : bool :=
  match k with KDir => true | _ => false end.

Definition nameEqb (a b : name) : bool := bool_decide (a = b).

(** The first entry of a listing with the given name. *)
Fixpoint find (n : name) (es : list (name * node)) : option node :=
  match es with
  | [] => None
  | (m, c) :: es' => if nameEqb n m then Some c else find n es'
  end.

(** The listing without its entries named [n]. *)
Fixpoint remove (n : name) (es : list (name * node)) : list (name * node) :=
  match es with
  | [] => []
  | (m, c) :: es' => if nameEqb n m then remove n es' else (m, c) :: remove n es'
  end.

(** The listing with [n] bound to [v]: in place when the name is there,
    at the end otherwise. *)
Fixpoint put (n : name) (v : node) (es : list (name * node)) : list (name * node) :=
  match es with
  | [] => [(n, v)]
  | (m, c) :: es' => if nameEqb n m then (m, v) :: es' else (m, c) :: put n v es'
  end.

(** Navigation without following links. *)
Fixpoint get (t : node) (p : path) : option node :=
  match p with
  | [] => Some t
  | n :: p' =>
      match t with
      | Dir es =>
          match find n es with
          | Some c => get c p'
          | None => None
          end
      | _ => None
      end
  end.

(** [alter f p t] applies [f] to the listing of the directory at [p]. *)
Fixpoint alter (f : list (name * node) -> list (name * node)) (p : path) (t : node) : node :=
  match t with
  | Dir es =>
      match p with
      | [] => Dir (f es)
      | n :: p' =>
          Dir ((fix go (es : list (name * node)) : list (name * node) :=
                  match es with
                  | [] => []
                  | (m, c) :: es' =>
                      if nameEqb n m then (m, alter f p' c) :: es'
                      else (m, c) :: go es'
                  end) es)
      end
  | _ => t
  end.

(** One walk from the root: it stops at the node reached, or at the
    first link met (also as the last segment), which sends the walk back
    to the root with the target in front of the segments still to go. *)
Inductive walked :=
| Reached (p : path) (n : node)
| Jump (todo : path)
| Lost (e : errno).

Fixpoint walk (cur : node) (done todo : path) : walked :=
  match cur with
  | Link t => Jump (t ++ todo)
  | File _ =>
      match todo with
      | [] => Reached done cur
      | _ :: _ => Lost ENOTDIR
      end
  | Dir es =>
      match todo with
      | [] => Reached done cur
      | n :: rest =>
          match find n es with
          | Some c => walk c (done ++ [n]) rest
          | None => Lost ENOENT
          end
      end
  end.

(** Path resolution following every link, with the kernel's bound on the
    number of links followed. *)
Fixpoint resolve (hops : nat) (root : node) (p : path) : result (path * node) :=
  match walk root [] p with
  | Reached q n => Ok (q, n)
  | Lost e => Throw e
  | Jump t =>
      match hops with
      | 0 => Throw ELOOP
      | S h => resolve h root t
      end
  end.

Definition maxHops : nat := 40.

(** [stat]: the link-free path and the node a path leads to. *)
Definition stat (root : node) (p : path) : result (path * node) :=
  resolve maxHops root p.

(** A path as its parent and its last segment. *)
Fixpoint unsnoc (p : path) : option (path * name) :=
  match p with
  | [] => None
  | n :: p' =>
      match unsnoc p' with
      | None => Some ([], n)
      | Some (q, m) => Some (n :: q, m)
      end
  end.

(** [lstat]: as [stat], but a link in the last segment is not followed. *)
Definition lstat (root : node) (p : path) : result (path * node) :=
  match unsnoc p with
  | None => Ok ([], root)
  | Some (parent, n) =>
      match stat root parent with
      | Ok (q, Dir es) =>
          match find n es with
          | Some c => Ok (q ++ [n], c)
          | None => Throw ENOENT
          end
      | Ok (_, _) => Throw ENOTDIR
      | Throw e => Throw e
      end
  end.

(** *** The calls of [fs] on the tree *)

Definition isDir (n : node) : bool := isDirectory (kindOf n).

Fixpoint prefixb (p q : path) : bool :=
  match p, q with
  | [], _ => true
  | a :: p', b :: q' => nameEqb a b && prefixb p' q'
  | _ :: _, [] => false
  end.

(** The tree without the entry at the link-free path [q]. *)
Definition removeAt (q : path) (t : node) : node :=
  match unsnoc q with
  | None => t
  | Some (parent, n) => alter (remove n) parent t
  end.

(** The tree with [v] as the entry at the link-free path [q]. *)
Definition putAt (q : path) (v : node) (t : node) : node :=
  match unsnoc q with
  | None => v
  | Some (parent, n) => alter (put n v) parent t
  end.

(** [fs.existsSync(p)]: follows links, false on any error. *)
Definition exists_ (t : node) (p : path) : bool :=
  match stat t p with
  | Ok _ => true
  | Throw _ => false
  end.

(** [fs.statSync(p).isDirectory()] *)
Definition statIsDirectory (t : node) (p : path) : result bool :=
  match stat t p with
  | Ok (_, n) => Ok (isDir n)
  | Throw e => Throw e
  end.

(** [fs.readFileSync(p, 'utf8')] *)
Definition readFile (t : node) (p : path) : result str :=
  match stat t p with
  | Ok (_, File c) => Ok c
  | Ok (_, Dir _) => Throw EISDIR
  | Ok (_, Link _) => Throw ELOOP
  | Throw e => Throw e
  end.

(** [fs.readdirSync(p)], the entries in listing order. *)
Definition readdir (t : node) (p : path) : result (list (name * node)) :=
  match stat t p with
  | Ok (_, Dir es) => Ok es
  | Ok (_, _) => Throw ENOTDIR
  | Throw e => Throw e
  end.

(** [fs.writeFileSync(p, c, 'utf8')]: rewrites the file the path leads
    to, or creates it in an existing directory.  (Writing through a
    dangling link is left as an error; the scripts write only files
    they have just read.) *)
Definition writeFile (t : node) (p : path) (c : str) : result node :=
  match stat t p with
  | Ok (q, File _) => Ok (putAt q (File c) t)
  | Ok (_, Dir _) => Throw EISDIR
  | Ok (_, Link _) => Throw ELOOP
  | Throw ENOENT =>
      match unsnoc p with
      | None => Throw EISDIR
      | Some (parent, n) =>
          match stat t parent with
          | Ok (q, Dir es) =>
              match find n es with
              | None => Ok (putAt (q ++ [n]) (File c) t)
              | Some _ => Throw ENOENT
              end
          | Ok (_, _) => Throw ENOTDIR
          | Throw e => Throw e
          end
      end
  | Throw e => Throw e
  end.

(** [fs.unlinkSync(p)]: removes a file or a link, never a directory. *)
Definition unlink (t : node) (p : path) : result node :=
  match lstat t p with
  | Ok (_, Dir _) => Throw EISDIR
  | Ok (q, _) => Ok (removeAt q t)
  | Throw e => Throw e
  end.

(** [fs.rmdirSync(p)]: removes an empty directory. *)
Definition rmdir (t : node) (p : path) : result node :=
  match lstat t p with
  | Ok ([], _) => Throw EBUSY
  | Ok (q, Dir []) => Ok (removeAt q t)
  | Ok (_, Dir (_ :: _)) => Throw ENOTEMPTY
  | Ok (_, _) => Throw ENOTDIR
  | Throw e => Throw e
  end.

(** [fs.renameSync(src, dst)], as rename(2): the entry [src] itself
    moves (a link is not followed); an existing [dst] is replaced when
    it is not a directory and [src] is none either, or when both are
    directories and [dst] is empty. *)
Definition rename (t : node) (src dst : path) : result node :=
  match lstat t src with
  | Throw e => Throw e
  | Ok (sp, sn) =>
      match unsnoc dst with
      | None => Throw EBUSY
      | Some (dparent, dn) =>
          match stat t dparent with
          | Throw e => Throw e
          | Ok (dq, Dir des) =>
              let dp := dq ++ [dn] in
              let moved := putAt dp sn (removeAt sp t) in
              if bool_decide (sp = dp) then Ok t
              else if bool_decide (sp = []) then Throw EBUSY
              else if isDir sn && prefixb sp dp then Throw EINVAL
              else
                match find dn des with
                | None => Ok moved
                | Some (Dir es) =>
                    if isDir sn then
                      match es with
                      | [] => Ok moved
                      | _ :: _ => Throw ENOTEMPTY
                      end
                    else Throw EISDIR
                | Some _ => if isDir sn then Throw ENOTDIR else Ok moved
                end
          | Ok (_, _) => Throw ENOTDIR
          end
      end
  end.

(** *** The monad of the scripts *)

(** The tree below the source directory, the log of the paths given to
    [writeFileSync], and the counter [this.processedFiles]. *)
Record state := mkState {
  tree : node;
  writes : list path;
  processedFiles : nat
}.

(** A computation returns a value or throws, in a new state; [None]
    stands for a recursion cut by the end of its fuel. *)
Definition M (A : Type) : Type := state -> option (result A * state).

#[global] Instance M_ret : MRet M := fun A a s => Some (Ok a, s).

#[global] Instance M_bind : MBind M := fun A B f m s =>
  match m s with
  | Some (Ok a, s') => f a s'
  | Some (Throw e, s') => Some (Throw e, s')
  | None => None
  end.

Definition outOfFuel {A} : M A := fun _ => None.

(** [try { m } catch (error) { h }] *)
Definition tryCatch {A} (m : M A) (h : errno -> M A) : M A := fun s =>
  match m s with
  | Some (Ok a, s') => Some (Ok a, s')
  | Some (Throw e, s') => h e s'
  | None => None
  end.

(** A call that reads the tree. *)
Definition reading {A} (f : node -> result A) : M A := fun s => Some (f (tree s), s).

(** A call that changes the tree. *)
Definition changing (f : node -> result node) : M unit := fun s =>
  match f (tree s) with
  | Ok t => Some (Ok (), mkState t (writes s) (processedFiles s))
  | Throw e => Some (Throw e, s)
  end.

Definition existsSync (p : path) : M bool := reading (fun t => Ok (exists_ t p)).
Definition statSyncIsDirectory (p : path) : M bool := reading (fun t => statIsDirectory t p).
Definition readFileSync (p : path) : M str := reading (fun t => readFile t p).
Definition readdirSync (p : path) : M (list name) :=
  reading (fun t => match readdir t p with
                    | Ok es => Ok (map fst es)
                    | Throw e => Throw e
                    end).
Definition unlinkSync (p : path) : M unit := changing (fun t => unlink t p).
Definition rmdirSync (p : path) : M unit := changing (fun t => rmdir t p).
Definition renameSync (src dst : path) : M unit := changing (fun t => rename t src dst).

Definition writeFileSync (p : path) (c : str) : M unit := fun s =>
  match writeFile (tree s) p c with
  | Ok t => Some (Ok (), mkState t (writes s ++ [p]) (processedFiles s))
  | Throw e => Some (Throw e, s)
  end.

(** [this.processedFiles++] *)
Definition countProcessed : M unit := fun s =>
  Some (Ok (), mkState (tree s) (writes s) (S (processedFiles s))).

(** [for (const item of items) { body }] *)
Fixpoint forEach {A} (items : list A) (body : A -> M unit) : M unit :=
  match items with
  | [] => mret ()
  | item :: rest => _ ← body item; forEach rest body
  end.

(** [path.relative(from, to)] on normalised paths: up from [from] to the
    common ancestor, then down to [to]. *)
Fixpoint relativeSegments (from to : path) : path :=
  match from, to with
  | a :: from', b :: to' =>
      if nameEqb a b then relativeSegments from' to'
      else map (fun _ => lit "..") from ++ to
  | _, _ => map (fun _ => lit "..") from ++ to
  end.

Definition relative (sep : ascii) (from to : path) : str :=
  join [sep] (relativeSegments from to).

(** The height of a tree: a bound on the depth of any directory. *)
Fixpoint height (t : node) : nat :=
  match t with
  | Dir es => S (foldr (fun e h => Nat.max (height e.2) h) 0 es)
  | _ => 0
  end.

(** A directory never lists a name twice. *)
Fixpoint wf (t : node) : bool :=
  match t with
  | Dir es =>
      bool_decide (NoDup (map fst es)) && forallb (fun e => wf e.2) es
  | _ => true
  end.

End FS.
(** ** The path fixer (class [PathFixer]) *)

Module PathFixer.

Import FS.

(** *** The text substitutions of [fixPathsInHtml] *)

(** The parent-traversal token [../], everywhere (flag [g]). *)
Definition reTraversal : regex := chars "../".
(** A double or single quote, then [/www.miracles-of-quran.com/]. *)
Definition reAbsDomain : regex :=
  C (OneOf [dq; sq]) :: chars "/www.miracles-of-quran.com/".
(** A double or single quote, then [www.miracles-of-quran.com/]. *)
Definition reRelDomain : regex :=
  C (OneOf [dq; sq]) :: chars "www.miracles-of-quran.com/".
(** [href=], a double quote, then [www.miracles-of-quran.com/]. *)
Definition reHref : regex :=
  chars "href=" ++ C (One dq) :: chars "www.miracles-of-quran.com/".
(** [src=], a double quote, then [www.miracles-of-quran.com/]. *)
Definition reSrc : regex :=
  chars "src=" ++ C (One dq) :: chars "www.miracles-of-quran.com/".

(** [relativePath.split(path.sep).length - 1] *)
Definition depthOf (sep : ascii) (relativePath : str) : nat :=
  length (split sep relativePath) - 1.

(** The depth-dependent rewrite of the parent-traversal token. *)
Definition fixTraversal (depth : nat) (content : str) : str :=
  if depth =? 0 then replaceAll reTraversal (lit "./") content
  else if depth =? 1 then replaceAll reTraversal (lit "../") content
  else
    let upLevels := repeat (lit "../") depth in
    replaceAll reTraversal upLevels content.

(** The rewrites of the references to the old domain directory. *)
Definition fixDomain (content : str) : str :=
  let content := replaceAll reAbsDomain (dq :: lit "/") content in
  let content := replaceAll reRelDomain (dq :: lit "./") content in
  let content := replaceAll reHref (lit "href=" ++ dq :: lit "./") content in
  let content := replaceAll reSrc (lit "src=" ++ dq :: lit "./") content in
  content.

(** All the text substitutions of [fixPathsInHtml], in the order of the
    source. *)
Definition fixContent (depth : nat) (content : str) : str :=
  fixDomain (fixTraversal depth content).

(** [fixPathsInHtml(filePath, rootPath)]; any exception is caught and
    logged. *)
Definition fixPathsInHtml (sep : ascii) (filePath rootPath : path) : M unit :=
  tryCatch
    (content ← readFileSync filePath;
     let originalContent := content in
     let relativePath := relative sep rootPath filePath in
     let depth := depthOf sep relativePath in
     let content := fixContent depth content in
     if bool_decide (content <> originalContent) then
       _ ← writeFileSync filePath content;
       countProcessed
     else mret ())
    (fun _ => mret ()).

(** *** The scanner *)

(** The names the scanner passes over. *)
Definition skipped (name : str) : bool :=
  startsWith (lit ".") name
  || nameEqb name (lit "node_modules")
  || includes (lit "backup") name
  || nameEqb name (lit "hts-cache").

(** The loop of [getAllHtmlFiles] over the entries of [dir]; [rec] is the
    recursive call. *)
Fixpoint scanLoop (rec : path -> gset path -> option (list path * gset path))
    (dir : path) (items : list (name * node)) (files : list path)
    (visited : gset path) : option (list path * gset path) :=
  match items with
  | [] => Some (files, visited)
  | (name, item) :: rest =>
      let fullPath := dir ++ [name] in
      if skipped name then scanLoop rec dir rest files visited
      else if isDirectory (kindOf item) then
        match rec fullPath visited with
        | None => None
        | Some (found, visited') => scanLoop rec dir rest (files ++ found) visited'
        end
      else if endsWith (lit ".html") name then
        scanLoop rec dir rest (files ++ [fullPath]) visited
      else scanLoop rec dir rest files visited
  end.

(** [getAllHtmlFiles(dir, visited)]: the files found and the set of
    visited directories as the call leaves it.  [path.resolve] is the
    identity on the normalised paths of the model.  [None]: the fuel
    did not cover the depth of the recursion. *)
Fixpoint getAllHtmlFiles (fuel : nat) (t : node) (dir : path) (visited : gset path)
  : option (list path * gset path) :=
  match fuel with
  | 0 => None
  | S fuel' =>
      let absDir := dir in
      if bool_decide (absDir ∈ visited) then Some ([], visited)
      else
        let visited := {[absDir]} ∪ visited in
        match readdir t dir with
        | Throw _ => Some ([], visited)
        | Ok items => scanLoop (getAllHtmlFiles fuel' t) dir items [] visited
        end
  end.

(** *** The restructurer *)

(** [this.miraculesSubDir] *)
Definition miraculesSubDir : path := [lit "www.miracles-of-quran.com"].

Definition outsideIndex : path := [lit "index.html"].
Definition insideIndex : path := miraculesSubDir ++ [lit "index.html"].

(** The test on the outer index: the page of the mirroring tool. *)
Definition looksLikeHTTrack (outsideContent : str) : bool :=
  includes (lit "httrack") (toLowerCase outsideContent)
  || includes (lit "mirror") (toLowerCase outsideContent)
  || includes (lit "hts-log.txt") outsideContent.

(** The block of [moveAndFixStructure] run when both index files
    exist. *)
Definition resolveIndexConflict : M unit :=
  outsideContent ← readFileSync outsideIndex;
  insideContent ← readFileSync insideIndex;
  if looksLikeHTTrack outsideContent then
    _ ← renameSync outsideIndex [lit "httrack-index.html"];
    renameSync insideIndex outsideIndex
  else
    _ ← renameSync outsideIndex [lit "original-index.html"];
    renameSync insideIndex outsideIndex.

(** [mergeDirectories(src, dest)] *)
Fixpoint mergeDirectories (fuel : nat) (src dest : path) : M unit :=
  match fuel with
  | 0 => outOfFuel
  | S fuel' =>
      items ← readdirSync src;
      _ ← forEach items (fun item =>
        let srcPath := src ++ [item] in
        let destPath := dest ++ [item] in
        there ← existsSync destPath;
        if there : bool then
          srcIsDir ← statSyncIsDirectory srcPath;
          bothDirs ← (if srcIsDir : bool then statSyncIsDirectory destPath
                      else mret false);
          if bothDirs : bool then mergeDirectories fuel' srcPath destPath
          else
            _ ← unlinkSync destPath;
            renameSync srcPath destPath
        else renameSync srcPath destPath);
      tryCatch
        (left ← readdirSync src;
         if bool_decide (length left = 0) then rmdirSync src else mret ())
        (fun _ => mret ())
  end.

(** The body of the loop of [moveAndFixStructure] for one entry of the
    subdirectory. *)
Definition moveItem (fuel : nat) (item : name) : M unit :=
  if nameEqb item (lit "index.html") then mret ()
  else
    let srcPath := miraculesSubDir ++ [item] in
    let destPath := [item] in
    tryCatch
      (there ← existsSync destPath;
       if there : bool then
         srcIsDir ← statSyncIsDirectory srcPath;
         if srcIsDir : bool then mergeDirectories fuel srcPath destPath
         else
           _ ← unlinkSync destPath;
           renameSync srcPath destPath
       else renameSync srcPath destPath)
      (fun _ => mret ()).

(** The rest of [moveAndFixStructure] after the index files: the loop
    over the entries of the subdirectory, the removal of the
    subdirectory when it is empty, and the result. *)
Definition moveEntries (fuel : nat) : M bool :=
  items ← readdirSync miraculesSubDir;
  _ ← forEach items (moveItem fuel);
  _ ← tryCatch
        (left ← readdirSync miraculesSubDir;
         if bool_decide (length left = 0) then rmdirSync miraculesSubDir
         else mret ())
        (fun _ => mret ());
  mret true.

(** [moveAndFixStructure()] *)
Definition moveAndFixStructure (fuel : nat) : M bool :=
  subThere ← existsSync miraculesSubDir;
  if negb subThere : bool then mret false
  else
    outThere ← existsSync outsideIndex;
    inThere ← existsSync insideIndex;
    _ ← (if outThere && inThere : bool then resolveIndexConflict else mret ());
    moveEntries fuel.

(** *** The analysis and the main run *)

(** The pattern of [extractTitle], flag [i]: the opening tag with its
    attributes, the captured text (lazily, within a line), the closing
    tag. *)
Definition titleOpen : regex :=
  charsI "<title" ++ StarG (NoneOf [">"%char]) :: charsI ">".
Definition titleText : regex := [StarL Dot].
Definition titleClose : regex := charsI "</title>".

(** [extractTitle(htmlContent)] *)
Definition extractTitle (htmlContent : str) : str :=
  match capture titleOpen titleText titleClose htmlContent with
  | Some titleMatch1 => trim titleMatch1
  | None => lit "No title found"
  end.

(** What [analyzeStructure] prints of an index file: its title, its
    size and whether it names the mirroring tool. *)
Definition preview (content : str) : str * nat * bool :=
  (extractTitle content, length content,
   includes (lit "httrack") (toLowerCase content)).

(** [analyzeStructure()]: the messages go to the console, the result
    tells whether the subdirectory is there. *)
Definition analyzeStructure : M bool :=
  outThere ← existsSync outsideIndex;
  inThere ← existsSync insideIndex;
  _ ← (if outThere && inThere : bool then
         tryCatch
           (outsideContent ← readFileSync outsideIndex;
            insideContent ← readFileSync insideIndex;
            let _ := (preview outsideContent, preview insideContent) in
            mret ())
           (fun _ => mret ())
       else mret ());
  subThere ← existsSync miraculesSubDir;
  if subThere : bool then
    contents ← readdirSync miraculesSubDir;
    mret true
  else
    contents ← readdirSync [];
    mret false.

(** [this.getAllHtmlFiles(dir)] as a step of a run: the scan of the
    current tree with a new set of visited directories. *)
Definition htmlFilesOf (fuel : nat) (dir : path) : M (list path) := fun s =>
  match getAllHtmlFiles fuel (tree s) dir ∅ with
  | Some (files, _) => Some (Ok files, s)
  | None => None
  end.

(** [execute()]: an exception leaves it as the rejection of the
    promise. *)
Definition execute (fuel : nat) (sep : ascii) : M unit :=
  hasSubDir ← analyzeStructure;
  if negb hasSubDir : bool then mret ()
  else
    moveSuccess ← moveAndFixStructure fuel;
    if negb moveSuccess : bool then mret ()
    else
      htmlFiles ← htmlFilesOf fuel [];
      forEach htmlFiles (fun filePath => fixPathsInHtml sep filePath []).

End PathFixer.

(** ** The footer remover (class [RemoveFooterSection]) *)

Module RemoveFooterSection.

Import FS.

(** A line of source text: its pieces between double quotes. *)
Definition quoted (pieces : list string) : str := join [dq] (map lit pieces).

(** Lines of text, joined by line feeds. *)
Definition text (lines : list (list string)) : str := join [nl] (map quoted lines).

(** The scanner of this class: the one of [PathFixer] with the tests on
    the name in another order and without the message on a directory
    already visited. *)
Definition skipped (name : str) : bool :=
  startsWith (lit ".") name
  || nameEqb name (lit "node_modules")
  || nameEqb name (lit "hts-cache")
  || includes (lit "backup") name.

Fixpoint scanLoop (rec : path -> gset path -> option (list path * gset path))
    (dir : path) (items : list (name * node)) (files : list path)
    (visited : gset path) : option (list path * gset path) :=
  match items with
  | [] => Some (files, visited)
  | (name, item) :: rest =>
      if skipped name then scanLoop rec dir rest files visited
      else
        let fullPath := dir ++ [name] in
        if isDirectory (kindOf item) then
          match rec fullPath visited with
          | None => None
          | Some (found, visited') => scanLoop rec dir rest (files ++ found) visited'
          end
        else if endsWith (lit ".html") name then
          scanLoop rec dir rest (files ++ [fullPath]) visited
        else scanLoop rec dir rest files visited
  end.

Fixpoint getAllHtmlFiles (fuel : nat) (t : node) (dir : path) (visited : gset path)
  : option (list path * gset path) :=
  match fuel with
  | 0 => None
  | S fuel' =>
      let absDir := dir in
      if bool_decide (absDir ∈ visited) then Some ([], visited)
      else
        let visited := {[absDir]} ∪ visited in
        match readdir t dir with
        | Throw _ => Some ([], visited)
        | Ok items => scanLoop (getAllHtmlFiles fuel' t) dir items [] visited
        end
  end.

(** The marker of the footer section. *)
Definition footerMarker : str := lit "cid-tJkSLE66e9".

(** The translation widget: the container [div], anything (lazily), the
    [script] tag whose [src] holds [translate_a/element] on one line. *)
Definition reWidget : regex :=
  chars "<div id=" ++ C (One dq) :: chars "google_translate_element"
    ++ C (One dq) :: chars "></div>"
    ++ StarL AnyChar :: chars "<script src=" ++ C (One dq)
    :: StarL Dot :: chars "translate_a/element"
    ++ StarL Dot :: chars "</script>".

(** The footer: a [section] tag with the marker before its [>], then
    anything (lazily) up to the next closing [section] tag. *)
Definition reFooter : regex :=
  chars "<section" ++ StarG (NoneOf [">"%char]) :: chars "cid-tJkSLE66e9"
    ++ StarG (NoneOf [">"%char]) :: chars ">"
    ++ StarL AnyChar :: chars "</section>".

(** The template put in place of the closing body tag, up to the widget. *)
Definition wrapperHeadLines : list (list string) :=
  [ [];
    ["<div style="; "text-align: center; padding: 8px; background: #f8f9fa; font-size: 0;"; ">"];
    ["  <div style="; "display: inline-block; transform: scale(0.75); transform-origin: center;"; ">"];
    ["    "] ].

(** The template after the widget, with the closing body tag at its end. *)
Definition wrapperTailLines : list (list string) :=
  [ [];
    ["  </div>"];
    ["</div>"];
    ["<style>"];
    ["  /* Force smaller Google Translate styling */"];
    ["  #google_translate_element {"];
    ["    zoom: 0.75 !important;"];
    ["    -moz-transform: scale(0.75) !important;"];
    ["    -webkit-transform: scale(0.75) !important;"];
    ["    transform: scale(0.75) !important;"];
    ["    font-size: 11px !important;"];
    ["    line-height: 1.2 !important;"];
    ["  }"];
    ["  "];
    ["  #google_translate_element * {"];
    ["    font-size: 11px !important;"];
    ["    max-height: 24px !important;"];
    ["  }"];
    ["  "];
    ["  #google_translate_element .goog-te-combo {"];
    ["    font-size: 10px !important;"];
    ["    padding: 1px 3px !important;"];
    ["    height: 20px !important;"];
    ["    border: 1px solid #ccc !important;"];
    ["  }"];
    ["  "];
    ["  #google_translate_element .goog-logo-link {"];
    ["    font-size: 9px !important;"];
    ["  }"];
    ["  "];
    ["  #google_translate_element img {"];
    ["    max-height: 12px !important;"];
    ["    max-width: 40px !important;"];
    ["    vertical-align: middle !important;"];
    ["  }"];
    ["  "];
    ["  /* Hide Google branding if too large */"];
    ["  .goog-logo-link img {"];
    ["    display: none !important;"];
    ["  }"];
    ["  "];
    ["  /* Delay styling to override Google's scripts */"];
    ["  .goog-te-gadget {"];
    ["    font-size: 0 !important;"];
    ["  }"];
    ["  "];
    ["  .goog-te-gadget > span {"];
    ["    font-size: 10px !important;"];
    ["  }"];
    ["</style>"];
    ["<script>"];
    ["  // Apply styling after Google Translate loads"];
    ["  setTimeout(function() {"];
    ["    const googleElements = document.querySelectorAll('#google_translate_element, #google_translate_element *');"];
    ["    googleElements.forEach(el => {"];
    ["      if (el.tagName === 'SELECT') {"];
    ["        el.style.fontSize = '10px';"];
    ["        el.style.height = '20px';"];
    ["        el.style.padding = '1px 3px';"];
    ["      }"];
    ["      if (el.tagName === 'IMG') {"];
    ["        el.style.maxHeight = '12px';"];
    ["        el.style.maxWidth = '40px';"];
    ["      }"];
    ["    });"];
    ["  }, 2000);"];
    ["</script>"];
    ["</body>"] ].

(** The template literal with the widget in its place. *)
Definition wrapper (googleTranslateWidget : str) : str :=
  text wrapperHeadLines ++ googleTranslateWidget ++ text wrapperTailLines.

(** The text computed by [processFile] and the flag [changesMade]. *)
Definition processContent (content : str) : str * bool :=
  let googleTranslateMatch := matchFirst reWidget content in
  let googleTranslateWidget :=
    match googleTranslateMatch with
    | Some m => m
    | None => []
    end in
  let '(content, changesMade) :=
    if includes footerMarker content then
      let before := content in
      let content := replaceAll reFooter [] content in
      (content, bool_decide (content <> before))
    else (content, false) in
  let content :=
    if negb (bool_decide (googleTranslateWidget = [])) && changesMade then
      replaceFirst (lit "</body>") (wrapper googleTranslateWidget) content
    else content in
  (content, changesMade).

(** What [processFile] returns. *)
Inductive outcome :=
| Success (changed : bool)
| Failure (error : errno).

(** [processFile(filePath)] *)
Definition processFile (filePath : path) : M outcome :=
  tryCatch
    (content ← readFileSync filePath;
     let '(content, changesMade) := processContent content in
     if changesMade : bool then
       _ ← writeFileSync filePath content;
       _ ← countProcessed;
       mret (Success true)
     else mret (Success false))
    (fun error => mret (Failure error)).

(** [this.getAllHtmlFiles(dir)] as a step of a run. *)
Definition htmlFilesOf (fuel : nat) (dir : path) : M (list path) := fun s =>
  match getAllHtmlFiles fuel (tree s) dir ∅ with
  | Some (files, _) => Some (Ok files, s)
  | None => None
  end.

(** The loop of [runRemoval] over the files, with its two counters. *)
Fixpoint countOutcomes (htmlFiles : list path) (successCount errorCount : nat)
  : M (nat * nat) :=
  match htmlFiles with
  | [] => mret (successCount, errorCount)
  | file :: rest =>
      result ← processFile file;
      match result with
      | Success _ => countOutcomes rest (S successCount) errorCount
      | Failure _ => countOutcomes rest successCount (S errorCount)
      end
  end.

(** [runRemoval()]: the counters [successCount] and [errorCount] of the
    summary. *)
Definition runRemoval (fuel : nat) : M (nat * nat) :=
  htmlFiles ← htmlFilesOf fuel [];
  countOutcomes htmlFiles 0 0.

End RemoveFooterSection.

(** ** Vocabulary of the statements and of the proofs

    Patterns without a star as lists of classes, the replacement with a
    dollar-free template, counting of occurrences, the patterns and texts
    of the two scripts under names, and the trees and pages of the
    examples. *)

Module Vocabulary.

Import FS RemoveFooterSection PathFixer.

(** A template without a dollar is inserted as it is. *)
Definition plain (tmpl : str) : bool := forallb (fun c => negb (ceqb c "$")) tmpl.

(** The global replacement with a dollar-free template. *)
Fixpoint subst (r : regex) (repl : str) (skip : nat) (s : str) : str :=
  match s with
  | [] =>
      match skip, match_len r [] with
      | 0, Some _ => repl
      | _, _ => []
      end
  | c :: s' =>
      match skip with
      | S k => subst r repl k s'
      | 0 =>
          match match_len r s with
          | Some 0 => repl ++ c :: subst r repl 0 s'
          | Some (S n) => repl ++ subst r repl n s'
          | None => c :: subst r repl 0 s'
          end
      end
  end.

(** A pattern without a star is a list of classes; [fixedMatch ks s]: the
    text [s] starts with a match of it. *)
Fixpoint fixedMatch (ks : list cls) (s : str) : bool :=
  match ks, s with
  | [], _ => true
  | k :: ks', x :: s' => accepts k x && fixedMatch ks' s'
  | _ :: _, [] => false
  end.

(** [compat ks s]: the pattern and the text agree as far as both go. *)
Fixpoint compat (ks : list cls) (s : str) : bool :=
  match ks, s with
  | k :: ks', x :: s' => accepts k x && compat ks' s'
  | _, _ => true
  end.

(** No match of the pattern can start before the text [s] and run into
    it. *)
Definition apart (ks : list cls) (s : str) : bool :=
  forallb (fun k => negb (compat (drop k ks) s)) (seq 1 (length ks - 1)).

(** No match of the pattern can start inside the text [s]. *)
Fixpoint closed (ks : list cls) (s : str) : bool :=
  match s with
  | [] => true
  | _ :: s' => negb (compat ks s) && closed ks s'
  end.

(** The number of places of [s] where the pattern matches. *)
Fixpoint count (ks : list cls) (s : str) : nat :=
  match s with
  | [] => 0
  | _ :: s' => (if fixedMatch ks s then 1 else 0) + count ks s'
  end.

(** [clashes repl Y]: neither [Y] nor an end of [Y] agrees with the start
    of the replacement [repl]. *)
Fixpoint clashes (repl : str) (Y : list cls) : bool :=
  match Y with
  | [] => true
  | _ :: Y' => negb (compat Y repl) && clashes repl Y'
  end.

(** The patterns of [fixPathsInHtml] as sequences of classes. *)
Definition ksTraversal : list cls := map One (lit "../").

Definition ksAbsDomain : list cls :=
  OneOf [dq; sq] :: map One (lit "/www.miracles-of-quran.com/").

Definition ksRelDomain : list cls :=
  OneOf [dq; sq] :: map One (lit "www.miracles-of-quran.com/").

Definition ksHref : list cls :=
  map One (lit "href=") ++ One dq :: map One (lit "www.miracles-of-quran.com/").

Definition ksSrc : list cls :=
  map One (lit "src=") ++ One dq :: map One (lit "www.miracles-of-quran.com/").

(** The replacement of the traversal token at each depth, in the words
    of the specification. *)
Definition specReplacement (d : nat) : str :=
  match d with
  | 0 => lit "./"
  | 1 => lit "../"
  | _ => repeat (lit "../") d
  end.

(** The four rewrites of [fixDomain] with their dollar-free templates. *)
Definition subAbs := subst (map C ksAbsDomain) (dq :: lit "/") 0.

Definition subRel := subst (map C ksRelDomain) (dq :: lit "./") 0.

Definition subHref := subst (map C ksHref) (lit "href=" ++ dq :: lit "./") 0.

Definition subSrc := subst (map C ksSrc) (lit "src=" ++ dq :: lit "./") 0.

(** A text that starts with a dot and goes on with a dot or a slash. *)
Definition dotted (blk : str) : Prop :=
  exists b rest, blk = "."%char :: b :: rest /\ (b = "."%char \/ b = "/"%char)
                 /\ Forall (fun c => c = "."%char \/ c = "/"%char) rest.

(** One of the four patterns on the old domain directory. *)
Definition isDomainPattern (ks : list cls) : Prop :=
  ks = ksAbsDomain \/ ks = ksRelDomain \/ ks = ksHref \/ ks = ksSrc.

(** The text the domain patterns look for after the quote. *)
Definition oldAbs : str := lit "/www.miracles-of-quran.com/".

Definition oldRel : str := lit "www.miracles-of-quran.com/".

(** Three dots and a slash: a traversal token after a dot. *)
Definition ksDotToken : list cls := map One (lit ".../").

(** A quote, then the old domain directory twice. *)
Definition ksTwice : list cls := ksAbsDomain ++ map One oldRel.

(** The listing with [g] applied to its first entry named [n]. *)
Fixpoint mapEntry (n : name) (g : node -> node) (es : list (name * node))
  : list (name * node) :=
  match es with
  | [] => []
  | (m, c) :: es' =>
      if nameEqb n m then (m, g c) :: es' else (m, c) :: mapEntry n g es'
  end.

(** A file or a directory. *)
Definition notLink (c : node) : Prop :=
  match c with Link _ => False | _ => True end.

(** The text of the counterexample to C9: a section tag with the marker
    and a script tag, the end of the template without its closing body
    tag, then the template around a widget whose text closes that
    section and opens another. *)
Definition loopedWidget : str :=
  quoted ["<div id="; "google_translate_element"; "></div></section>"]
  ++ quoted ["<section cid-tJkSLE66e9><script src="; "translate_a/element</script>"].

Definition loopedPage : str :=
  quoted ["<section cid-tJkSLE66e9><script src="; "translate_a/element</script>"]
  ++ take (length (text wrapperTailLines) - 7) (text wrapperTailLines)
  ++ wrapper loopedWidget.

(** A listed file: below [dir], through directories whose names are not
    passed over, with a name that is not passed over and ends in
    [.html]. *)
Definition listed (dir f : path) : Prop :=
  exists dirs file,
    f = dir ++ dirs ++ [file] /\
    Forall (fun n => skipped n = false) (dirs ++ [file]) /\
    endsWith (lit ".html") file = true.

(** The file [f] is an entry that is no directory, reached from the
    directory [c] at [dir] through directories only. *)
Definition direct (dir : path) (c : node) (f : path) : Prop :=
  exists dirs file es x,
    f = dir ++ dirs ++ [file] /\
    get c dirs = Some (Dir es) /\
    find file es = Some x /\
    isDir x = false.

(** A site whose directory [pages] holds a link back to the root, a link
    to itself and a link named as a page. *)
Definition cyclicSite : node :=
  Dir [(lit "index.html", File []);
       (lit "pages", Dir [(lit "up", Link []);
                          (lit "self", Link [lit "pages"]);
                          (lit "a.html", File []);
                          (lit "home.html", Link [lit "index.html"])])].

(** The container element of the widget. *)
Definition container : str :=
  quoted ["<div id="; "google_translate_element"; "></div>"].

(** The pattern of the widget after the container. *)
Definition reWidgetRest : regex :=
  StarL AnyChar :: chars "<script src=" ++ C (One dq)
    :: StarL Dot :: chars "translate_a/element"
    ++ StarL Dot :: chars "</script>".

(** The template before and after the widget. *)
Definition wrapperHead : str := text wrapperHeadLines.

Definition wrapperTail : str := text wrapperTailLines.

(** A widget as the translation service hands it out. *)
Definition sampleWidget : str :=
  quoted ["<div id="; "google_translate_element"; "></div><script src=";
          "//translate.google.com/translate_a/element.js"; "></script>"].

(** The tags of the title pattern as sequences of classes. *)
Definition ksTitleOpen : list cls := map eitherCase (lit "<title").

Definition ksTitleClose : list cls := map eitherCase (lit "</title>").

(** The continuation of the title pattern after the opening tag, for the
    text [s1] left where the captured group starts. *)
Definition titleRest (s1 : str) : option str :=
  matchK titleText (fun s2 =>
    matchK titleClose (fun _ => Some (take (length s1 - length s2) s1)) s2) s1.

(** A computation that leaves the whole state as it is. *)
Definition still {A} (m : M A) : Prop :=
  forall s r s', m s = Some (r, s') -> s' = s.

(** A computation that leaves the write log and the counter as they
    are. *)
Definition quiet {A} (m : M A) : Prop :=
  forall s r s', m s = Some (r, s') ->
    writes s' = writes s /\ processedFiles s' = processedFiles s.

(** The state [s'] is [s] after the writes [ws], each of them counted. *)
Definition wrote (s s' : state) (ws : list path) : Prop :=
  writes s' = writes s ++ ws /\ processedFiles s' = processedFiles s + length ws.

(** The entries of the subdirectory that the loop of
    [moveAndFixStructure] moves, and those named [index.html], which it
    passes over. *)
Definition isIndex (e : name * node) : bool := nameEqb e.1 (lit "index.html").

Definition pages (ses : list (name * node)) : list (name * node) :=
  List.filter (fun e => negb (isIndex e)) ses.

Definition innerIndex (ses : list (name * node)) : list (name * node) :=
  List.filter isIndex ses.

(** The name under which the outer index file is kept. *)
Definition backupName (outsideContent : str) : name :=
  if looksLikeHTTrack outsideContent then lit "httrack-index.html"
  else lit "original-index.html".

(** A listing of files only. *)
Definition filesOnly (es : list (name * node)) : Prop :=
  Forall (fun e => exists c, e.2 = File c) es.

(** The listing [dst] after the merge of the files [src] into it: each
    file takes the place of the entry of its name, at the end. *)
Definition merged (dst src : list (name * node)) : list (name * node) :=
  foldl (fun d e => remove e.1 d ++ [e]) dst src.

(** The file [f] is what the scan of the directory [c] at [dir] looks
    for: an entry that is no directory, with a name ending in [.html],
    reached through directories only, no name on the way passed
    over. *)
Definition wanted (dir : path) (c : node) (f : path) : Prop :=
  exists dirs file es x,
    f = dir ++ dirs ++ [file] /\
    get c dirs = Some (Dir es) /\
    find file es = Some x /\
    isDir x = false /\
    Forall (fun n => skipped n = false) (dirs ++ [file]) /\
    endsWith (lit ".html") file = true.

(** The footer pattern in its parts: the class of the characters of a
    tag, the opening of the tag, the marker, the closing tag, and the
    pattern after the marker and after the opening. *)
Definition notGt : cls := NoneOf [">"%char].

Definition ksSectionOpen : list cls := map One (lit "<section").

Definition ksMarker : list cls := map One footerMarker.

Definition ksSectionClose : list cls := map One (lit "</section>").

Definition footerAfterMarker : regex :=
  StarG notGt :: C (One ">"%char) :: StarL AnyChar :: map C ksSectionClose.

Definition footerAfterOpen : regex :=
  StarG notGt :: map C ksMarker ++ footerAfterMarker.

(** Every opening of a section tag in the text has its [>] in the
    text. *)
Fixpoint sealed (pre : str) : bool :=
  match pre with
  | [] => true
  | _ :: pre' =>
      (negb (startsWith (lit "<section") pre) || mem ">"%char (drop 8 pre))
      && sealed pre'
  end.

(** A section element with the marker in its opening tag. *)
Definition footerSection (a1 a2 body : str) : str :=
  lit "<section" ++ a1 ++ footerMarker ++ a2 ++ ">"%char :: body ++ lit "</section>".

(** The tree without the text of its files: the directories, the names
    and the links. *)
Fixpoint skeleton (t : node) : node :=
  match t with
  | File _ => File []
  | Dir es => Dir (map (fun e => (e.1, skeleton e.2)) es)
  | Link target => Link target
  end.

(** The widget pattern in its parts: the opening of the script tag up
    to the quote, the path that tells the script of the translation
    service, the closing tag, and the pattern on the line of the script
    tag. *)
Definition scriptOpen : str := lit "<script src=" ++ [dq].

Definition elementPath : str := lit "translate_a/element".

Definition scriptClose : str := lit "</script>".

Definition reWidgetEnd : regex := StarL Dot :: map C (map One scriptClose).

Definition reWidgetLine : regex :=
  StarL Dot :: map C (map One elementPath) ++ reWidgetEnd.

Definition reWidgetScript : regex := map C (map One scriptOpen) ++ reWidgetLine.

(** A widget: the container, a text, and a script tag whose line is
    [line]. *)
Definition widgetOf (mid line : str) : str :=
  container ++ mid ++ scriptOpen ++ line ++ scriptClose.

(** A footer section of a page with the text before it: the text, the
    attributes of the opening tag before and after the marker, and the
    body up to the closing tag. *)
Record footerPart := mkFooterPart {
  partBefore : str;
  partAttrs1 : str;
  partAttrs2 : str;
  partBody : str
}.

Definition partText (p : footerPart) : str :=
  partBefore p ++ footerSection (partAttrs1 p) (partAttrs2 p) (partBody p).

(** The section of the part is the element the pattern finds: it starts
    at the first opening of a section tag left open by the text before
    it, the marker lies inside the opening tag, and the body ends at the
    first closing section tag. *)
Definition partOk (p : footerPart) : bool :=
  sealed (partBefore p)
  && negb (mem ">"%char (partAttrs1 p)) && negb (mem ">"%char (partAttrs2 p))
  && negb (includes (lit "</section>") (partBody p)).

(** A page: footer sections, each after a text, and the text after the
    last of them. *)
Definition pageOf (ps : list footerPart) (last : str) : str :=
  foldr (fun p s => partText p ++ s) last ps.

(** The text of the page outside its footer sections. *)
Definition outsideOf (ps : list footerPart) (last : str) : str :=
  foldr (fun p s => partBefore p ++ s) last ps.

End Vocabulary.

Import Vocabulary.

(** * Proofs *)

Import FS RemoveFooterSection PathFixer.

(** ** Facts about strings *)

Module StrFacts.

Lemma ceqb_eq a b : ceqb a b = true <-> a = b.
Proof. apply Ascii.eqb_eq. Qed.

Lemma ceqb_refl a : ceqb a a = true.
Proof. by apply ceqb_eq. Qed.

Lemma startsWith_app p s : startsWith p (p ++ s) = true.
Proof. induction p as [|a p IH]; simpl; [done|]. by rewrite ceqb_refl. Qed.

Lemma startsWith_spec p s :
  startsWith p s = true <-> exists t, s = p ++ t.
Proof.
  split.
  - revert s. induction p as [|a p IH]; intros s H; simpl in *.
    + by exists s.
    + destruct s as [|b s]; [done|].
      apply andb_true_iff in H as [Hab H]. apply ceqb_eq in Hab as ->.
      destruct (IH _ H) as [t ->]. by exists t.
  - intros [t ->]. apply startsWith_app.
Qed.

Lemma includes_here p s : startsWith p s = true -> includes p s = true.
Proof. intros H. destruct s; simpl; by rewrite H. Qed.

Lemma includes_spec p s :
  includes p s = true <-> exists a b, s = a ++ p ++ b.
Proof.
  split.
  - induction s as [|c s IH]; simpl; intros H.
    + apply orb_true_iff in H as [H|H]; [|done].
      apply startsWith_spec in H as [t Ht]. by exists [], t.
    + apply orb_true_iff in H as [H|H].
      * apply startsWith_spec in H as [t Ht]. by exists [], t.
      * destruct (IH H) as (a & b & ->). by exists (c :: a), b.
  - intros (a & b & ->). induction a as [|c a IH]; simpl.
    + apply includes_here, startsWith_app.
    + rewrite IH. apply orb_true_r.
Qed.

Lemma includes_app_false p a b :
  includes p (a ++ b) = false -> includes p a = false /\ includes p b = false.
Proof.
  intros H. split.
  - destruct (includes p a) eqn:E; [|done].
    apply includes_spec in E as (x & y & ->).
    rewrite <- H. symmetry. apply includes_spec.
    exists x, (y ++ b). by rewrite <- !app_assoc.
  - destruct (includes p b) eqn:E; [|done].
    apply includes_spec in E as (x & y & ->).
    rewrite <- H. symmetry. apply includes_spec.
    exists (a ++ x), y. by rewrite <- !app_assoc.
Qed.

Lemma expand_plain b m a tmpl : plain tmpl = true -> expand b m a tmpl = tmpl.
Proof.
  induction tmpl as [|c t IH]; simpl; [done|].
  intros H. apply andb_true_iff in H as [Hc Ht].
  apply negb_true_iff in Hc. rewrite Hc. by rewrite IH.
Qed.

Lemma plain_app a b : plain (a ++ b) = plain a && plain b.
Proof. apply forallb_app. Qed.

Lemma plain_repeat s n : plain s = true -> plain (repeat s n) = true.
Proof.
  intros H. induction n as [|n IH]; simpl; [done|].
  by rewrite plain_app, H, IH.
Qed.

End StrFacts.

Import StrFacts.

(** ** Facts about the matcher and the global replacement *)

Module RegexFacts.

Lemma replaceGo_plain r tmpl before skip s :
  plain tmpl = true -> replaceGo r tmpl before skip s = subst r tmpl skip s.
Proof.
  intros Hp. revert before skip.
  induction s as [|c s IH]; intros before skip; simpl.
  - destruct skip; [|done]. destruct (match_len r []); [|done].
    by apply expand_plain.
  - destruct skip as [|k]; [|apply IH].
    destruct (match_len r (c :: s)) as [[|n]|]; rewrite ?expand_plain, ?IH; done.
Qed.

Lemma replaceAll_plain r tmpl s :
  plain tmpl = true -> replaceAll r tmpl s = subst r tmpl 0 s.
Proof. apply replaceGo_plain. Qed.

(** Where the pattern matches nowhere the text is left as it is. *)
Lemma replaceGo_no_match r tmpl before s :
  test r s = false -> replaceGo r tmpl before 0 s = s.
Proof.
  revert before. induction s as [|c s IH]; intros before; simpl.
  - unfold match_len. destruct (match_here r []); done.
  - unfold match_len. destruct (match_here r (c :: s)); [done|].
    intros H. by rewrite IH.
Qed.

Lemma replaceAll_no_match r tmpl s :
  test r s = false -> replaceAll r tmpl s = s.
Proof. apply replaceGo_no_match. Qed.

(** *** Patterns without a star *)

Lemma match_here_fixed ks s :
  match_here (map C ks) s =
    if fixedMatch ks s then Some (drop (length ks) s) else None.
Proof.
  revert s. induction ks as [|k ks IH]; intros s; simpl; [done|].
  destruct s as [|x s]; [done|]. destruct (accepts k x); [|done]. apply IH.
Qed.

Lemma fixedMatch_length ks s : fixedMatch ks s = true -> length ks <= length s.
Proof.
  revert s. induction ks as [|k ks IH]; intros s; simpl; [lia|].
  destruct s as [|x s]; [done|]. intros H.
  apply andb_true_iff in H as [_ H]. apply IH in H. simpl. lia.
Qed.

Lemma match_len_fixed ks s :
  match_len (map C ks) s = if fixedMatch ks s then Some (length ks) else None.
Proof.
  unfold match_len. rewrite match_here_fixed.
  destruct (fixedMatch ks s) eqn:E; [|done].
  apply fixedMatch_length in E. rewrite length_drop. f_equal. lia.
Qed.

(** The match looks at the first [length ks] characters only. *)
Lemma fixedMatch_app ks s t :
  length ks <= length s -> fixedMatch ks (s ++ t) = fixedMatch ks s.
Proof.
  revert s. induction ks as [|k ks IH]; intros s H; simpl; [done|].
  destruct s as [|x s]; simpl in *; [lia|]. rewrite IH; [done|lia].
Qed.

Lemma fixedMatch_app_true ks s t :
  fixedMatch ks s = true -> fixedMatch ks (s ++ t) = true.
Proof.
  intros H. rewrite fixedMatch_app; [done|]. by apply fixedMatch_length.
Qed.

(** A match that starts [k] characters before [occ] and runs into it
    makes the rest of the pattern match the start of [occ]. *)
Lemma fixedMatch_straddle ks pre t :
  length pre < length ks ->
  fixedMatch ks (pre ++ t) = true ->
  fixedMatch (drop (length pre) ks) t = true.
Proof.
  revert ks. induction pre as [|c pre IH]; intros ks Hl H; simpl in *; [done|].
  destruct ks as [|k ks]; simpl in *; [lia|].
  apply andb_true_iff in H as [_ H]. apply IH; [lia|done].
Qed.

Lemma test_fixed_false ks s :
  test (map C ks) s = false ->
  forall a b, s = a ++ b -> fixedMatch ks b = false.
Proof.
  intros H a. revert s H. induction a as [|c a IH]; intros s H b ->; simpl in *.
  - destruct b; simpl in H; rewrite match_here_fixed in H;
      destruct (fixedMatch ks _); done.
  - rewrite match_here_fixed in H.
    destruct (fixedMatch ks (c :: a ++ b)); [done|]. by eapply IH.
Qed.

Lemma fixedMatch_compat ks s t :
  fixedMatch ks (s ++ t) = true -> compat ks s = true.
Proof.
  revert s. induction ks as [|k ks IH]; intros s H; destruct s as [|x s];
    simpl in *; try done.
  apply andb_true_iff in H as [-> H]. by apply IH.
Qed.

Lemma apart_spec ks s k :
  apart ks s = true -> 0 < k < length ks -> compat (drop k ks) s = false.
Proof.
  intros Ha Hk. unfold apart in Ha. rewrite forallb_forall in Ha.
  apply negb_true_iff, Ha, in_seq. lia.
Qed.

Section Replace.

Variables (ks : list cls) (repl : str).
Hypothesis Hne : 0 < length ks.

Abbreviation sub := (subst (map C ks) repl).

Lemma sub_nil : sub 0 [] = [].
Proof.
  simpl. rewrite match_len_fixed.
  destruct ks; simpl in *; [lia|done].
Qed.

Lemma sub_skip_all k x rest :
  length x = k -> sub k (x ++ rest) = sub 0 rest.
Proof.
  revert k. induction x as [|c x IH]; intros k Hk; simpl in *; subst; [done|].
  by apply IH.
Qed.

Lemma sub_skip_nil k x : length x = k -> sub k x = [].
Proof.
  intros H. rewrite <- (app_nil_r x), (sub_skip_all k x []) by done.
  apply sub_nil.
Qed.

(** The text before a part that no match can run into is rewritten on
    its own. *)
Lemma sub_app_skip pre rest k :
  apart ks rest = true -> k <= length pre ->
  sub k (pre ++ rest) = sub k pre ++ sub 0 rest.
Proof.
  intros Ha. revert k. induction pre as [|c pre IH]; intros k Hk.
  - simpl in Hk. assert (k = 0) as -> by lia. by rewrite sub_nil.
  - simpl. destruct k as [|k]; [|apply IH; simpl in Hk; lia].
    rewrite !match_len_fixed.
    destruct (fixedMatch ks (c :: pre ++ rest)) eqn:Efull.
    + assert (length ks <= length (c :: pre)) as Hin.
      { destruct (decide (length ks <= length (c :: pre))) as [|Hn]; [done|].
        exfalso.
        change (c :: pre ++ rest) with ((c :: pre) ++ rest) in Efull.
        apply fixedMatch_straddle in Efull; [|lia].
        rewrite <- (app_nil_r rest) in Efull.
        apply fixedMatch_compat in Efull.
        rewrite apart_spec in Efull; [done|done|]. simpl in *; lia. }
      change (c :: pre ++ rest) with ((c :: pre) ++ rest) in Efull.
      rewrite fixedMatch_app in Efull by done. rewrite Efull.
      destruct (length ks) as [|n] eqn:En; [lia|].
      rewrite <- app_assoc. f_equal. apply IH. simpl in Hin. lia.
    + assert (fixedMatch ks (c :: pre) = false) as ->.
      { destruct (fixedMatch ks (c :: pre)) eqn:E; [|done].
        apply (fixedMatch_app_true _ _ rest) in E.
        simpl in E. simpl in Efull. congruence. }
      simpl. f_equal. apply IH. lia.
Qed.

Lemma sub_app pre rest :
  apart ks rest = true -> sub 0 (pre ++ rest) = sub 0 pre ++ sub 0 rest.
Proof. intros H. apply sub_app_skip; [done|lia]. Qed.

(** An occurrence at the start of the text is replaced. *)
Lemma sub_match occ rest :
  fixedMatch ks occ = true -> length occ = length ks ->
  sub 0 (occ ++ rest) = repl ++ sub 0 rest.
Proof.
  intros Hocc Hlen.
  destruct occ as [|o occ']; [simpl in Hlen; lia|].
  simpl. rewrite match_len_fixed.
  change (o :: occ' ++ rest) with ((o :: occ') ++ rest).
  rewrite fixedMatch_app_true by done.
  destruct (length ks) as [|n] eqn:En; [lia|].
  f_equal. apply sub_skip_all. simpl in Hlen. lia.
Qed.

(** A part in which no match can start is copied. *)
Lemma sub_closed blk rest :
  closed ks blk = true -> sub 0 (blk ++ rest) = blk ++ sub 0 rest.
Proof.
  induction blk as [|c blk IH]; simpl; [done|].
  intros H. apply andb_true_iff in H as [Hc Hcl].
  apply negb_true_iff in Hc.
  rewrite match_len_fixed.
  destruct (fixedMatch ks (c :: blk ++ rest)) eqn:E.
  - change (c :: blk ++ rest) with ((c :: blk) ++ rest) in E.
    apply fixedMatch_compat in E. simpl in E. congruence.
  - f_equal. by apply IH.
Qed.

Lemma apart_app s t : apart ks s = true -> apart ks (s ++ t) = true.
Proof.
  unfold apart. rewrite !forallb_forall. intros H k Hk.
  specialize (H k Hk). apply negb_true_iff in H. apply negb_true_iff.
  destruct (compat (drop k ks) (s ++ t)) eqn:E; [|done].
  rewrite <- H. symmetry. clear -E.
  revert E. generalize (drop k ks). intros l. revert l.
  induction s as [|x s IH]; intros l E; destruct l as [|a l]; simpl in *; try done.
  apply andb_true_iff in E as [-> E]. by apply IH.
Qed.

(** Every occurrence is replaced, and the text on both sides is
    rewritten on its own. *)
Lemma sub_occurrence occ pre post :
  fixedMatch ks occ = true -> length occ = length ks ->
  apart ks occ = true ->
  sub 0 (pre ++ occ ++ post) = sub 0 pre ++ repl ++ sub 0 post.
Proof.
  intros Hocc Hlen Ha.
  rewrite sub_app by by apply apart_app.
  by rewrite sub_match.
Qed.

(** A part that no match can touch is copied, and the text on both
    sides is rewritten on its own. *)
Lemma sub_inert blk pre post :
  apart ks blk = true -> closed ks blk = true ->
  sub 0 (pre ++ blk ++ post) = sub 0 pre ++ blk ++ sub 0 post.
Proof.
  intros Ha Hc.
  rewrite sub_app by by apply apart_app.
  by rewrite sub_closed.
Qed.

End Replace.

(** *** Counting the occurrences of a pattern without a star *)

Section Count.

Variable ks : list cls.
Hypothesis Hne : 0 < length ks.

Lemma count_app pre rest :
  apart ks rest = true -> count ks (pre ++ rest) = count ks pre + count ks rest.
Proof.
  intros Ha. induction pre as [|c pre IH]; [done|].
  cbn [count app]. rewrite IH.
  enough (fixedMatch ks (c :: pre ++ rest) = fixedMatch ks (c :: pre)) as -> by lia.
  destruct (decide (length ks <= length (c :: pre))) as [Hl|Hl].
  - change (c :: pre ++ rest) with ((c :: pre) ++ rest). by apply fixedMatch_app.
  - destruct (fixedMatch ks (c :: pre ++ rest)) eqn:E.
    + exfalso. change (c :: pre ++ rest) with ((c :: pre) ++ rest) in E.
      apply fixedMatch_straddle in E; [|lia].
      rewrite <- (app_nil_r rest) in E. apply fixedMatch_compat in E.
      rewrite apart_spec in E; [done|done|]. simpl in *; lia.
    + destruct (fixedMatch ks (c :: pre)) eqn:E'; [|done].
      apply fixedMatch_length in E'. lia.
Qed.

Lemma count_closed blk rest :
  closed ks blk = true -> count ks (blk ++ rest) = count ks rest.
Proof.
  induction blk as [|c blk IH]; [done|].
  cbn [closed count app]. intros H. apply andb_true_iff in H as [Hc Hcl].
  apply negb_true_iff in Hc. rewrite IH by done.
  destruct (fixedMatch ks (c :: blk ++ rest)) eqn:E; [|done].
  change (c :: blk ++ rest) with ((c :: blk) ++ rest) in E.
  apply fixedMatch_compat in E. congruence.
Qed.

(** A part that no occurrence can touch adds nothing to the count. *)
Lemma count_inert pre blk post :
  apart ks blk = true -> closed ks blk = true ->
  count ks (pre ++ blk ++ post) = count ks pre + count ks post.
Proof.
  intros Ha Hc. rewrite count_app by by apply apart_app.
  by rewrite count_closed.
Qed.

Lemma count_test s : count ks s = 0 <-> test (map C ks) s = false.
Proof.
  induction s as [|c s IH]; cbn [count test]; rewrite match_here_fixed.
  - destruct ks; simpl in *; [lia|done].
  - destruct (fixedMatch ks (c :: s)); [split; [lia|done]|]. by rewrite <- IH.
Qed.

End Count.

Lemma count_positive ks s t : fixedMatch ks s = true -> 0 < length s -> 1 <= count ks (s ++ t).
Proof.
  intros H Hl. destruct s as [|c s]; simpl in Hl; [lia|].
  cbn [app count]. change (c :: s ++ t) with ((c :: s) ++ t).
  rewrite fixedMatch_app_true by done. lia.
Qed.

Lemma count_zero_suffix ks a b : count ks (a ++ b) = 0 -> count ks b = 0.
Proof. induction a as [|c a IH]; [done|]. cbn [app count]. lia. Qed.

Lemma count_zero_head ks s :
  0 < length ks -> count ks s = 0 -> fixedMatch ks s = false.
Proof.
  intros Hl. destruct s as [|c s]; cbn [count].
  - intros _. destruct ks; simpl in *; [lia|done].
  - destruct (fixedMatch ks (c :: s)); [lia|done].
Qed.

(** *** What a replacement can bring about *)

Section Output.

Variables (ks : list cls) (repl : str).
Hypothesis Hne : 0 < length ks.

Abbreviation sub := (subst (map C ks) repl).

Lemma sub_cons_cases c s :
  (exists n, fixedMatch ks (c :: s) = true /\ length ks = S n /\ n <= length s /\
             sub 0 (c :: s) = repl ++ sub 0 (drop n s))
  \/ (fixedMatch ks (c :: s) = false /\ sub 0 (c :: s) = c :: sub 0 s).
Proof.
  cbn [subst]. rewrite match_len_fixed.
  destruct (fixedMatch ks (c :: s)) eqn:E; [left|by right].
  destruct (length ks) as [|n] eqn:En; [lia|]. exists n.
  apply fixedMatch_length in E. simpl in E.
  split; [done|]. split; [done|]. split; [lia|].
  f_equal. rewrite <- (take_drop n s) at 1.
  apply sub_skip_all. rewrite length_take. lia.
Qed.

(** A pattern that clashes with the replacement matches the output only
    where it matched the input, as long as the input was copied. *)
Lemma sub_match_back Y s :
  clashes repl Y = true -> fixedMatch Y (sub 0 s) = true -> fixedMatch Y s = true.
Proof.
  revert Y. induction s as [|c s IH]; intros Y Hc H.
  - by rewrite sub_nil in H.
  - destruct Y as [|y Y]; [done|]. cbn [clashes] in Hc.
    apply andb_true_iff in Hc as [Hy HY]. apply negb_true_iff in Hy.
    destruct (sub_cons_cases c s) as [(n & _ & _ & _ & E)|[_ E]]; rewrite E in H.
    + apply fixedMatch_compat in H. congruence.
    + cbn [fixedMatch] in *. apply andb_true_iff in H as [-> H].
      by rewrite (IH Y).
Qed.

(** Where every occurrence of [X] in the input sits at a match, and [X]
    can neither start in the replacement nor run into it, the output
    holds no occurrence of [X]. *)
Lemma sub_count_zero X s :
  0 < length X -> clashes repl X = true -> closed X repl = true ->
  (forall a b, s = a ++ b -> fixedMatch X b = true -> fixedMatch ks b = true) ->
  count X (sub 0 s) = 0.
Proof.
  intros HX Hcl Hclosed.
  remember (length s) as n eqn:Hn. revert s Hn.
  induction n as [n IH] using lt_wf_ind. intros s -> Hs.
  destruct s as [|c s]; [by rewrite sub_nil|].
  destruct (sub_cons_cases c s) as [(m & _ & _ & Hm & E)|[Hno E]]; rewrite E.
  - rewrite count_closed by done.
    apply (IH (length (drop m s))); [rewrite length_drop; simpl; lia|done|].
    intros a b Hab. apply (Hs (c :: take m s ++ a)).
    by rewrite <- app_comm_cons, <- app_assoc, <- Hab, take_drop.
  - cbn [count].
    rewrite (IH (length s)); [|simpl; lia|done|].
    2:{ intros a b ->. by apply (Hs (c :: a)). }
    destruct (fixedMatch X (c :: sub 0 s)) eqn:Ex; [|done].
    rewrite <- E in Ex. apply sub_match_back in Ex; [|done].
    apply (Hs []) in Ex; [congruence|done].
Qed.

(** The output holds no occurrence of a pattern that the input did not
    hold. *)
Lemma sub_keeps_zero X s :
  0 < length X -> clashes repl X = true -> closed X repl = true ->
  count X s = 0 -> count X (sub 0 s) = 0.
Proof.
  intros HX Hcl Hclosed Hz. apply sub_count_zero; try done.
  intros a b -> Hb. apply count_zero_suffix in Hz.
  apply count_zero_head in Hz; [congruence|done].
Qed.

(** The output holds no occurrence of the pattern replaced. *)
Lemma sub_own_zero s :
  clashes repl ks = true -> closed ks repl = true -> count ks (sub 0 s) = 0.
Proof. intros Hcl Hclosed. by apply sub_count_zero. Qed.

End Output.

End RegexFacts.

Import RegexFacts.


(** ** Facts about the path fixer *)

Module PathFixerFacts.

Lemma chars_fixed s : chars s = map C (map One (lit s)).
Proof. unfold chars. by rewrite map_map. Qed.

Lemma fixedMatch_One l s : fixedMatch (map One l) s = startsWith l s.
Proof.
  revert s. induction l as [|a l IH]; intros s; simpl; [done|].
  destruct s as [|x s]; [done|]. simpl. by rewrite IH.
Qed.

Lemma test_chars p s : test (chars p) s = includes (lit p) s.
Proof.
  rewrite chars_fixed.
  induction s as [|c s IH]; simpl; rewrite match_here_fixed, fixedMatch_One.
  - destruct (startsWith (lit p) []); done.
  - destruct (startsWith (lit p) (c :: s)); [done|]. apply IH.
Qed.

Lemma reTraversal_fixed : reTraversal = map C ksTraversal.
Proof. reflexivity. Qed.
Lemma reAbsDomain_fixed : reAbsDomain = map C ksAbsDomain.
Proof. reflexivity. Qed.
Lemma reRelDomain_fixed : reRelDomain = map C ksRelDomain.
Proof. reflexivity. Qed.
Lemma reHref_fixed : reHref = map C ksHref.
Proof. reflexivity. Qed.
Lemma reSrc_fixed : reSrc = map C ksSrc.
Proof. reflexivity. Qed.

Lemma plain_specReplacement d : plain (specReplacement d) = true.
Proof. destruct d as [|[|d]]; try done. by apply plain_repeat. Qed.

Lemma fixTraversal_subst d s :
  fixTraversal d s = subst (map C ksTraversal) (specReplacement d) 0 s.
Proof.
  unfold fixTraversal.
  destruct d as [|[|d]]; simpl Nat.eqb; cbv iota;
    rewrite reTraversal_fixed, replaceAll_plain; try done.
  by apply plain_repeat.
Qed.

Lemma split_length sep s : 1 <= length (split sep s).
Proof.
  induction s as [|c s IH]; simpl; [lia|].
  destruct (ceqb c sep); simpl; [lia|].
  destruct (split sep s); simpl in *; lia.
Qed.

(** The depth of a file below the root: the number of directories on
    the way, when no name holds the separator. *)
Lemma split_free sep w : mem sep w = false -> split sep w = [w].
Proof.
  induction w as [|c w IH]; [done|]. cbn [mem existsb]. fold (mem sep w).
  intros H. apply orb_false_iff in H as [Hc Hw]. cbn [split].
  unfold ceqb in *. rewrite Ascii.eqb_sym, Hc. by rewrite IH.
Qed.

Lemma split_app_sep sep w rest :
  mem sep w = false -> split sep (w ++ sep :: rest) = w :: split sep rest.
Proof.
  induction w as [|c w IH]; intros H.
  - cbn [app split]. by rewrite ceqb_refl.
  - cbn [mem existsb] in H. fold (mem sep w) in H.
    apply orb_false_iff in H as [Hc Hw]. cbn [app split].
    unfold ceqb in *. rewrite Ascii.eqb_sym, Hc. by rewrite IH.
Qed.

Lemma split_join sep segs :
  segs <> [] -> Forall (fun n => mem sep n = false) segs ->
  split sep (join [sep] segs) = segs.
Proof.
  intros Hne HF. induction HF as [|w ws Hw HF IH]; [done|].
  destruct ws as [|w' ws]; [by apply split_free|].
  change (join [sep] (w :: w' :: ws)) with (w ++ sep :: join [sep] (w' :: ws)).
  rewrite split_app_sep by done. by rewrite IH.
Qed.

Lemma relativeSegments_below root rel : relativeSegments root (root ++ rel) = rel.
Proof.
  induction root as [|a root IH]; [by destruct rel|].
  cbn [app relativeSegments]. unfold nameEqb. by rewrite bool_decide_eq_true_2.
Qed.

Lemma depthOf_below sep root rel :
  rel <> [] -> Forall (fun n => mem sep n = false) rel ->
  depthOf sep (relative sep root (root ++ rel)) = length rel - 1.
Proof.
  intros Hne HF. unfold depthOf, relative.
  by rewrite relativeSegments_below, split_join.
Qed.

Lemma fixDomain_subst s : fixDomain s = subSrc (subHref (subRel (subAbs s))).
Proof.
  unfold fixDomain, subSrc, subHref, subRel, subAbs.
  rewrite reAbsDomain_fixed, reRelDomain_fixed, reHref_fixed, reSrc_fixed.
  by rewrite !replaceAll_plain.
Qed.

Lemma dotted_specReplacement d : dotted (specReplacement d).
Proof.
  destruct d as [|[|d]].
  - exists "/"%char, []. auto.
  - exists "."%char, ["/"%char]. repeat split; auto.
  - exists "."%char, ("/"%char :: repeat (lit "../") (S d)). repeat split; auto.
    constructor; [auto|].
    generalize (S d). intros n. induction n as [|n IH]; simpl; auto.
Qed.

(** The patterns on the domain name cannot touch such a text. *)
Lemma closed_dots k ks blk :
  (forall c, c = "."%char \/ c = "/"%char -> accepts k c = false) ->
  Forall (fun c => c = "."%char \/ c = "/"%char) blk ->
  closed (k :: ks) blk = true.
Proof.
  intros Hk. induction 1 as [|c blk Hc _ IH]; simpl; [done|].
  fold (closed (k :: ks) blk). by rewrite IH, (Hk c Hc).
Qed.

Lemma domain_inert_dotted ks blk :
  isDomainPattern ks -> dotted blk ->
  apart ks blk = true /\ closed ks blk = true.
Proof.
  intros Hks (b & rest & -> & Hb & Hrest). split.
  - destruct Hks as [-> | [-> | [-> | ->]]]; destruct Hb as [-> | ->]; reflexivity.
  - assert (Forall (fun c => c = "."%char \/ c = "/"%char) ("."%char :: b :: rest)) as HF.
    { constructor; [auto|]. by constructor. }
    destruct Hks as [-> | [-> | [-> | ->]]]; apply closed_dots; try done;
      by intros c [-> | ->].
Qed.

Lemma domain_pattern_length ks : isDomainPattern ks -> 0 < length ks.
Proof. intros [-> | [-> | [-> | ->]]]; simpl; lia. Qed.

Lemma fixDomain_dotted blk pre post :
  dotted blk -> fixDomain (pre ++ blk ++ post) = fixDomain pre ++ blk ++ fixDomain post.
Proof.
  intros Hb. rewrite !fixDomain_subst.
  unfold subSrc, subHref, subRel, subAbs.
  rewrite (sub_inert ksAbsDomain); [|simpl; lia|apply domain_inert_dotted; unfold isDomainPattern; auto..].
  rewrite (sub_inert ksRelDomain); [|simpl; lia|apply domain_inert_dotted; unfold isDomainPattern; auto..].
  rewrite (sub_inert ksHref); [|simpl; lia|apply domain_inert_dotted; unfold isDomainPattern; auto..].
  rewrite (sub_inert ksSrc); [|simpl; lia|apply domain_inert_dotted; unfold isDomainPattern; auto..].
  done.
Qed.

(** Replacing a literal by itself changes nothing. *)
Lemma subst_self l s k :
  0 < length l -> k <= length s ->
  subst (map C (map One l)) l k s = drop k s.
Proof.
  intros Hl. revert k. induction s as [|c s IH]; intros k Hk.
  - simpl in Hk. assert (k = 0) as -> by lia.
    apply (sub_nil (map One l)). by rewrite length_map.
  - simpl. destruct k as [|k]; [|apply IH; simpl in Hk; lia].
    rewrite match_len_fixed, fixedMatch_One, length_map.
    destruct (startsWith l (c :: s)) eqn:E.
    + apply startsWith_spec in E as [t E].
      destruct l as [|a l]; [simpl in Hl; lia|].
      simpl in E. injection E as -> ->. simpl.
      rewrite IH by (rewrite length_app; lia).
      by rewrite drop_app_length.
    + rewrite IH by lia. done.
Qed.

Lemma fixTraversal_depth1 s : fixTraversal 1 s = s.
Proof.
  rewrite fixTraversal_subst. unfold ksTraversal, specReplacement.
  by rewrite subst_self; [|simpl; lia|lia].
Qed.

(** Where the patterns match: a quote of either kind before a literal,
    and a literal alone. *)
Lemma test_fixed_includes l s :
  test (map C (map One l)) s = includes l s.
Proof.
  induction s as [|c s IH]; simpl; rewrite match_here_fixed, fixedMatch_One.
  - destruct (startsWith l []); done.
  - destruct (startsWith l (c :: s)); [done|]. apply IH.
Qed.

Lemma test_quoted_includes a b l s :
  test (map C (OneOf [a; b] :: map One l)) s
  = includes (a :: l) s || includes (b :: l) s.
Proof.
  assert (forall s, fixedMatch (OneOf [a; b] :: map One l) s
                    = startsWith (a :: l) s || startsWith (b :: l) s) as Hm.
  { intros [|x t]; simpl; [done|]. rewrite fixedMatch_One.
    unfold mem. simpl. rewrite orb_false_r.
    unfold ceqb. rewrite (Ascii.eqb_sym x a), (Ascii.eqb_sym x b).
    fold (ceqb a x) (ceqb b x).
    destruct (ceqb a x), (ceqb b x), (startsWith l t); done. }
  induction s as [|c s IH].
  - cbn [test includes]. rewrite match_here_fixed, Hm.
    destruct (startsWith (a :: l) []), (startsWith (b :: l) []); done.
  - cbn [test includes]. rewrite match_here_fixed, Hm, IH.
    destruct (startsWith (a :: l) (c :: s)), (startsWith (b :: l) (c :: s)),
      (includes (a :: l) s), (includes (b :: l) s); done.
Qed.

Lemma includes_longer a l s :
  includes l s = false -> includes (a ++ l) s = false.
Proof.
  intros H. destruct (includes (a ++ l) s) eqn:E; [|done].
  apply includes_spec in E as (x & y & ->).
  rewrite <- H. symmetry. apply includes_spec.
  exists (x ++ a), y. by rewrite <- !app_assoc.
Qed.

(** A text with no quote before the old domain directory is left as it
    is by [fixDomain]. *)
Lemma fixDomain_no_match s :
  includes (dq :: oldAbs) s = false -> includes (sq :: oldAbs) s = false ->
  includes (dq :: oldRel) s = false -> includes (sq :: oldRel) s = false ->
  fixDomain s = s.
Proof.
  intros H1 H2 H3 H4. unfold fixDomain.
  rewrite (replaceAll_no_match reAbsDomain).
  2:{ rewrite reAbsDomain_fixed. unfold ksAbsDomain.
      rewrite test_quoted_includes. fold oldAbs. by rewrite H1, H2. }
  rewrite (replaceAll_no_match reRelDomain).
  2:{ rewrite reRelDomain_fixed. unfold ksRelDomain.
      rewrite test_quoted_includes. fold oldRel. by rewrite H3, H4. }
  rewrite (replaceAll_no_match reHref).
  2:{ change reHref with (map C (map One (lit "href=" ++ dq :: oldRel))).
      rewrite test_fixed_includes. by apply includes_longer. }
  rewrite (replaceAll_no_match reSrc).
  2:{ change reSrc with (map C (map One (lit "src=" ++ dq :: oldRel))).
      rewrite test_fixed_includes. by apply includes_longer. }
  done.
Qed.

Lemma fixTraversal_no_match d s :
  d = 1 \/ includes (lit "../") s = false -> fixTraversal d s = s.
Proof.
  intros [-> | H]; [apply fixTraversal_depth1|].
  unfold fixTraversal.
  destruct (d =? 0); [|destruct (d =? 1)];
    apply replaceAll_no_match; unfold reTraversal; by rewrite test_chars.
Qed.

Lemma fixContent_no_match d s :
  d = 1 \/ includes (lit "../") s = false ->
  includes (dq :: oldAbs) s = false -> includes (sq :: oldAbs) s = false ->
  includes (dq :: oldRel) s = false -> includes (sq :: oldRel) s = false ->
  fixContent d s = s.
Proof.
  intros H0 H1 H2 H3 H4. unfold fixContent.
  rewrite fixTraversal_no_match by done. by apply fixDomain_no_match.
Qed.

(** An occurrence of the token through all the substitutions. *)
Lemma fixContent_occurrence d pre post :
  fixContent d (pre ++ lit "../" ++ post)
  = fixContent d pre ++ specReplacement d ++ fixContent d post.
Proof.
  unfold fixContent. rewrite !fixTraversal_subst.
  rewrite (sub_occurrence ksTraversal); [|simpl; lia|done..].
  rewrite <- !fixTraversal_subst.
  apply fixDomain_dotted, dotted_specReplacement.
Qed.

Lemma fixContent_nil d : fixContent d [] = [].
Proof. by destruct d as [|[|d]]. Qed.

(** Rewriting a run of tokens. *)
Lemma fixContent_tokens d n post :
  fixContent d (repeat (lit "../") n ++ post)
  = repeat (specReplacement d) n ++ fixContent d post.
Proof.
  induction n as [|n IH]; [done|].
  change (repeat ?x (S n)) with (x ++ repeat x n).
  rewrite <- !app_assoc.
  rewrite <- (app_nil_l (lit "../" ++ _)).
  by rewrite fixContent_occurrence, fixContent_nil, IH.
Qed.

Lemma repeat_plus s n m : repeat s (n + m) = repeat s n ++ repeat s m.
Proof. induction n as [|n IH]; simpl; [done|]. by rewrite IH, app_assoc. Qed.

Lemma repeat_repeat s n m : repeat (repeat s n) m = repeat s (m * n).
Proof.
  induction m as [|m IH]; simpl; [done|]. by rewrite IH, repeat_plus.
Qed.

(** *** A second pass at depth 0 or 1 *)

Lemma count_includes l s :
  0 < length l -> count (map One l) s = 0 <-> includes l s = false.
Proof.
  intros Hl. rewrite count_test by by rewrite length_map.
  by rewrite test_fixed_includes.
Qed.

Lemma count_quoted a b l s :
  count (OneOf [a; b] :: map One l) s = 0
  <-> includes (a :: l) s = false /\ includes (b :: l) s = false.
Proof.
  rewrite count_test by (simpl; lia). rewrite test_quoted_includes.
  apply orb_false_iff.
Qed.

Lemma fixedMatch_app_pattern A B s :
  fixedMatch (A ++ B) s = fixedMatch A s && fixedMatch B (drop (length A) s).
Proof.
  revert s. induction A as [|a A IH]; intros s; [done|].
  destruct s as [|x s]; [done|]. cbn [app fixedMatch length drop].
  by rewrite IH, andb_assoc.
Qed.

(** At depth 0 the traversal step leaves a token only where the input had
    a token after a dot. *)
Lemma traversal0_clean s :
  count ksDotToken s = 0 ->
  count ksTraversal (subst (map C ksTraversal) (lit "./") 0 s) = 0.
Proof.
  assert (0 < length ksTraversal) as Hne by (simpl; lia).
  remember (length s) as n eqn:Hn. revert s Hn.
  induction n as [n IH] using lt_wf_ind. intros s -> Hz.
  destruct s as [|c s]; [done|].
  destruct (sub_cons_cases ksTraversal (lit "./") Hne c s)
    as [(m & _ & _ & Hm & E)|[Hno E]]; rewrite E.
  - rewrite count_closed by done.
    apply (IH (length (drop m s))); [rewrite length_drop; simpl; lia|done|].
    apply (count_zero_suffix _ (c :: take m s)).
    by rewrite <- app_comm_cons, take_drop.
  - cbn [count].
    rewrite (IH (length s)); [|simpl; lia|done|].
    2:{ by apply (count_zero_suffix _ [c]). }
    destruct (fixedMatch ksTraversal (c :: subst (map C ksTraversal) (lit "./") 0 s))
      eqn:Ex; [|done].
    exfalso. apply count_zero_head in Hz; [|simpl; lia].
    change ksTraversal with [One "."%char; One "."%char; One "/"%char] in *.
    change ksDotToken with [One "."%char; One "."%char; One "."%char; One "/"%char] in *.
    cbn [fixedMatch] in Ex. apply andb_true_iff in Ex as [Hc Ex].
    destruct s as [|c' s']; [done|].
    destruct (sub_cons_cases _ (lit "./") Hne c' s')
      as [(m & Hyes & _ & _ & E')|[Hno' E']]; rewrite E' in Ex.
    + cbn [fixedMatch] in Hz. rewrite Hc in Hz. cbn [fixedMatch] in Hyes.
      cbn [andb] in Hz. congruence.
    + cbn [fixedMatch] in Ex. apply andb_true_iff in Ex as [Hc' Ex].
      apply (sub_match_back _ (lit "./") Hne [One "/"%char]) in Ex; [|done].
      cbn [fixedMatch] in Hno. rewrite Hc, Hc' in Hno. cbn [andb] in Hno.
      cbn [fixedMatch] in Ex. congruence.
Qed.

(** The first domain rewrite leaves a match of its pattern only where the
    input had the old domain directory twice after a quote. *)
Lemma subAbs_clean s : count ksTwice s = 0 -> count ksAbsDomain (subAbs s) = 0.
Proof.
  assert (0 < length ksAbsDomain) as Hne by (simpl; lia).
  unfold subAbs.
  remember (length s) as n eqn:Hn. revert s Hn.
  induction n as [n IH] using lt_wf_ind. intros s -> Hz.
  destruct s as [|c s]; [done|].
  destruct (sub_cons_cases ksAbsDomain (dq :: lit "/") Hne c s)
    as [(m & Hyes & Hlen & Hm & E)|[Hno E]]; rewrite E.
  - assert (count ksAbsDomain (subst (map C ksAbsDomain) (dq :: lit "/") 0 (drop m s)) = 0)
      as Hout.
    { apply (IH (length (drop m s))); [rewrite length_drop; simpl; lia|done|].
      apply (count_zero_suffix _ (c :: take m s)).
      by rewrite <- app_comm_cons, take_drop. }
    change ((dq :: lit "/") ++ ?x) with (dq :: "/"%char :: x).
    cbn [count]. rewrite Hout.
    change (fixedMatch ksAbsDomain ("/"%char :: ?x)) with false.
    change (fixedMatch ksAbsDomain (dq :: "/"%char :: ?x))
      with (fixedMatch (map One oldRel) x).
    destruct (fixedMatch (map One oldRel) _) eqn:Ex; [|done].
    exfalso. apply (sub_match_back _ _ Hne) in Ex; [|done].
    apply count_zero_head in Hz; [|simpl; lia].
    unfold ksTwice in Hz. rewrite fixedMatch_app_pattern, Hyes, Hlen in Hz.
    cbn [drop] in Hz. by rewrite Ex in Hz.
  - cbn [count].
    rewrite (IH (length s)); [|simpl; lia|done|].
    2:{ by apply (count_zero_suffix _ [c]). }
    destruct (fixedMatch ksAbsDomain (c :: subst (map C ksAbsDomain) (dq :: lit "/") 0 s))
      eqn:Ex; [|done].
    exfalso. unfold ksAbsDomain in Ex, Hno. cbn [fixedMatch] in Ex, Hno.
    apply andb_true_iff in Ex as [Hc Ex]. rewrite Hc in Hno.
    apply (sub_match_back _ _ Hne) in Ex; [|done]. cbn [andb] in Hno. congruence.
Qed.

(** At depth 0 or 1, a text without a token after a dot (the depth 0
    needs that) and without the old domain directory twice after a quote
    is rewritten into a text that a second pass leaves as it is. *)
Lemma fixContent_twice d s :
  d <= 1 ->
  d = 1 \/ includes (lit ".../") s = false ->
  includes (dq :: oldAbs ++ oldRel) s = false ->
  includes (sq :: oldAbs ++ oldRel) s = false ->
  fixContent d (fixContent d s) = fixContent d s.
Proof.
  intros Hd Hdots Hq1 Hq2.
  assert (count ksTwice s = 0) as Htw.
  { change ksTwice with (OneOf [dq; sq] :: map One (oldAbs ++ oldRel)).
    apply count_quoted. by split. }
  set (c1 := fixTraversal d s).
  assert (count ksTwice c1 = 0) as Htw1.
  { unfold c1. destruct Hdots as [-> | Hdots]; [by rewrite fixTraversal_depth1|].
    destruct d as [|[|d]]; [|by rewrite fixTraversal_depth1|lia].
    rewrite fixTraversal_subst. by apply sub_keeps_zero; [simpl; lia..| |]. }
  assert (d = 1 \/ count ksTraversal c1 = 0) as Htok1.
  { destruct d as [|[|d]]; [right|by left|lia].
    destruct Hdots as [|Hdots]; [done|].
    unfold c1. rewrite fixTraversal_subst. apply traversal0_clean.
    by apply count_includes; [simpl; lia|]. }
  set (c2 := subAbs c1).
  assert (count ksAbsDomain c2 = 0) as Habs2 by by apply subAbs_clean.
  assert (d = 1 \/ count ksTraversal c2 = 0) as Htok2.
  { destruct Htok1 as [|Htok1]; [by left|right].
    by apply sub_keeps_zero; [simpl; lia..| |]. }
  set (c3 := subRel c2).
  assert (count ksRelDomain c3 = 0) as Hrel3.
  { by apply sub_own_zero; [simpl; lia|..]. }
  assert (count ksAbsDomain c3 = 0) as Habs3.
  { by apply sub_keeps_zero; [simpl; lia..| |]. }
  assert (d = 1 \/ count ksTraversal c3 = 0) as Htok3.
  { destruct Htok2 as [|Htok2]; [by left|right].
    by apply sub_keeps_zero; [simpl; lia..| |]. }
  apply count_quoted in Hrel3 as [Hr1 Hr2], Habs3 as [Ha1 Ha2].
  assert (fixContent d s = c3) as ->.
  { unfold fixContent. rewrite fixDomain_subst. fold c1. fold c2. fold c3.
    unfold subSrc, subHref.
    rewrite <- !replaceAll_plain by done.
    rewrite (replaceAll_no_match (map C ksHref)).
    2:{ change (map C ksHref) with (map C (map One (lit "href=" ++ dq :: oldRel))).
        rewrite test_fixed_includes. by apply includes_longer. }
    rewrite (replaceAll_no_match (map C ksSrc)).
    2:{ change (map C ksSrc) with (map C (map One (lit "src=" ++ dq :: oldRel))).
        rewrite test_fixed_includes. by apply includes_longer. }
    done. }
  apply fixContent_no_match; try done.
  destruct Htok3 as [|Htok3]; [by left|right].
  by apply count_includes in Htok3; [|simpl; lia].
Qed.

End PathFixerFacts.

Import PathFixerFacts.

(** C2, as the specification states it, fails: at depth 2 a second pass
    doubles again the tokens written by the first. *)
Lemma C2_counterexample :
  fixContent 2 (lit "<a href=../a.html>") = lit "<a href=../../a.html>" /\
  fixContent 2 (fixContent 2 (lit "<a href=../a.html>")) = lit "<a href=../../../../a.html>" /\
  fixContent 2 (fixContent 2 (lit "<a href=../a.html>")) <> fixContent 2 (lit "<a href=../a.html>").
Proof. repeat split; try reflexivity. vm_compute. discriminate. Qed.

(** C2, amended.  For a file at depth 0 or 1, a second pass leaves the
    output of the first unchanged for every content that holds no quote
    before the old domain directory written twice and, at depth 0, no
    traversal token after a dot.  At any depth the second pass changes
    nothing when the first left nothing to rewrite: no traversal token
    (or the depth is 1, where the traversal rewrite is the identity) and
    no quote before the old domain directory.  In general the pass is not
    idempotent: at depth [d >= 1] two passes turn each token of the
    original into [d * d] tokens. *)
Theorem C2_second_pass (d : nat) (content pre post : str) :
  let once := fixContent d content in
  (d <= 1 ->
   d = 1 \/ includes (lit ".../") content = false ->
   includes (dq :: oldAbs ++ oldRel) content = false ->
   includes (sq :: oldAbs ++ oldRel) content = false ->
   fixContent d once = once) /\
  (d = 1 \/ includes (lit "../") once = false ->
   includes (dq :: oldAbs) once = false -> includes (sq :: oldAbs) once = false ->
   includes (dq :: oldRel) once = false -> includes (sq :: oldRel) once = false ->
   fixContent d once = once) /\
  fixTraversal 1 content = content /\
  (1 <= d ->
   fixContent d (fixContent d (pre ++ lit "../" ++ post))
   = fixContent d (fixContent d pre) ++ repeat (lit "../") (d * d)
       ++ fixContent d (fixContent d post)).
Proof.
  intros once. split; [|split; [|split]].
  - intros. by apply fixContent_twice.
  - intros. by apply fixContent_no_match.
  - apply fixTraversal_depth1.
  - intros Hd.
    assert (specReplacement d = repeat (lit "../") d) as Hr.
    { destruct d as [|[|d']]; [lia|done|done]. }
    rewrite fixContent_occurrence.
    rewrite <- (repeat_repeat (lit "../") d d), <- Hr.
    destruct d as [|d']; [lia|].
    rewrite Hr at 1.
    change (repeat ?x (S d')) with (x ++ repeat x d').
    rewrite <- !app_assoc.
    by rewrite fixContent_occurrence, fixContent_tokens.
Qed.

Lemma C2_second_pass_witness :
  let page := lit "<link href='www.miracles-of-quran.com/../s.css'><a href='/www.miracles-of-quran.com/a.html'>" in
  fixContent 0 page = lit "<link href=" ++ dq :: lit "././s.css'><a href=" ++ dq :: lit "/a.html'>" /\
  fixContent 0 (fixContent 0 page) = fixContent 0 page /\
  fixContent 3 (fixContent 3 (lit "<a href=../a.html>"))
  = lit "<a href=../../../../../../../../../a.html>".
Proof.
  intros page.
  pose proof (C2_second_pass 0 page [] []) as (H & _ & _ & _).
  pose proof (C2_second_pass 3 [] (lit "<a href=") (lit "a.html>")) as (_ & _ & _ & H3).
  split; [reflexivity|]. split.
  - apply H; [lia|right; reflexivity|reflexivity|reflexivity].
  - assert (1 <= 3) as Hd by lia. specialize (H3 Hd).
    vm_compute in H3. vm_compute. exact H3.
Defined.


(** ** Facts about the file system *)

Module FSFacts.

Lemma nameEqb_eq a b : nameEqb a b = true <-> a = b.
Proof. unfold nameEqb. apply bool_decide_eq_true. Qed.

Lemma nameEqb_refl a : nameEqb a a = true.
Proof. by apply nameEqb_eq. Qed.

Lemma nameEqb_ne a b : a <> b -> nameEqb a b = false.
Proof. intros H. unfold nameEqb. by apply bool_decide_eq_false. Qed.

(** *** Listings *)

Lemma find_put_eq n v es : find n (put n v es) = Some v.
Proof.
  induction es as [|[m c] es IH]; simpl.
  - by rewrite nameEqb_refl.
  - destruct (nameEqb n m) eqn:E; simpl; rewrite E; [done|apply IH].
Qed.

Lemma find_put_ne n m v es : n <> m -> find m (put n v es) = find m es.
Proof.
  intros Hne. induction es as [|[k c] es IH]; simpl.
  - rewrite nameEqb_ne; [done|by intros ->].
  - destruct (nameEqb n k) eqn:E; simpl.
    + apply nameEqb_eq in E as <-. rewrite nameEqb_ne; [done|by intros ->].
    + by rewrite IH.
Qed.

Lemma find_remove_eq n es : find n (remove n es) = None.
Proof.
  induction es as [|[m c] es IH]; simpl; [done|].
  destruct (nameEqb n m) eqn:E; simpl; [done|]. by rewrite E.
Qed.

Lemma find_remove_ne n m es : n <> m -> find m (remove n es) = find m es.
Proof.
  intros Hne. induction es as [|[k c] es IH]; simpl; [done|].
  destruct (nameEqb n k) eqn:E; simpl.
  - apply nameEqb_eq in E as <-. rewrite nameEqb_ne; [done|by intros ->].
  - by rewrite IH.
Qed.

Lemma alter_nil f es : alter f [] (Dir es) = Dir (f es).
Proof. done. Qed.

Lemma alter_cons f n p es :
  alter f (n :: p) (Dir es) = Dir (mapEntry n (alter f p) es).
Proof.
  simpl. f_equal. induction es as [|[m c] es IH]; simpl; [done|].
  destruct (nameEqb n m); [done|]. by rewrite IH.
Qed.

Lemma find_mapEntry_eq n g es : find n (mapEntry n g es) = g <$> find n es.
Proof.
  induction es as [|[m c] es IH]; simpl; [done|].
  destruct (nameEqb n m) eqn:E; simpl; rewrite E; [done|apply IH].
Qed.

Lemma find_mapEntry_ne n m g es :
  n <> m -> find m (mapEntry n g es) = find m es.
Proof.
  intros Hne. induction es as [|[k c] es IH]; simpl; [done|].
  destruct (nameEqb n k) eqn:E; simpl.
  - apply nameEqb_eq in E as <-. rewrite nameEqb_ne; [done|by intros ->].
  - by rewrite IH.
Qed.

(** *** Resolution of short paths from a root directory *)

Lemma resolve_reached hops root p q n :
  walk root [] p = Reached q n -> resolve hops root p = Ok (q, n).
Proof. intros H. destruct hops; simpl; by rewrite H. Qed.

Lemma resolve_lost hops root p e :
  walk root [] p = Lost e -> resolve hops root p = Throw e.
Proof. intros H. destruct hops; simpl; by rewrite H. Qed.

Lemma stat_root es : stat (Dir es) [] = Ok ([], Dir es).
Proof. by apply resolve_reached. Qed.

Lemma stat_child es n c :
  find n es = Some c -> notLink c -> stat (Dir es) [n] = Ok ([n], c).
Proof.
  intros Hf Hc. apply resolve_reached. simpl. rewrite Hf.
  destruct c; simpl in *; done.
Qed.

Lemma stat_child_missing es n :
  find n es = None -> stat (Dir es) [n] = Throw ENOENT.
Proof. intros Hf. apply resolve_lost. simpl. by rewrite Hf. Qed.

Lemma stat_grandchild es n ses m c :
  find n es = Some (Dir ses) -> find m ses = Some c -> notLink c ->
  stat (Dir es) [n; m] = Ok ([n; m], c).
Proof.
  intros Hf Hg Hc. apply resolve_reached. simpl. rewrite Hf, Hg.
  destruct c; simpl in *; done.
Qed.

Lemma lstat_child es n c :
  find n es = Some c -> lstat (Dir es) [n] = Ok ([n], c).
Proof. intros Hf. unfold lstat. cbn [unsnoc]. by rewrite stat_root, Hf. Qed.

Lemma lstat_grandchild es n ses m c :
  find n es = Some (Dir ses) -> find m ses = Some c ->
  lstat (Dir es) [n; m] = Ok ([n; m], c).
Proof.
  intros Hf Hg. unfold lstat. cbn [unsnoc].
  rewrite (stat_child es n (Dir ses)) by done. by rewrite Hg.
Qed.

(** *** Renaming a file within, or up into, the root directory *)

Lemma rename_child_file es a b c :
  find a es = Some (File c) -> a <> b ->
  (forall es', find b es <> Some (Dir es')) ->
  rename (Dir es) [a] [b] = Ok (Dir (put b (File c) (remove a es))).
Proof.
  intros Ha Hab Hb. unfold rename.
  rewrite (lstat_child es a (File c)) by done. cbn [unsnoc].
  rewrite stat_root. simpl app.
  rewrite bool_decide_eq_false_2 by (intros [= ?]; done).
  rewrite bool_decide_eq_false_2 by done.
  simpl andb. cbv iota.
  destruct (find b es) as [[| es' |]|] eqn:E; try done.
  by destruct (Hb es').
Qed.

Lemma rename_grandchild_file_up es n ses a c :
  find n es = Some (Dir ses) -> find a ses = Some (File c) ->
  find a es = None ->
  rename (Dir es) [n; a] [a]
  = Ok (Dir (put a (File c) (mapEntry n (alter (remove a) []) es))).
Proof.
  intros Hn Ha Hfree. unfold rename.
  rewrite (lstat_grandchild es n ses a (File c)) by done.
  cbn [unsnoc]. rewrite stat_root. simpl app.
  rewrite bool_decide_eq_false_2 by (intros [= ?]; done).
  rewrite bool_decide_eq_false_2 by done.
  simpl andb. cbv iota. rewrite Hfree.
  unfold putAt, removeAt. cbn [unsnoc].
  by rewrite alter_cons, alter_nil.
Qed.

End FSFacts.

Import FSFacts.

(** C3, as the specification states it, fails: the log file name is
    looked for as it is written, not case-insensitively.  An outer index
    that names the log in capitals holds the marker in the
    case-insensitive sense, and yet is backed up under the generic name. *)
Lemma C3_counterexample :
  let outer := lit "<html>see HTS-LOG.TXT</html>" in
  let inner := lit "<html>home</html>" in
  let s := mkState (Dir [(lit "index.html", File outer);
                         (lit "www.miracles-of-quran.com",
                          Dir [(lit "index.html", File inner)])]) [] 0 in
  includes (lit "hts-log.txt") (toLowerCase outer) = true /\
  exists s',
    moveAndFixStructure 1 s = Some (Ok true, s') /\
    get (tree s') [lit "httrack-index.html"] = None /\
    get (tree s') [lit "original-index.html"] = Some (File outer) /\
    get (tree s') [lit "index.html"] = Some (File inner).
Proof.
  split; [reflexivity|]. eexists. split; [vm_compute; reflexivity|].
  repeat split; reflexivity.
Qed.

(** C3, amended.  When the outer and the inner index are both files, the
    outer text is tested for [httrack] and [mirror] without regard to
    case and for [hts-log.txt] as written; the outer file is renamed to
    [httrack-index.html] when a test succeeds and to
    [original-index.html] otherwise (a directory of that name must not
    be in the way), the inner file becomes the root [index.html], and
    [moveAndFixStructure] goes on from that state. *)
Theorem C3_index_conflict (s : state) (es ses : list (name * node))
    (outsideContent insideContent : str) (fuel : nat) :
  tree s = Dir es ->
  find (lit "index.html") es = Some (File outsideContent) ->
  find (lit "www.miracles-of-quran.com") es = Some (Dir ses) ->
  find (lit "index.html") ses = Some (File insideContent) ->
  let marked :=
    includes (lit "httrack") (toLowerCase outsideContent)
    || includes (lit "mirror") (toLowerCase outsideContent)
    || includes (lit "hts-log.txt") outsideContent in
  let backup := if marked then lit "httrack-index.html" else lit "original-index.html" in
  (forall es', find backup es <> Some (Dir es')) ->
  exists s',
    resolveIndexConflict s = Some (Ok (), s') /\
    moveAndFixStructure fuel s = moveEntries fuel s' /\
    get (tree s') [backup] = Some (File outsideContent) /\
    get (tree s') [lit "index.html"] = Some (File insideContent) /\
    get (tree s') insideIndex = None /\
    writes s' = writes s /\
    processedFiles s' = processedFiles s.
Proof.
  intros Ht Hout Hsub Hin marked backup Hfree.
  destruct s as [t w pf]. simpl in Ht. subst t.
  set (es1 := put backup (File outsideContent) (remove (lit "index.html") es)).
  set (es2 := put (lit "index.html") (File insideContent)
                (mapEntry (lit "www.miracles-of-quran.com")
                   (alter (remove (lit "index.html")) []) es1)).
  assert (backup <> lit "index.html") as Hb1 by (unfold backup; destruct marked; done).
  assert (backup <> lit "www.miracles-of-quran.com") as Hb2
    by (unfold backup; destruct marked; done).
  assert (find (lit "www.miracles-of-quran.com") es1 = Some (Dir ses)) as Hsub1.
  { unfold es1. rewrite find_put_ne by done. by rewrite find_remove_ne. }
  assert (find (lit "index.html") es1 = None) as Hidx1.
  { unfold es1. rewrite find_put_ne by done. apply find_remove_eq. }
  assert (rename (Dir es) outsideIndex [backup] = Ok (Dir es1)) as Hr1.
  { apply rename_child_file; [done|by apply not_eq_sym|done]. }
  assert (rename (Dir es1) insideIndex outsideIndex = Ok (Dir es2)) as Hr2.
  { by apply (rename_grandchild_file_up es1 _ ses). }
  assert (resolveIndexConflict (mkState (Dir es) w pf)
          = Some (Ok (), mkState (Dir es2) w pf)) as Hres.
  { unfold resolveIndexConflict, mbind, M_bind, readFileSync, reading, readFile.
    cbn [tree]. unfold outsideIndex at 1.
    rewrite (stat_child es _ (File outsideContent)) by done.
    unfold insideIndex at 1, miraculesSubDir at 1. simpl app.
    rewrite (stat_grandchild es _ ses _ (File insideContent)) by done.
    unfold looksLikeHTTrack. fold marked.
    unfold renameSync, changing. cbn [tree writes processedFiles].
    destruct marked eqn:Em; unfold backup in *; cbn [tree writes processedFiles];
      rewrite Hr1; cbn [tree writes processedFiles]; by rewrite Hr2. }
  exists (mkState (Dir es2) w pf). split; [done|]. split.
  - unfold moveAndFixStructure, mbind, M_bind, existsSync, reading, exists_.
    unfold insideIndex, outsideIndex, miraculesSubDir in *. simpl app in *.
    cbn [tree].
    rewrite (stat_child es _ (Dir ses)) by done. cbn [negb tree].
    rewrite (stat_child es _ (File outsideContent)) by done. cbn [tree].
    cbn [app].
    rewrite (stat_grandchild es _ ses _ (File insideContent)) by done.
    cbn [andb]. by rewrite Hres.
  - cbn [tree writes processedFiles]. repeat split.
    + simpl. unfold es2. rewrite find_put_ne by by apply not_eq_sym.
      rewrite find_mapEntry_ne by by apply not_eq_sym.
      unfold es1. by rewrite find_put_eq.
    + simpl. unfold es2. by rewrite find_put_eq.
    + unfold insideIndex, miraculesSubDir. simpl. unfold es2.
      rewrite find_put_ne by done. rewrite find_mapEntry_eq, Hsub1. simpl.
      by rewrite find_remove_eq.
Qed.

Lemma C3_index_conflict_witness :
  let outer := lit "<title>Local index - HTTrack Website Copier</title>" in
  let inner := lit "<html>home</html>" in
  let s := mkState (Dir [(lit "index.html", File outer);
                         (lit "www.miracles-of-quran.com",
                          Dir [(lit "index.html", File inner)])]) [] 0 in
  exists s',
    resolveIndexConflict s = Some (Ok (), s') /\
    get (tree s') [lit "httrack-index.html"] = Some (File outer) /\
    get (tree s') [lit "index.html"] = Some (File inner).
Proof.
  intros outer inner s.
  destruct (C3_index_conflict s _ _ outer inner 1 eq_refl eq_refl eq_refl eq_refl)
    as (s' & H1 & _ & H2 & H3 & _).
  - vm_compute. discriminate.
  - exists s'. split; [exact H1|]. split; [exact H2|exact H3].
Defined.

(** C5, evaluated where the code departs from it.  (1) A directory of
    the subdirectory onto a file of the root: the loop tests the source
    only and calls [mergeDirectories], whose [renameSync] below the file
    throws; the root keeps its file and the source directory stays where
    it was.  (2) A file of the subdirectory onto a directory of the root:
    [unlinkSync] on the directory throws and nothing moves.  (3) File onto
    file and directory onto directory do what the claim says. *)
Theorem C5_collisions :
  let sub := lit "www.miracles-of-quran.com" in
  let run (t : node) :=
    match moveAndFixStructure 3 (mkState t [] 0) with
    | Some (Ok true, s') => Some (tree s')
    | _ => None
    end in
  run (Dir [(lit "css", File (lit "old"));
            (sub, Dir [(lit "css", Dir [(lit "a.css", File (lit "new"))])])])
  = Some (Dir [(lit "css", File (lit "old"));
               (sub, Dir [(lit "css", Dir [(lit "a.css", File (lit "new"))])])]) /\
  run (Dir [(lit "css", Dir [(lit "a.css", File (lit "old"))]);
            (sub, Dir [(lit "css", File (lit "new"))])])
  = Some (Dir [(lit "css", Dir [(lit "a.css", File (lit "old"))]);
               (sub, Dir [(lit "css", File (lit "new"))])]) /\
  run (Dir [(lit "a.css", File (lit "old"));
            (sub, Dir [(lit "a.css", File (lit "new"))])])
  = Some (Dir [(lit "a.css", File (lit "new"))]) /\
  run (Dir [(lit "css", Dir [(lit "a.css", File (lit "old")); (lit "b.css", File (lit "kept"))]);
            (sub, Dir [(lit "css", Dir [(lit "a.css", File (lit "new"));
                                        (lit "c.css", File (lit "added"))])])])
  = Some (Dir [(lit "css", Dir [(lit "b.css", File (lit "kept"));
                                (lit "a.css", File (lit "new"));
                                (lit "c.css", File (lit "added"))])]).
Proof. repeat split; vm_compute; reflexivity. Qed.

(** ** The write-back of the two transformers *)

Module WriteBack.

(** A file that can be read can be rewritten. *)
Lemma readFile_writeFile t p c c' :
  readFile t p = Ok c -> exists t', writeFile t p c' = Ok t'.
Proof.
  unfold readFile, writeFile. destruct (stat t p) as [[q [ | | ]]|]; try done.
  intros _. by eexists.
Qed.

Lemma fixPathsInHtml_run sep filePath rootPath s content :
  readFile (tree s) filePath = Ok content ->
  let fixed := fixContent (depthOf sep (relative sep rootPath filePath)) content in
  fixPathsInHtml sep filePath rootPath s
  = if bool_decide (fixed <> content) then
      match writeFile (tree s) filePath fixed with
      | Ok t' => Some (Ok (), mkState t' (writes s ++ [filePath]) (S (processedFiles s)))
      | Throw _ => Some (Ok (), s)
      end
    else Some (Ok (), s).
Proof.
  intros Hr fixed.
  unfold fixPathsInHtml, tryCatch, mbind, M_bind, readFileSync, reading.
  rewrite Hr. fold fixed. destruct (bool_decide (fixed <> content)); [|done].
  unfold writeFileSync, countProcessed.
  destruct (writeFile (tree s) filePath fixed); done.
Qed.

Lemma processFile_run filePath s content :
  readFile (tree s) filePath = Ok content ->
  processFile filePath s
  = if (processContent content).2 then
      match writeFile (tree s) filePath (processContent content).1 with
      | Ok t' => Some (Ok (Success true),
                       mkState t' (writes s ++ [filePath]) (S (processedFiles s)))
      | Throw e => Some (Ok (Failure e), s)
      end
    else Some (Ok (Success false), s).
Proof.
  intros Hr.
  unfold processFile, tryCatch, mbind, M_bind, readFileSync, reading.
  rewrite Hr. destruct (processContent content) as [cleaned changesMade].
  cbn [fst snd]. destruct changesMade; [|done].
  unfold writeFileSync, countProcessed.
  destruct (writeFile (tree s) filePath cleaned); done.
Qed.

(** The flag [changesMade]: the marker is there and the removal changed
    the text. *)
Lemma changesMade_spec content :
  (processContent content).2
  = includes footerMarker content
    && bool_decide (replaceAll reFooter [] content <> content).
Proof.
  unfold processContent. destruct (includes footerMarker content); done.
Qed.

Lemma processContent_unchanged content :
  (processContent content).2 = false -> (processContent content).1 = content.
Proof.
  unfold processContent.
  destruct (includes footerMarker content); cbn [fst snd].
  - destruct (bool_decide (replaceAll reFooter [] content <> content)) eqn:E;
      [done|]. intros _. rewrite andb_false_r.
    apply bool_decide_eq_false in E. by apply dec_stable in E.
  - intros _. by rewrite andb_false_r.
Qed.

End WriteBack.

Import WriteBack.

(** C6, as the specification states it, fails for the path fixer: a text
    with neither the footer marker nor a traversal token, but with a
    quoted reference to the old domain directory, is rewritten. *)
Lemma C6_counterexample :
  let content := lit "<a href='www.miracles-of-quran.com/a.html'>" in
  let s := mkState (Dir [(lit "index.html", File content)]) [] 0 in
  includes footerMarker content = false /\
  includes (lit "../") content = false /\
  exists s',
    PathFixer.fixPathsInHtml "/" [lit "index.html"] [] s = Some (Ok (), s') /\
    readFile (tree s') [lit "index.html"] = Ok (lit "<a href=" ++ dq :: lit "./a.html'>") /\
    writes s' = [[lit "index.html"]].
Proof.
  repeat split; try reflexivity. eexists. split; [vm_compute; reflexivity|].
  split; reflexivity.
Qed.

(** C6, amended.  A file whose text holds neither the footer marker, nor
    the traversal token, nor a double or single quote before
    [/www.miracles-of-quran.com/] or [www.miracles-of-quran.com/], is left
    as it is by a pass of either tool: the state (tree, write log and
    counter) is the same after the call. *)
Theorem C6_no_op (sep : ascii) (s : state) (filePath rootPath : path) (content : str) :
  readFile (tree s) filePath = Ok content ->
  includes footerMarker content = false ->
  includes (lit "../") content = false ->
  includes (dq :: oldAbs) content = false ->
  includes (sq :: oldAbs) content = false ->
  includes (dq :: oldRel) content = false ->
  includes (sq :: oldRel) content = false ->
  PathFixer.fixPathsInHtml sep filePath rootPath s = Some (Ok (), s) /\
  processFile filePath s = Some (Ok (Success false), s).
Proof.
  intros Hr Hm Ht H1 H2 H3 H4. split.
  - rewrite (fixPathsInHtml_run _ _ _ _ content Hr).
    rewrite fixContent_no_match by auto.
    by rewrite bool_decide_eq_false_2 by auto.
  - rewrite (processFile_run _ _ content Hr).
    by rewrite changesMade_spec, Hm.
Qed.

Lemma C6_no_op_witness :
  let content := lit "<html><body><a href='a/b.html'>b</a></body></html>" in
  let s := mkState (Dir [(lit "index.html", File content)]) [] 0 in
  PathFixer.fixPathsInHtml "/" [lit "index.html"] [] s = Some (Ok (), s) /\
  processFile [lit "index.html"] s = Some (Ok (Success false), s).
Proof.
  intros content s.
  apply (C6_no_op "/" s [lit "index.html"] [] content); reflexivity.
Defined.

(** C9, as the specification states it, fails for the footer remover: the
    guard of the write is the flag set by the removal step, not a
    comparison of the final text.  On this page the removal changes the
    text, the template put before the closing body tag restores it, and
    the file is written and counted although the text is the same. *)
Lemma C9_counterexample :
  let s := mkState (Dir [(lit "page.html", File loopedPage)]) [] 0 in
  (processContent loopedPage).1 = loopedPage /\
  processFile [lit "page.html"] s
  = Some (Ok (Success true), mkState (tree s) [[lit "page.html"]] 1).
Proof. split; vm_compute; reflexivity. Qed.

(** C9, amended.  [fixPathsInHtml] writes the file back and counts it if
    and only if the rewritten text differs from the text read.
    [processFile] writes the file back and counts it if and only if the
    removal step changed the text (the flag [changesMade]: the marker is
    there and the removal of the footer changed something); with the flag
    unset the text is the one read and nothing is written or counted. *)
Theorem C9_write_back (sep : ascii) (s : state) (filePath rootPath : path) (content : str) :
  readFile (tree s) filePath = Ok content ->
  let fixed := fixContent (depthOf sep (relative sep rootPath filePath)) content in
  let cleaned := (processContent content).1 in
  let changesMade := (processContent content).2 in
  (fixed = content ->
   PathFixer.fixPathsInHtml sep filePath rootPath s = Some (Ok (), s)) /\
  (fixed <> content ->
   exists t', writeFile (tree s) filePath fixed = Ok t' /\
     PathFixer.fixPathsInHtml sep filePath rootPath s
     = Some (Ok (), mkState t' (writes s ++ [filePath]) (S (processedFiles s)))) /\
  (changesMade = false ->
   cleaned = content /\ processFile filePath s = Some (Ok (Success false), s)) /\
  (changesMade = true ->
   exists t', writeFile (tree s) filePath cleaned = Ok t' /\
     processFile filePath s
     = Some (Ok (Success true), mkState t' (writes s ++ [filePath]) (S (processedFiles s)))) /\
  (changesMade = true <->
   includes footerMarker content = true /\ replaceAll reFooter [] content <> content).
Proof.
  intros Hr fixed cleaned changesMade.
  pose proof (fixPathsInHtml_run sep filePath rootPath s content Hr) as Hfix.
  pose proof (processFile_run filePath s content Hr) as Hproc.
  cbv zeta in Hfix. fold fixed in Hfix. fold cleaned changesMade in Hproc.
  repeat split.
  - intros He. rewrite Hfix. by rewrite bool_decide_eq_false_2 by auto.
  - intros Hne. destruct (readFile_writeFile _ _ _ fixed Hr) as [t' Hw].
    exists t'. split; [done|]. rewrite Hfix.
    by rewrite bool_decide_eq_true_2, Hw by done.
  - by apply processContent_unchanged.
  - rewrite Hproc. by rewrite H.
  - intros Hc. destruct (readFile_writeFile _ _ _ cleaned Hr) as [t' Hw].
    exists t'. split; [done|]. rewrite Hproc. by rewrite Hc, Hw.
  - unfold changesMade in H. rewrite changesMade_spec in H.
    by apply andb_true_iff in H as [? _].
  - unfold changesMade in H. rewrite changesMade_spec in H.
    apply andb_true_iff in H as [_ H]. by apply bool_decide_eq_true in H.
  - intros [Hm Hne]. unfold changesMade. rewrite changesMade_spec, Hm.
    by apply bool_decide_eq_true_2.
Qed.

Lemma C9_write_back_witness :
  let page := lit "<body><a href='../a.html'>a</a><section class='cid-tJkSLE66e9'>f</section></body>" in
  let s := mkState (Dir [(lit "p.html", File page)]) [] 0 in
  (exists t', PathFixer.fixPathsInHtml "/" [lit "p.html"] [] s
              = Some (Ok (), mkState t' [[lit "p.html"]] 1)) /\
  (exists t', processFile [lit "p.html"] s
              = Some (Ok (Success true), mkState t' [[lit "p.html"]] 1)).
Proof.
  intros page s.
  destruct (C9_write_back "/" s [lit "p.html"] [] page eq_refl)
    as (_ & Hfix & _ & Hproc & _).
  split.
  - destruct Hfix as (t' & _ & H); [|by exists t'].
    intros E. vm_compute in E. discriminate E.
  - destruct Hproc as (t' & _ & H); [|by exists t']. vm_compute. reflexivity.
Defined.


(** ** Facts about path resolution *)

Module WalkFacts.

Lemma walk_snoc cur done todo n :
  walk cur done (todo ++ [n])
  = match walk cur done todo with
    | Reached q (Dir es) =>
        match find n es with
        | Some c => walk c (q ++ [n]) []
        | None => Lost ENOENT
        end
    | Reached q (File _) => Lost ENOTDIR
    | Reached q (Link t) => Jump (t ++ [n])
    | Jump t => Jump (t ++ [n])
    | Lost e => Lost e
    end.
Proof.
  revert cur done. induction todo as [|m todo IH]; intros cur done.
  - destruct cur as [c|es|t]; simpl; rewrite ?app_nil_r; done.
  - destruct cur as [c|es|t]; simpl; try done.
    + destruct (find m es) as [c|]; [apply IH|done].
    + by rewrite <- app_assoc.
Qed.

Lemma walk_reached_notLink cur done todo q c :
  walk cur done todo = Reached q c -> notLink c.
Proof.
  revert cur done. induction todo as [|m todo IH]; intros cur done H.
  - destruct cur; simpl in H; try done; by injection H as <- <-.
  - destruct cur as [|es|]; simpl in H; try done.
    destruct (find m es) as [c'|]; [by eapply IH|done].
Qed.

(** A path that leads to a directory leads on to its entries that are
    not links. *)
Lemma resolve_snoc hops root p q es n c :
  resolve hops root p = Ok (q, Dir es) ->
  find n es = Some c -> notLink c ->
  resolve hops root (p ++ [n]) = Ok (q ++ [n], c).
Proof.
  intros H Hf Hc. revert p H. induction hops as [|h IH]; intros p H.
  - simpl in *. rewrite walk_snoc.
    destruct (walk root [] p) as [q' c'| |]; try done.
    injection H as -> ->. rewrite Hf. by destruct c.
  - simpl in *. rewrite walk_snoc.
    destruct (walk root [] p) as [q' c'|t|]; try done.
    + injection H as -> ->. rewrite Hf. by destruct c.
    + by apply IH.
Qed.

Lemma stat_snoc t p q es n c :
  stat t p = Ok (q, Dir es) -> find n es = Some c -> notLink c ->
  stat t (p ++ [n]) = Ok (q ++ [n], c).
Proof. apply resolve_snoc. Qed.

Lemma find_elem n c es : find n es = Some c -> (n, c) ∈ es.
Proof.
  induction es as [|[m c'] es IH]; simpl; [done|].
  destruct (nameEqb n m) eqn:E.
  - apply nameEqb_eq in E as ->. intros [= ->]. apply list_elem_of_here.
  - intros H. apply list_elem_of_further. by apply IH.
Qed.

Lemma elem_names n c (es : list (name * node)) : (n, c) ∈ es -> n ∈ map fst es.
Proof.
  induction es as [|[m c'] es IH]; intros H.
  - by apply elem_of_nil in H.
  - apply elem_of_cons in H as [[= -> ->]|H]; simpl.
    + apply list_elem_of_here.
    + apply list_elem_of_further. by apply IH.
Qed.

(** In a listing without a repeated name an entry is the one found under
    its name. *)
Lemma find_NoDup n c es :
  NoDup (map fst es) -> (n, c) ∈ es -> find n es = Some c.
Proof.
  induction es as [|[m c'] es IH]; simpl; intros Hnd Hin.
  - by apply elem_of_nil in Hin.
  - apply NoDup_cons in Hnd as [Hm Hnd].
    apply elem_of_cons in Hin as [[= -> ->]|Hin].
    + by rewrite nameEqb_refl.
    + rewrite nameEqb_ne; [by apply IH|].
      intros ->. apply Hm. by eapply elem_names.
Qed.

Lemma height_find n c es : find n es = Some c -> height c < height (Dir es).
Proof.
  simpl. induction es as [|[m c'] es IH]; simpl; [done|].
  destruct (nameEqb n m).
  - intros [= ->]. lia.
  - intros H. apply IH in H. lia.
Qed.

Lemma height_elem n c es : (n, c) ∈ es -> height c < height (Dir es).
Proof.
  simpl. induction es as [|[m c'] es IH]; intros H.
  - by apply elem_of_nil in H.
  - apply elem_of_cons in H as [[= -> ->]|H]; simpl.
    + lia.
    + apply IH in H. lia.
Qed.

Lemma wf_dir es : wf (Dir es) = true -> NoDup (map fst es).
Proof.
  simpl. intros H. apply andb_true_iff in H as [H _].
  by apply bool_decide_eq_true in H.
Qed.

Lemma wf_elem n c es : wf (Dir es) = true -> (n, c) ∈ es -> wf c = true.
Proof.
  simpl. intros H Hin. apply andb_true_iff in H as [_ H].
  rewrite forallb_forall in H. apply (H (n, c)). by apply list_elem_of_In.
Qed.

Lemma get_app t p q :
  get t (p ++ q) = match get t p with Some c => get c q | None => None end.
Proof.
  revert t. induction p as [|n p IH]; intros t; simpl; [done|].
  destruct t as [|es|]; try done. destruct (find n es); [apply IH|done].
Qed.

Lemma walk_get cur done todo q c :
  walk cur done todo = Reached q c -> exists rest, q = done ++ rest /\ get cur rest = Some c.
Proof.
  revert cur done. induction todo as [|m todo IH]; intros cur done H.
  - exists []. destruct cur; simpl in H; try done; injection H as <- <-;
      by rewrite app_nil_r.
  - destruct cur as [|es|]; simpl in H; try done.
    destruct (find m es) as [c'|] eqn:E; [|done].
    destruct (IH _ _ H) as (rest & -> & Hg).
    exists (m :: rest). rewrite <- app_assoc. split; [done|]. simpl. by rewrite E.
Qed.

(** The path [stat] answers is link-free and leads to the node it
    answers. *)
Lemma resolve_get hops root p q c :
  resolve hops root p = Ok (q, c) -> get root q = Some c.
Proof.
  revert p. induction hops as [|h IH]; intros p H; simpl in H.
  - destruct (walk root [] p) as [q' c'| |] eqn:E; try done.
    injection H as -> ->. by destruct (walk_get _ _ _ _ _ E) as (rest & -> & ?).
  - destruct (walk root [] p) as [q' c'|t|] eqn:E; try done.
    + injection H as -> ->. by destruct (walk_get _ _ _ _ _ E) as (rest & -> & ?).
    + by eapply IH.
Qed.

Lemma stat_get t p q c : stat t p = Ok (q, c) -> get t q = Some c.
Proof. apply resolve_get. Qed.

Lemma wf_get t q c : wf t = true -> get t q = Some c -> wf c = true.
Proof.
  revert t. induction q as [|n q IH]; intros t Hw H; simpl in H.
  - by injection H as <-.
  - destruct t as [|es|]; try done. destruct (find n es) as [c'|] eqn:E; [|done].
    eapply IH; [|done]. eapply wf_elem; [done|]. by apply find_elem.
Qed.

Lemma height_get t q c : get t q = Some c -> height c <= height t.
Proof.
  revert t. induction q as [|n q IH]; intros t H; simpl in H.
  - by injection H as <-.
  - destruct t as [|es|]; try done. destruct (find n es) as [c'|] eqn:E; [|done].
    apply IH in H. apply height_find in E. lia.
Qed.

Lemma readdir_stat t p :
  readdir t p = match stat t p with
                | Ok (_, Dir es) => Ok es
                | Ok (_, _) => Throw ENOTDIR
                | Throw e => Throw e
                end.
Proof. done. Qed.

End WalkFacts.

Import WalkFacts.

(** ** Facts about the scanner *)

Module ScannerFacts.

Lemma getAllHtmlFiles_step fuel t dir visited :
  getAllHtmlFiles (S fuel) t dir visited
  = if bool_decide (dir ∈ visited) then Some ([], visited)
    else match readdir t dir with
         | Throw _ => Some ([], {[dir]} ∪ visited)
         | Ok items =>
             scanLoop (getAllHtmlFiles fuel t) dir items [] ({[dir]} ∪ visited)
         end.
Proof. done. Qed.

(** The scanner of [RemoveFooterSection] is the same function. *)
Lemma skipped_same nm : RemoveFooterSection.skipped nm = skipped nm.
Proof.
  unfold RemoveFooterSection.skipped, skipped.
  destruct (startsWith (lit ".") nm), (nameEqb nm (lit "node_modules")),
    (includes (lit "backup") nm), (nameEqb nm (lit "hts-cache")); done.
Qed.

Lemma scanLoop_same rec rec' dir items files visited :
  (forall d v, rec d v = rec' d v) ->
  RemoveFooterSection.scanLoop rec dir items files visited
  = scanLoop rec' dir items files visited.
Proof.
  intros Hr. revert files visited.
  induction items as [|[nm item] items IH]; intros files visited;
    cbn [scanLoop RemoveFooterSection.scanLoop]; cbv zeta; [done|].
  rewrite skipped_same. destruct (skipped nm); [apply IH|].
  destruct (isDirectory (kindOf item)).
  - rewrite Hr. destruct (rec' (dir ++ [nm]) visited) as [[found v']|]; [apply IH|done].
  - destruct (endsWith (lit ".html") nm); apply IH.
Qed.

Lemma getAllHtmlFiles_same fuel t dir visited :
  RemoveFooterSection.getAllHtmlFiles fuel t dir visited
  = getAllHtmlFiles fuel t dir visited.
Proof.
  revert dir visited. induction fuel as [|fuel IH]; intros dir visited; [done|].
  simpl. destruct (bool_decide (dir ∈ visited)); [done|].
  destruct (readdir t dir) as [items|]; [|done].
  by apply scanLoop_same.
Qed.

(** *** What the scanner lists *)

Lemma listed_below dir nm f :
  skipped nm = false -> listed (dir ++ [nm]) f -> listed dir f.
Proof.
  intros Hn (dirs & file & -> & Hok & Hh).
  exists (nm :: dirs), file. split; [by rewrite <- !app_assoc|].
  split; [by constructor|done].
Qed.

Lemma scanLoop_listed (rec : path -> gset path -> option (list path * gset path))
    (dir : path) (items : list (name * node)) (files : list path)
    (visited : gset path) (out : list path) (visited' : gset path) :
  (forall (nm : name) v found v', skipped nm = false ->
     rec (dir ++ [nm]) v = Some (found, v') ->
     Forall (listed (dir ++ [nm])) found) ->
  Forall (listed dir) files ->
  scanLoop rec dir items files visited = Some (out, visited') ->
  Forall (listed dir) out.
Proof.
  intros Hrec. revert files visited.
  induction items as [|[nm item] items IH]; intros files visited Hf H;
    cbn [scanLoop] in H; cbv zeta in H.
  - by injection H as <- _.
  - destruct (skipped nm) eqn:Es; [by apply (IH files visited)|].
    destruct (isDirectory (kindOf item)).
    + destruct (rec (dir ++ [nm]) visited) as [[found v']|] eqn:Er; [|done].
      apply (IH (files ++ found) v'); [|exact H].
      apply Forall_app. split; [done|].
      eapply Forall_impl; [by eapply Hrec|].
      intros f. by apply listed_below.
    + destruct (endsWith (lit ".html") nm) eqn:Eh; [|by apply (IH files visited)].
      apply (IH (files ++ [dir ++ [nm]]) visited); [|exact H].
      apply Forall_app. split; [done|].
      constructor; [|done]. exists [], nm. simpl. split; [done|].
      split; [by constructor|done].
Qed.

Lemma getAllHtmlFiles_listed fuel t dir visited files visited' :
  getAllHtmlFiles fuel t dir visited = Some (files, visited') ->
  Forall (listed dir) files.
Proof.
  revert dir visited files visited'.
  induction fuel as [|fuel IH]; intros dir visited files visited' H; [done|].
  rewrite getAllHtmlFiles_step in H.
  destruct (bool_decide (dir ∈ visited)); [by injection H as <- _|].
  destruct (readdir t dir) as [items|]; [|by injection H as <- _].
  eapply scanLoop_listed; [|constructor|done].
  intros nm v found v' _ Hr. by eapply IH.
Qed.

(** *** The scanner returns *)

Lemma scanLoop_total (rec : path -> gset path -> option (list path * gset path))
    (dir : path) (items : list (name * node)) (files : list path) (visited : gset path) :
  (forall (nm : name) item v, (nm, item) ∈ items -> isDirectory (kindOf item) = true ->
     is_Some (rec (dir ++ [nm]) v)) ->
  is_Some (scanLoop rec dir items files visited).
Proof.
  revert files visited.
  induction items as [|[nm item] items IH]; intros files visited Hrec;
    cbn [scanLoop]; cbv zeta; [done|].
  assert (forall files visited, is_Some (scanLoop rec dir items files visited)) as Hrest.
  { intros. apply IH. intros nm' item' v Hin. apply Hrec. by apply list_elem_of_further. }
  destruct (skipped nm); [done|].
  destruct (isDirectory (kindOf item)) eqn:Ed.
  - destruct (Hrec nm item visited) as [[found v'] ->]; [apply list_elem_of_here|done|done].
  - destruct (endsWith (lit ".html") nm); done.
Qed.

Lemma isDirectory_Dir c : isDirectory (kindOf c) = true -> exists es, c = Dir es.
Proof. destruct c; try done. by eexists. Qed.

(** Fuel above the height of the directory scanned is enough. *)
Lemma getAllHtmlFiles_total t fuel dir visited q c :
  stat t dir = Ok (q, c) -> wf c = true -> height c < fuel ->
  is_Some (getAllHtmlFiles fuel t dir visited).
Proof.
  revert dir visited q c.
  induction fuel as [|fuel IH]; intros dir visited q c Hs Hw Hh; [lia|].
  rewrite getAllHtmlFiles_step. destruct (bool_decide (dir ∈ visited)); [done|].
  rewrite readdir_stat, Hs. destruct c as [|es|]; try done.
  apply scanLoop_total. intros nm item v Hin Hd.
  destruct (isDirectory_Dir _ Hd) as [es' ->].
  apply (IH _ _ (q ++ [nm]) (Dir es')).
  - eapply stat_snoc; [done| |done]. apply find_NoDup; [by apply wf_dir|done].
  - by eapply wf_elem.
  - apply height_elem in Hin. lia.
Qed.

Lemma getAllHtmlFiles_total_root t fuel dir visited :
  wf t = true -> height t < fuel ->
  is_Some (getAllHtmlFiles fuel t dir visited).
Proof.
  intros Hw Hh. destruct (stat t dir) as [[q c]|e] eqn:Hs.
  - pose proof (stat_get _ _ _ _ Hs) as Hg.
    eapply getAllHtmlFiles_total; [done|by eapply wf_get|].
    apply height_get in Hg. lia.
  - destruct fuel as [|fuel]; [lia|]. rewrite getAllHtmlFiles_step.
    destruct (bool_decide (dir ∈ visited)); [done|].
    by rewrite readdir_stat, Hs.
Qed.

(** *** No listed file lies behind a link *)

Lemma direct_below dir es nm es' f :
  find nm es = Some (Dir es') ->
  direct (dir ++ [nm]) (Dir es') f -> direct dir (Dir es) f.
Proof.
  intros Hf (dirs & file & es'' & x & -> & Hg & Hx & Hd).
  exists (nm :: dirs), file, es'', x. split; [by rewrite <- !app_assoc|].
  split; [|done]. simpl. by rewrite Hf.
Qed.

Lemma scanLoop_direct (rec : path -> gset path -> option (list path * gset path))
    (dir : path) (es items : list (name * node)) (files : list path)
    (visited : gset path) (out : list path) (visited' : gset path) :
  NoDup (map fst es) ->
  (forall x, x ∈ items -> x ∈ es) ->
  (forall (nm : name) es' v found v', find nm es = Some (Dir es') ->
     rec (dir ++ [nm]) v = Some (found, v') ->
     Forall (direct (dir ++ [nm]) (Dir es')) found) ->
  Forall (direct dir (Dir es)) files ->
  scanLoop rec dir items files visited = Some (out, visited') ->
  Forall (direct dir (Dir es)) out.
Proof.
  intros Hnd Hsub Hrec. revert files visited Hsub.
  induction items as [|[nm item] items IH]; intros files visited Hsub Hf H;
    cbn [scanLoop] in H; cbv zeta in H.
  - by injection H as <- _.
  - assert (find nm es = Some item) as Hfind.
    { apply find_NoDup; [done|]. apply Hsub, list_elem_of_here. }
    assert (forall x, x ∈ items -> x ∈ es) as Hsub'.
    { intros x Hx. by apply Hsub, list_elem_of_further. }
    destruct (skipped nm) eqn:Es; [by apply (IH files visited)|].
    destruct (isDirectory (kindOf item)) eqn:Ed.
    + destruct (rec (dir ++ [nm]) visited) as [[found v']|] eqn:Er; [|done].
      destruct (isDirectory_Dir _ Ed) as [es' ->].
      apply (IH (files ++ found) v'); [done| |exact H].
      apply Forall_app. split; [done|].
      eapply Forall_impl; [by eapply Hrec|].
      intros f. by apply direct_below.
    + destruct (endsWith (lit ".html") nm) eqn:Eh; [|by apply (IH files visited)].
      apply (IH (files ++ [dir ++ [nm]]) visited); [done| |exact H].
      apply Forall_app. split; [done|].
      constructor; [|done]. by exists [], nm, es, item.
Qed.

Lemma getAllHtmlFiles_direct t fuel dir visited q c files visited' :
  stat t dir = Ok (q, c) -> wf c = true ->
  getAllHtmlFiles fuel t dir visited = Some (files, visited') ->
  Forall (direct dir c) files.
Proof.
  revert dir visited q c files visited'.
  induction fuel as [|fuel IH]; intros dir visited q c files visited' Hs Hw H; [done|].
  rewrite getAllHtmlFiles_step in H.
  destruct (bool_decide (dir ∈ visited)); [by injection H as <- _|].
  rewrite readdir_stat, Hs in H.
  destruct c as [|es|]; try by injection H as <- _.
  eapply scanLoop_direct; [by apply wf_dir|done| |constructor|exact H].
  intros nm es' v found v' Hf Hr.
  eapply (IH _ _ (q ++ [nm])); [by eapply stat_snoc| |exact Hr].
  eapply wf_elem; [done|]. by apply find_elem.
Qed.

(** *** No file is listed twice *)

Lemma listed_first dir nm f : listed (dir ++ [nm]) f -> exists rest, f = dir ++ nm :: rest.
Proof.
  intros (dirs & file & -> & _). exists (dirs ++ [file]). by rewrite <- app_assoc.
Qed.

Lemma scanLoop_NoDup (rec : path -> gset path -> option (list path * gset path))
    (dir : path) (seen items : list (name * node)) (files : list path)
    (visited : gset path) (out : list path) (visited' : gset path) :
  NoDup (map fst (seen ++ items)) ->
  (forall (nm : name) v found v',
     rec (dir ++ [nm]) v = Some (found, v') ->
     NoDup found /\ Forall (listed (dir ++ [nm])) found) ->
  NoDup files ->
  (forall f, f ∈ files -> exists nm rest, nm ∈ map fst seen /\ f = dir ++ nm :: rest) ->
  scanLoop rec dir items files visited = Some (out, visited') ->
  NoDup out.
Proof.
  intros Hnd Hrec. revert seen files visited Hnd.
  induction items as [|[nm item] items IH]; intros seen files visited Hnd Hf Hseen H;
    cbn [scanLoop] in H; cbv zeta in H.
  - by injection H as <- _.
  - assert (nm ∉ map fst seen) as Hfresh.
    { rewrite map_app in Hnd. apply NoDup_app in Hnd as (_ & Hd & _).
      intros Hin. apply (Hd nm Hin). apply list_elem_of_here. }
    assert (NoDup (map fst ((seen ++ [(nm, item)]) ++ items))) as Hnd'.
    { by rewrite <- app_assoc. }
    assert (forall files' : list path, (forall f, f ∈ files' ->
              exists nm' rest, nm' ∈ map fst seen /\ f = dir ++ nm' :: rest) ->
            forall f, f ∈ files' ->
              exists nm' rest, nm' ∈ map fst (seen ++ [(nm, item)]) /\ f = dir ++ nm' :: rest)
      as Hwiden.
    { intros files' Hold f Hin. destruct (Hold f Hin) as (nm' & rest & Hn & ->).
      exists nm', rest. split; [|done]. rewrite map_app. apply elem_of_app. by left. }
    assert (nm ∈ map fst (seen ++ [(nm, item)])) as Hnow.
    { rewrite map_app. apply elem_of_app. right. apply list_elem_of_here. }
    destruct (skipped nm) eqn:Es.
    { apply (IH (seen ++ [(nm, item)]) files visited); [done|done| |exact H].
      by apply (Hwiden files). }
    destruct (isDirectory (kindOf item)) eqn:Ed.
    + destruct (rec (dir ++ [nm]) visited) as [[found v']|] eqn:Er; [|done].
      destruct (Hrec _ _ _ _ Er) as [Hfound Hlisted].
      rewrite Forall_forall in Hlisted.
      apply (IH (seen ++ [(nm, item)]) (files ++ found) v'); [done| | |exact H].
      * apply NoDup_app. split; [done|]. split; [|done].
        intros f Hin1 Hin2.
        destruct (Hseen f Hin1) as (nm' & rest & Hn & ->).
        destruct (listed_first _ _ _ (Hlisted _ Hin2)) as [rest' E].
        apply app_inv_head in E. injection E as -> _. done.
      * intros f Hin. apply elem_of_app in Hin as [Hin|Hin]; [by apply (Hwiden files)|].
        destruct (listed_first _ _ _ (Hlisted _ Hin)) as [rest' ->].
        by exists nm, rest'.
    + destruct (endsWith (lit ".html") nm) eqn:Eh.
      2:{ apply (IH (seen ++ [(nm, item)]) files visited); [done|done| |exact H].
          by apply (Hwiden files). }
      apply (IH (seen ++ [(nm, item)]) (files ++ [dir ++ [nm]]) visited); [done| | |exact H].
      * apply NoDup_app. split; [done|]. split; [|apply NoDup_singleton].
        intros f Hin1 Hin2. apply list_elem_of_singleton in Hin2 as ->.
        destruct (Hseen _ Hin1) as (nm' & rest & Hn & E).
        apply app_inv_head in E. injection E as -> _. done.
      * intros f Hin. apply elem_of_app in Hin as [Hin|Hin]; [by apply (Hwiden files)|].
        apply list_elem_of_singleton in Hin as ->. by exists nm, [].
Qed.

Lemma getAllHtmlFiles_NoDup t fuel dir visited files visited' :
  wf t = true ->
  getAllHtmlFiles fuel t dir visited = Some (files, visited') ->
  NoDup files.
Proof.
  intros Hw. revert dir visited files visited'.
  induction fuel as [|fuel IH]; intros dir visited files visited' H; [done|].
  rewrite getAllHtmlFiles_step in H.
  destruct (bool_decide (dir ∈ visited)); [injection H as <- _; constructor|].
  rewrite readdir_stat in H.
  destruct (stat t dir) as [[q c]|e] eqn:Hs; [|injection H as <- _; constructor].
  destruct c as [|es|]; try (injection H as <- _; constructor).
  apply (scanLoop_NoDup _ dir [] es [] _ _ _) in H; try done.
  - simpl. apply wf_dir. eapply wf_get; [done|]. by eapply stat_get.
  - intros nm v found v' Hr. split; [by eapply IH|by eapply getAllHtmlFiles_listed].
  - constructor.
  - intros f Hin. by apply elem_of_nil in Hin.
Qed.

(** *** The set of visited directories *)

Lemma scanLoop_visited (rec : path -> gset path -> option (list path * gset path))
    (dir : path) (items : list (name * node)) (files : list path)
    (visited : gset path) (out : list path) (visited' : gset path) :
  (forall d v found v', rec d v = Some (found, v') -> v ⊆ v') ->
  scanLoop rec dir items files visited = Some (out, visited') ->
  visited ⊆ visited'.
Proof.
  intros Hrec. revert files visited.
  induction items as [|[nm item] items IH]; intros files visited H;
    cbn [scanLoop] in H; cbv zeta in H.
  - by injection H as _ <-.
  - destruct (skipped nm); [by eapply IH|].
    destruct (isDirectory (kindOf item)).
    + destruct (rec (dir ++ [nm]) visited) as [[found v']|] eqn:Er; [|done].
      apply Hrec in Er. apply IH in H. by etrans.
    + destruct (endsWith (lit ".html") nm); by eapply IH.
Qed.

Lemma getAllHtmlFiles_visited t fuel dir visited files visited' :
  getAllHtmlFiles fuel t dir visited = Some (files, visited') ->
  {[dir]} ∪ visited ⊆ visited' /\ (dir ∈ visited -> files = [] /\ visited' = visited).
Proof.
  revert dir visited files visited'.
  induction fuel as [|fuel IH]; intros dir visited files visited' H; [done|].
  rewrite getAllHtmlFiles_step in H.
  destruct (bool_decide (dir ∈ visited)) eqn:E.
  - apply bool_decide_eq_true in E. injection H as <- <-. split; [|done].
    apply union_least; [by apply singleton_subseteq_l|done].
  - apply bool_decide_eq_false in E. split; [|done].
    destruct (readdir t dir) as [items|]; [|injection H as _ <-; done].
    eapply scanLoop_visited; [|exact H].
    intros d v found v' Hr. apply IH in Hr as [Hr _].
    etrans; [apply union_subseteq_r|exact Hr].
Qed.

End ScannerFacts.

Import ScannerFacts.

(** C7.  A file listed by [getAllHtmlFiles] lies below the scanned
    directory through directories none of whose names starts with a dot,
    is [node_modules], holds [backup] or is [hts-cache], at whatever
    depth; its own name passes the same tests and ends in [.html]. *)
Theorem C7_exclusions (fuel : nat) (t : node) (dir : path) (visited visited' : gset path)
    (files : list path) (f : path) :
  getAllHtmlFiles fuel t dir visited = Some (files, visited') ->
  f ∈ files ->
  exists dirs file,
    f = dir ++ dirs ++ [file] /\
    Forall (fun n =>
      startsWith (lit ".") n = false /\ n <> lit "node_modules" /\
      includes (lit "backup") n = false /\ n <> lit "hts-cache") (dirs ++ [file]) /\
    endsWith (lit ".html") file = true.
Proof.
  intros H Hf. apply getAllHtmlFiles_listed in H.
  rewrite Forall_forall in H. destruct (H f Hf) as (dirs & file & -> & Hok & Hh).
  exists dirs, file. split; [done|]. split; [|done].
  eapply Forall_impl; [exact Hok|]. intros n Hn. unfold skipped in Hn.
  apply orb_false_iff in Hn as [Hn H4]. apply orb_false_iff in Hn as [Hn H3].
  apply orb_false_iff in Hn as [H1 H2].
  repeat split; try done.
  - intros ->. by rewrite nameEqb_refl in H2.
  - intros ->. by rewrite nameEqb_refl in H4.
Qed.

Lemma C7_exclusions_witness :
  let t := Dir [(lit "index.html", File []);
                (lit "old-backup", Dir [(lit "a.html", File [])]);
                (lit "node_modules", Dir [(lit "b.html", File [])]);
                (lit "pages", Dir [(lit "hts-cache", Dir [(lit "c.html", File [])]);
                                   (lit ".cache", Dir [(lit "d.html", File [])]);
                                   (lit "notes.txt", File []);
                                   (lit "e.html", File [])])] in
  getAllHtmlFiles 3 t [] ∅
  = Some ([[lit "index.html"]; [lit "pages"; lit "e.html"]], {[ []; [lit "pages"] ]}) /\
  exists dirs file,
    [lit "pages"; lit "e.html"] = [] ++ dirs ++ [file] /\
    Forall (fun n =>
      startsWith (lit ".") n = false /\ n <> lit "node_modules" /\
      includes (lit "backup") n = false /\ n <> lit "hts-cache") (dirs ++ [file]) /\
    endsWith (lit ".html") file = true.
Proof.
  intros t.
  assert (getAllHtmlFiles 3 t [] ∅
          = Some ([[lit "index.html"]; [lit "pages"; lit "e.html"]], {[ []; [lit "pages"] ]}))
    as H by (vm_compute; reflexivity).
  split; [exact H|].
  apply (C7_exclusions 3 t [] ∅ _ _ _ H).
  apply list_elem_of_further, list_elem_of_here.
Defined.

(** The scan of that site, and a path through its link cycle that the
    file system does resolve. *)
Example cyclicSite_scan :
  getAllHtmlFiles 3 cyclicSite [] ∅
  = Some ([[lit "index.html"]; [lit "pages"; lit "a.html"]; [lit "pages"; lit "home.html"]],
          {[ []; [lit "pages"] ]}) /\
  exists es, stat cyclicSite [lit "pages"; lit "up"; lit "pages"; lit "up"; lit "pages"]
             = Ok ([lit "pages"], Dir es).
Proof. split; [vm_compute; reflexivity|]. eexists. vm_compute. reflexivity. Qed.


(** ** Facts about the footer remover *)

Module FooterFacts.

(** *** The matcher *)

(** What is left after a match is an end of the text. *)
Lemma lazyStar_suffix k rest s t :
  (forall s t, rest s = Some t -> exists m, s = m ++ t) ->
  lazyStar k rest s = Some t -> exists m, s = m ++ t.
Proof.
  intros Hrest. induction s as [|x s IH]; cbn [lazyStar]; intros H.
  - destruct (rest []) eqn:E; [|done]. injection H as ->. by apply Hrest.
  - destruct (rest (x :: s)) eqn:E.
    + injection H as ->. by apply Hrest.
    + destruct (accepts k x); [|done].
      destruct (IH H) as [m ->]. by exists (x :: m).
Qed.

Lemma greedyStar_suffix k rest s t :
  (forall s t, rest s = Some t -> exists m, s = m ++ t) ->
  greedyStar k rest s = Some t -> exists m, s = m ++ t.
Proof.
  intros Hrest. induction s as [|x s IH]; cbn [greedyStar]; intros H.
  - by apply Hrest.
  - destruct (accepts k x); [|by apply Hrest].
    destruct (greedyStar k rest s) as [t'|] eqn:E; [|by apply Hrest].
    injection H as ->. destruct (IH eq_refl) as [m ->]. by exists (x :: m).
Qed.

Lemma match_here_suffix r s t : match_here r s = Some t -> exists m, s = m ++ t.
Proof.
  revert s t. induction r as [|[k|k|k] r IH]; intros s t H.
  - injection H as <-. by exists [].
  - simpl in H. destruct s as [|x s]; [done|]. destruct (accepts k x); [|done].
    destruct (IH _ _ H) as [m ->]. by exists (x :: m).
  - by eapply greedyStar_suffix.
  - by eapply lazyStar_suffix.
Qed.

Lemma match_here_fixed_app ks r s t :
  match_here (map C ks ++ r) s = Some t ->
  fixedMatch ks s = true /\ match_here r (drop (length ks) s) = Some t.
Proof.
  revert s. induction ks as [|k ks IH]; intros s H; simpl in *; [done|].
  destruct s as [|x s]; [done|]. destruct (accepts k x); [|done]. by apply IH.
Qed.

(** The text of a match starts with the literal the pattern starts
    with. *)
Lemma matchFirst_fixed ks r s w :
  matchFirst (map C ks ++ r) s = Some w ->
  fixedMatch ks w = true /\ length ks <= length w.
Proof.
  assert (forall s t, match_here (map C ks ++ r) s = Some t ->
            fixedMatch ks (take (length s - length t) s) = true
            /\ length ks <= length (take (length s - length t) s)) as Hm.
  { clear s w. intros s t E. apply match_here_fixed_app in E as [Hm Hr].
    apply match_here_suffix in Hr as [m Hr].
    pose proof (fixedMatch_length _ _ Hm) as Hl.
    assert (length s = length ks + (length m + length t)) as Hlen.
    { rewrite <- (take_drop (length ks) s) at 1.
      rewrite length_app, Hr, length_app, length_take. lia. }
    split; [|rewrite length_take; lia].
    rewrite <- (take_drop (length s - length t) s) in Hm.
    rewrite fixedMatch_app in Hm; [done|]. rewrite length_take. lia. }
  induction s as [|c s IH]; cbn [matchFirst]; unfold match_len.
  - destruct (match_here (map C ks ++ r) []) as [t|] eqn:E; [|done].
    intros [= <-]. apply (Hm [] t E).
  - destruct (match_here (map C ks ++ r) (c :: s)) as [t|] eqn:E; [|exact IH].
    intros [= <-]. apply (Hm (c :: s) t E).
Qed.

Lemma splitFirst_spec p s a b : splitFirst p s = Some (a, b) -> s = a ++ p ++ b.
Proof.
  revert a. induction s as [|c s IH]; intros a; cbn [splitFirst].
  - destruct (startsWith p []) eqn:E; [|done]. intros [= <- <-].
    apply startsWith_spec in E as [t E]. destruct p; [|done]. by destruct t.
  - destruct (startsWith p (c :: s)) eqn:E.
    + intros [= <- <-]. apply startsWith_spec in E as [t E]. rewrite E.
      simpl. by rewrite drop_app_length.
    + destruct (splitFirst p s) as [[a' b']|]; [|done].
      intros [= <- <-]. simpl. f_equal. by apply IH.
Qed.

(** *** The pieces of the template *)

Lemma reWidget_container : reWidget = map C (map One container) ++ reWidgetRest.
Proof. reflexivity. Qed.

Lemma wrapper_pieces w : wrapper w = wrapperHead ++ w ++ wrapperTail.
Proof. done. Qed.

Lemma plain_wrapper w : plain w = true -> plain (wrapper w) = true.
Proof.
  intros H. rewrite wrapper_pieces, !plain_app, H.
  assert (plain wrapperHead = true) as -> by (vm_compute; reflexivity).
  assert (plain wrapperTail = true) as -> by (vm_compute; reflexivity).
  done.
Qed.

Lemma plain_no_dollar w : includes (lit "$") w = false -> plain w = true.
Proof.
  induction w as [|c w IH]; [done|].
  cbn [includes]. intros H. apply orb_false_iff in H as [Hc Hw].
  cbn [plain forallb]. fold (plain w). rewrite (IH Hw), andb_true_r.
  change (lit "$") with ["$"%char] in Hc. cbn [startsWith] in Hc.
  rewrite andb_true_r in Hc. unfold ceqb in *. by rewrite Ascii.eqb_sym, Hc.
Qed.

End FooterFacts.

Import FooterFacts.



(** * Further properties of the scripts *)

(** ** The title of a page *)

Module TitleFacts.

(** *** The matcher with a continuation *)

Lemma matchK_fixed {A} ks r (k : str -> option A) s :
  matchK (map C ks ++ r) k s
  = if fixedMatch ks s then matchK r k (drop (length ks) s) else None.
Proof.
  revert s. induction ks as [|c ks IH]; intros s; simpl; [done|].
  destruct s as [|x s]; [done|]. simpl. destruct (accepts c x); simpl; auto.
Qed.

(** The deepest success of a greedy star wins. *)
Lemma greedyK_run {A} c (rest : str -> option A) a s :
  Forall (fun y => accepts c y = true) a ->
  is_Some (rest s) ->
  match s with [] => True | x :: _ => accepts c x = false end ->
  greedyK c rest (a ++ s) = rest s.
Proof.
  intros Ha [r Hr] Hs. induction Ha as [|y a Hy Ha IH]; simpl.
  - destruct s as [|x s]; [done|]. simpl. by rewrite Hs.
  - rewrite Hy, IH. by rewrite Hr.
Qed.

(** A lazy star passes over the places where the rest fails. *)
Lemma lazyK_run {A} c (rest : str -> option A) a s :
  Forall (fun y => accepts c y = true) a ->
  (forall a1 x a2, a = a1 ++ x :: a2 -> rest (x :: a2 ++ s) = None) ->
  lazyK c rest (a ++ s) = lazyK c rest s.
Proof.
  intros Ha. induction Ha as [|y a Hy Ha IH]; intros Hr; [done|].
  simpl. rewrite (Hr [] y a eq_refl), Hy. apply IH.
  intros a1 x a2 ->. by apply (Hr (y :: a1) x a2).
Qed.

Lemma lazyK_here {A} c (rest : str -> option A) s :
  is_Some (rest s) -> lazyK c rest s = rest s.
Proof. intros [r Hr]. destruct s; simpl; by rewrite Hr. Qed.

(** What a lazy star passed over is made of characters of its class. *)
Lemma lazyK_some {A} c (rest : str -> option A) s r :
  lazyK c rest s = Some r ->
  exists u v, s = u ++ v /\ Forall (fun y => accepts c y = true) u /\ rest v = Some r.
Proof.
  induction s as [|x s IH]; simpl.
  - destruct (rest []) eqn:E; [|done]. intros [= ->]. by exists [], [].
  - destruct (rest (x :: s)) eqn:E.
    + intros [= ->]. by exists [], (x :: s).
    + destruct (accepts c x) eqn:Hx; [|done]. intros H.
      destruct (IH H) as (u & v & -> & Hu & Hv).
      exists (x :: u), v. repeat split; [by constructor|done].
Qed.

Lemma greedyK_some {A} c (rest : str -> option A) s r :
  greedyK c rest s = Some r -> exists u v, s = u ++ v /\ rest v = Some r.
Proof.
  induction s as [|x s IH]; simpl.
  - intros H. by exists [], [].
  - destruct (accepts c x).
    + destruct (greedyK c rest s) eqn:E.
      * intros [= ->]. destruct (IH eq_refl) as (u & v & -> & Hv).
        by exists (x :: u), v.
      * intros H. by exists [], (x :: s).
    + intros H. by exists [], (x :: s).
Qed.

(** A match hands an end of the text to its continuation. *)
Lemma matchK_some {A} r (k : str -> option A) s a :
  matchK r k s = Some a -> exists u v, s = u ++ v /\ k v = Some a.
Proof.
  revert k s. induction r as [|[c|c|c] r IH]; intros k s; simpl.
  - intros H. by exists [], s.
  - destruct s as [|x s]; [done|]. destruct (accepts c x); [|done].
    intros H. destruct (IH _ _ H) as (u & v & -> & Hv). by exists (x :: u), v.
  - intros H. apply greedyK_some in H as (u & v & -> & H).
    destruct (IH _ _ H) as (u' & v' & -> & Hv). exists (u ++ u'), v'.
    by rewrite <- app_assoc.
  - intros H. apply lazyK_some in H as (u & v & -> & _ & H).
    destruct (IH _ _ H) as (u' & v' & -> & Hv). exists (u ++ u'), v'.
    by rewrite <- app_assoc.
Qed.

(** With the continuation that accepts everything, the matcher is
    [match_here]. *)
Lemma lazyK_lazyStar c rest rest' s :
  (forall s, rest s = rest' s) -> lazyK c rest s = lazyStar c rest' s.
Proof.
  intros H. induction s as [|x s IH]; simpl; rewrite H; [done|].
  destruct (rest' (x :: s)); [done|]. by rewrite IH.
Qed.

Lemma greedyK_greedyStar c rest rest' s :
  (forall s, rest s = rest' s) -> greedyK c rest s = greedyStar c rest' s.
Proof.
  intros H. induction s as [|x s IH]; simpl; rewrite ?H; [done|].
  by rewrite IH.
Qed.

Lemma matchK_match_here r s : matchK r Some s = match_here r s.
Proof.
  revert s. induction r as [|[c|c|c] r IH]; intros s; simpl; [done| | |].
  - destruct s as [|x s]; [done|]. by destruct (accepts c x).
  - by apply greedyK_greedyStar.
  - by apply lazyK_lazyStar.
Qed.

(** *** The flag [i] on the tags *)

Lemma title_chars x :
  forallb (fun c => Bool.eqb (accepts (eitherCase c) x) (ceqb c (lowerChar x)))
          (lit "</title>") = true.
Proof. destruct x as [[] [] [] [] [] [] [] []]; vm_compute; reflexivity. Qed.

Lemma fixedMatch_eitherCase p s :
  forallb (fun c => mem c (lit "</title>")) p = true ->
  fixedMatch (map eitherCase p) s = startsWith p (toLowerCase s).
Proof.
  revert s. induction p as [|c p IH]; intros s Hp; simpl; [done|].
  cbn [forallb] in Hp. apply andb_true_iff in Hp as [Hc Hp].
  destruct s as [|x s]; [done|]. simpl. rewrite (IH _ Hp). f_equal.
  pose proof (title_chars x) as Hx. rewrite forallb_forall in Hx.
  unfold mem in Hc. apply existsb_exists in Hc as (c' & Hin & Hcc).
  apply ceqb_eq in Hcc as <-. apply Hx in Hin. by apply Bool.eqb_prop in Hin.
Qed.

Lemma ksTitleOpen_spec s :
  fixedMatch ksTitleOpen s = startsWith (lit "<title") (toLowerCase s).
Proof. by apply fixedMatch_eitherCase. Qed.

Lemma ksTitleClose_spec s :
  fixedMatch ksTitleClose s = startsWith (lit "</title>") (toLowerCase s).
Proof. by apply fixedMatch_eitherCase. Qed.

Lemma titleOpen_fixed :
  titleOpen = map C ksTitleOpen ++ [StarG (NoneOf [">"%char]); C (One ">"%char)].
Proof. reflexivity. Qed.

Lemma titleClose_fixed : titleClose = map C ksTitleClose ++ [].
Proof. reflexivity. Qed.

(** No occurrence of a tag starts in a text without it and runs into a
    text that begins with the tag. *)
Lemma startsWith_before (p : str) c y rest :
  0 < length p ->
  apart (map One p) p = true ->
  includes p (c :: y) = false ->
  startsWith p (c :: y ++ p ++ rest) = false.
Proof.
  intros Hlen Hap Hinc.
  assert (Hap' : apart (map One p) (p ++ rest) = true).
  { by apply apart_app. }
  assert (Hl : 0 < length (map One p)) by by rewrite length_map.
  assert (Hc : count (map One p) (c :: y) = 0) by by apply count_includes.
  pose proof (count_app (map One p) Hl (c :: y) (p ++ rest) Hap') as E.
  assert (Hy : count (map One p) y = 0) by (by apply (count_zero_suffix _ [c] y)).
  pose proof (count_app (map One p) Hl y (p ++ rest) Hap') as E'.
  rewrite Hc in E. rewrite Hy in E'. simpl in E. rewrite E' in E.
  rewrite fixedMatch_One in E.
  destruct (startsWith p (c :: y ++ p ++ rest)); [simpl in E; lia|done].
Qed.

(** *** Trimming *)

Lemma trimStart_suffix s : exists a, s = a ++ trimStart s.
Proof.
  induction s as [|c s [a IH]]; simpl; [by exists []|].
  destruct (isSpace c); [|by exists []].
  exists (c :: a). simpl. by f_equal.
Qed.

Lemma trimStart_head s c s' : trimStart s = c :: s' -> isSpace c = false.
Proof.
  induction s as [|x s IH]; simpl; [done|].
  destruct (isSpace x) eqn:E; [done|]. by intros [= <- _].
Qed.

Lemma trim_parts s : exists a b, s = a ++ trim s ++ b.
Proof.
  destruct (trimStart_suffix s) as [a Ha].
  destruct (trimStart_suffix (rev (trimStart s))) as [b Hb].
  exists a, (rev b). unfold trim, trimEnd. rewrite <- rev_app_distr, <- Hb.
  by rewrite rev_involutive.
Qed.

Lemma trim_head s c : head (trim s) = Some c -> isSpace c = false.
Proof.
  unfold trim, trimEnd.
  destruct (trimStart_suffix (rev (trimStart s))) as [b Hb].
  set (z := trimStart (rev (trimStart s))) in *.
  assert (Hx : trimStart s = rev z ++ rev b).
  { rewrite <- rev_app_distr, <- Hb. by rewrite rev_involutive. }
  destruct (rev z) as [|y r] eqn:E; [done|]. simpl. intros [= ->].
  simpl in Hx. by apply trimStart_head in Hx.
Qed.

Lemma trim_last s c : last (trim s) = Some c -> isSpace c = false.
Proof.
  unfold trim, trimEnd.
  destruct (trimStart (rev (trimStart s))) as [|x r] eqn:E; [done|].
  simpl. rewrite last_snoc. intros [= ->]. by apply trimStart_head in E.
Qed.

Lemma trim_Forall (P : ascii -> Prop) s : Forall P s -> Forall P (trim s).
Proof.
  destruct (trim_parts s) as (a & b & E). intros H. rewrite E in H.
  apply Forall_app in H as [_ H]. by apply Forall_app in H as [H _].
Qed.

(** *** The capture *)

Lemma captureHere_title s :
  captureHere titleOpen titleText titleClose s = matchK titleOpen titleRest s.
Proof. reflexivity. Qed.

(** The captured text is made of characters of one line. *)
Lemma titleRest_some s1 g :
  titleRest s1 = Some g -> Forall (fun y => accepts Dot y = true) g.
Proof.
  unfold titleRest, titleText. cbn [matchK]. intros H.
  apply lazyK_some in H as (u & v & -> & Hu & H).
  apply matchK_some in H as (u' & v' & _ & H). injection H as <-.
  rewrite length_app. replace (length u + length v - length v) with (length u) by lia.
  by rewrite take_app_length.
Qed.

Lemma captureHere_some s g :
  captureHere titleOpen titleText titleClose s = Some g ->
  Forall (fun y => accepts Dot y = true) g.
Proof.
  rewrite captureHere_title. intros E.
  apply matchK_some in E as (u & v & _ & E). by apply titleRest_some in E.
Qed.

Lemma capture_some s g :
  capture titleOpen titleText titleClose s = Some g ->
  Forall (fun y => accepts Dot y = true) g.
Proof.
  induction s as [|c s IH]; cbn [capture].
  - destruct (captureHere titleOpen titleText titleClose []) eqn:E; [|done].
    intros [= ->]. by apply captureHere_some in E.
  - destruct (captureHere titleOpen titleText titleClose (c :: s)) eqn:E; [|done].
    intros [= ->]. by apply captureHere_some in E.
Qed.

(** No match starts where the text does not start with the opening
    tag. *)
Lemma captureHere_none s :
  startsWith (lit "<title") (toLowerCase s) = false ->
  captureHere titleOpen titleText titleClose s = None.
Proof.
  intros H. rewrite captureHere_title, titleOpen_fixed, matchK_fixed.
  by rewrite ksTitleOpen_spec, H.
Qed.

Lemma capture_skip pre rest :
  includes (lit "<title") (toLowerCase pre) = false ->
  startsWith (lit "<title") (toLowerCase rest) = true ->
  capture titleOpen titleText titleClose (pre ++ rest)
  = capture titleOpen titleText titleClose rest.
Proof.
  intros Hinc Hrest. apply startsWith_spec in Hrest as [r' Hr'].
  induction pre as [|c y IH]; [done|].
  cbn [app capture]. rewrite captureHere_none.
  - apply IH. cbn [toLowerCase map includes] in Hinc.
    by apply orb_false_iff in Hinc as [_ Hinc].
  - unfold toLowerCase. cbn [map]. rewrite map_app.
    fold (toLowerCase rest). rewrite Hr'.
    apply startsWith_before; [cbn; lia|reflexivity|exact Hinc].
Qed.

(** Without the opening tag in any case there is no match. *)
Lemma capture_none s :
  includes (lit "<title") (toLowerCase s) = false ->
  capture titleOpen titleText titleClose s = None.
Proof.
  induction s as [|c s IH]; intros H.
  - by vm_compute.
  - cbn [capture]. cbn [toLowerCase map includes] in H.
    apply orb_false_iff in H as [H1 H2].
    rewrite captureHere_none; [by apply IH|done].
Qed.

Lemma toLowerCase_app a b : toLowerCase (a ++ b) = toLowerCase a ++ toLowerCase b.
Proof. apply map_app. Qed.

Lemma toLowerCase_length a : length (toLowerCase a) = length a.
Proof. apply length_map. Qed.

(** The closing tag is not met inside a text without it. *)
Lemma close_before x t2 close rest :
  includes (lit "</title>") (toLowerCase (x :: t2)) = false ->
  toLowerCase close = lit "</title>" ->
  fixedMatch ksTitleClose (x :: t2 ++ close ++ rest) = false.
Proof.
  intros Hinc Hclose. rewrite ksTitleClose_spec.
  change (x :: t2 ++ close ++ rest) with ((x :: t2) ++ close ++ rest).
  rewrite !toLowerCase_app, Hclose.
  apply (startsWith_before (lit "</title>") (lowerChar x) (toLowerCase t2));
    [cbn; lia|reflexivity|exact Hinc].
Qed.

Lemma notgt_run attrs :
  mem ">"%char attrs = false ->
  Forall (fun y => accepts (NoneOf [">"%char]) y = true) attrs.
Proof.
  induction attrs as [|c a IH]; [done|]. intros Hattrs.
  cbn [mem existsb] in Hattrs. apply orb_false_iff in Hattrs as [Hc Ha].
  constructor; [|by apply IH]. cbn [accepts mem existsb].
  rewrite orb_false_r. apply negb_true_iff.
  destruct (ceqb c ">") eqn:E; [|done]. apply ceqb_eq in E as ->.
  by rewrite ceqb_refl in Hc.
Qed.

Lemma dot_run t :
  mem nl t = false -> mem cr t = false -> Forall (fun y => accepts Dot y = true) t.
Proof.
  induction t as [|y t IH]; [done|]. cbn [mem existsb]. intros Hnl Hcr.
  apply orb_false_iff in Hnl as [Hn Hnl]. apply orb_false_iff in Hcr as [Hc Hcr].
  constructor; [|by apply IH]. cbn [accepts mem existsb].
  rewrite orb_false_r. apply negb_true_iff. apply orb_false_iff.
  split; (destruct (ceqb y _) eqn:E; [apply ceqb_eq in E as ->|done]).
  - by rewrite ceqb_refl in Hn.
  - by rewrite ceqb_refl in Hc.
Qed.

Lemma run_dot t :
  Forall (fun y => accepts Dot y = true) t -> mem nl t = false /\ mem cr t = false.
Proof.
  induction 1 as [|y t Hy Ht [IH1 IH2]]; [done|]. cbn [mem existsb].
  fold (mem nl t). fold (mem cr t). rewrite IH1, IH2, !orb_false_r.
  cbn [accepts mem existsb] in Hy. rewrite orb_false_r in Hy.
  apply negb_true_iff, orb_false_iff in Hy as [H1 H2].
  split.
  - destruct (ceqb nl y) eqn:E; [|done]. apply ceqb_eq in E as <-. by rewrite ceqb_refl in H1.
  - destruct (ceqb cr y) eqn:E; [|done]. apply ceqb_eq in E as <-. by rewrite ceqb_refl in H2.
Qed.

(** The match of the pattern on a title element. *)
Lemma captureHere_element open attrs t close post :
  toLowerCase open = lit "<title" ->
  mem ">"%char attrs = false ->
  Forall (fun y => accepts Dot y = true) t ->
  includes (lit "</title>") (toLowerCase t) = false ->
  toLowerCase close = lit "</title>" ->
  captureHere titleOpen titleText titleClose
    (open ++ attrs ++ ">"%char :: t ++ close ++ post) = Some t.
Proof.
  intros Hopen Hattrs Ht Hinc Hclose.
  assert (Hlo : length open = 6) by by rewrite <- toLowerCase_length, Hopen.
  assert (Hrest : titleRest (t ++ close ++ post) = Some t).
  { unfold titleRest, titleText. cbn [matchK].
    rewrite lazyK_run; [|done|].
    - rewrite lazyK_here.
      + rewrite titleClose_fixed, matchK_fixed, ksTitleClose_spec.
        rewrite toLowerCase_app, Hclose, startsWith_app. cbn [matchK].
        rewrite length_app.
        replace (length t + length (close ++ post) - length (close ++ post))
          with (length t) by lia.
        by rewrite take_app_length.
      + rewrite titleClose_fixed, matchK_fixed, ksTitleClose_spec.
        by rewrite toLowerCase_app, Hclose, startsWith_app.
    - intros a1 x a2 ->. rewrite titleClose_fixed, matchK_fixed.
      rewrite <- app_assoc. cbn [app].
      rewrite (close_before x a2); [done| |done].
      rewrite toLowerCase_app in Hinc. by apply includes_app_false in Hinc as [_ Hinc]. }
  rewrite captureHere_title, titleOpen_fixed, matchK_fixed, ksTitleOpen_spec.
  rewrite toLowerCase_app, Hopen, startsWith_app.
  rewrite drop_app_length'; [|by rewrite Hlo].
  cbn [matchK]. rewrite greedyK_run.
  - cbn [accepts]. by rewrite ceqb_refl.
  - by apply notgt_run.
  - cbn [accepts]. rewrite ceqb_refl, Hrest. by eexists.
  - done.
Qed.

(** A greedy star whose rest fails everywhere in its run. *)
Lemma greedyK_fail {A} c (rest : str -> option A) a s :
  Forall (fun y => accepts c y = true) a ->
  (forall a1 x a2, a = a1 ++ x :: a2 -> rest (x :: a2 ++ s) = None) ->
  greedyK c rest (a ++ s) = greedyK c rest s.
Proof.
  intros Ha. induction Ha as [|y a Hy Ha IH]; intros Hr; [done|].
  cbn [app greedyK]. rewrite Hy, IH.
  - destruct (greedyK c rest s) eqn:E; [done|].
    by rewrite (Hr [] y a eq_refl).
  - intros a1 x a2 ->. by apply (Hr (y :: a1) x a2).
Qed.

(** A lazy star stops at a character outside its class. *)
Lemma lazyK_stop {A} c (rest : str -> option A) a b s :
  accepts c b = false ->
  (forall a1 a2, a = a1 ++ a2 -> rest (a2 ++ b :: s) = None) ->
  lazyK c rest (a ++ b :: s) = None.
Proof.
  intros Hb. induction a as [|x a IH]; intros Hr.
  - pose proof (Hr [] [] eq_refl) as H0. cbn [app] in H0.
    cbn [app lazyK]. by rewrite H0, Hb.
  - pose proof (Hr [] (x :: a) eq_refl) as H0. cbn [app] in H0.
    cbn [app lazyK]. rewrite H0.
    destruct (accepts c x); [|done]. apply IH.
    intros a1 a2 ->. by apply (Hr (x :: a1) a2).
Qed.

(** A text cannot start with a tag that would have to run over a
    character the tag does not hold. *)
Lemma startsWith_blocked (p L : str) b R :
  mem b p = false -> startsWith p L = false -> startsWith p (L ++ b :: R) = false.
Proof.
  revert L. induction p as [|a p IH]; intros L Hb HL; [done|].
  cbn [mem existsb] in Hb. apply orb_false_iff in Hb as [Hab Hb].
  destruct L as [|x L]; cbn [app startsWith].
  - destruct (ceqb a b) eqn:E; [|done]. apply ceqb_eq in E as ->.
    by rewrite ceqb_refl in Hab.
  - cbn [startsWith] in HL. apply andb_false_iff in HL as [HL|HL].
    + by rewrite HL.
    + rewrite (IH L Hb HL). apply andb_false_r.
Qed.

Lemma includes_suffix p a b : includes p (a ++ b) = false -> includes p b = false.
Proof. intros H. by apply includes_app_false in H as [_ H]. Qed.

Lemma includes_head p s : includes p s = false -> startsWith p s = false.
Proof. destruct s; cbn [includes]; intros H; by apply orb_false_iff in H as [H _]. Qed.

(** The rest of the pattern fails on a text with a line break before any
    closing tag. *)
Lemma titleRest_broken t1 b rest :
  includes (lit "</title>") (toLowerCase t1) = false ->
  b = nl \/ b = cr ->
  titleRest (t1 ++ b :: rest) = None.
Proof.
  intros Hinc Hb. unfold titleRest, titleText. cbn [matchK].
  apply lazyK_stop.
  - by destruct Hb as [-> | ->].
  - intros a1 a2 ->. rewrite titleClose_fixed, matchK_fixed, ksTitleClose_spec.
    rewrite toLowerCase_app. cbn [toLowerCase map].
    rewrite startsWith_blocked; [done| |].
    + by destruct Hb as [-> | ->].
    + apply includes_head. rewrite toLowerCase_app in Hinc.
      by apply includes_suffix in Hinc.
Qed.

End TitleFacts.

Import TitleFacts.

(** X1. [extractTitle] on a page whose first title element, with tags in
    any case and any attributes up to the first [>] after the tag name
    (the opening tag ends there, also when that [>] is in a quoted
    attribute), holds a text within one line: the result is that text
    without the white space around it. *)
Theorem X1_title_found (pre open attrs t close post : str) :
  includes (lit "<title") (toLowerCase pre) = false ->
  toLowerCase open = lit "<title" ->
  mem ">"%char attrs = false ->
  mem nl t = false -> mem cr t = false ->
  includes (lit "</title>") (toLowerCase t) = false ->
  toLowerCase close = lit "</title>" ->
  extractTitle (pre ++ open ++ attrs ++ ">"%char :: t ++ close ++ post) = trim t.
Proof.
  intros Hpre Hopen Hattrs Hnl Hcr Ht Hclose. unfold extractTitle.
  rewrite capture_skip; [|done|].
  - destruct open as [|o open']; [done|]. cbn [app capture].
    change (o :: open' ++ attrs ++ ">"%char :: t ++ close ++ post)
      with ((o :: open') ++ attrs ++ ">"%char :: t ++ close ++ post).
    rewrite (captureHere_element (o :: open') attrs t close post); [done..| |done|done].
    by apply dot_run.
  - rewrite toLowerCase_app, Hopen. apply startsWith_app.
Qed.

Lemma X1_title_found_witness :
  extractTitle (lit "<html><head><TITLE lang='en'>  Miracles of the Quran </Title></head></html>")
  = lit "Miracles of the Quran".
Proof.
  exact (X1_title_found (lit "<html><head>") (lit "<TITLE") (lit " lang='en'")
    (lit "  Miracles of the Quran ") (lit "</Title>") (lit "</head></html>")
    eq_refl eq_refl eq_refl eq_refl eq_refl eq_refl eq_refl).
Defined.

(** X2. Whatever the page, the text [extractTitle] returns holds no line
    feed and no carriage return, and neither starts nor ends with a
    white-space character. *)
Theorem X2_title_shape (htmlContent : str) :
  let title := extractTitle htmlContent in
  mem nl title = false /\ mem cr title = false /\
  (forall c, head title = Some c -> isSpace c = false) /\
  (forall c, last title = Some c -> isSpace c = false).
Proof.
  cbv zeta. unfold extractTitle.
  destruct (capture titleOpen titleText titleClose htmlContent) as [g|] eqn:E.
  - apply capture_some in E. apply (trim_Forall _ g) in E.
    apply run_dot in E as [E1 E2]. repeat split; [done|done| |].
    + apply trim_head.
    + apply trim_last.
  - repeat split.
    + intros c [= <-]. done.
    + intros c H. vm_compute in H. by injection H as <-.
Qed.

(** X3. A title whose text has a line break before the closing tag is
    not found: when the page has no other opening title tag, the result
    is the fallback text. *)
Theorem X3_title_over_lines (pre open attrs t1 rest : str) (b : ascii) :
  includes (lit "<title") (toLowerCase pre) = false ->
  toLowerCase open = lit "<title" ->
  mem ">"%char attrs = false ->
  includes (lit "</title>") (toLowerCase t1) = false ->
  b = nl \/ b = cr ->
  includes (lit "<title") (toLowerCase (attrs ++ ">"%char :: t1 ++ b :: rest)) = false ->
  extractTitle (pre ++ open ++ attrs ++ ">"%char :: t1 ++ b :: rest)
  = lit "No title found".
Proof.
  intros Hpre Hopen Hattrs Ht1 Hb Hrest. unfold extractTitle.
  rewrite capture_skip; [|done|].
  2:{ rewrite toLowerCase_app, Hopen. apply startsWith_app. }
  assert (Hlo : length open = 6) by by rewrite <- toLowerCase_length, Hopen.
  destruct open as [|o open']; [done|]. cbn [app capture].
  change (o :: open' ++ attrs ++ ">"%char :: t1 ++ b :: rest)
    with ((o :: open') ++ attrs ++ ">"%char :: t1 ++ b :: rest).
  rewrite captureHere_title, titleOpen_fixed, matchK_fixed, ksTitleOpen_spec.
  rewrite toLowerCase_app, Hopen, startsWith_app.
  rewrite drop_app_length'; [|by rewrite Hlo].
  cbn [matchK]. rewrite greedyK_fail.
  - cbn [greedyK accepts mem existsb]. rewrite ceqb_refl. cbn [negb orb].
    rewrite titleRest_broken; [|done|done].
    rewrite capture_none; [done|].
    injection Hopen as _ Hopen'. rewrite toLowerCase_app, Hopen'.
    assert (Hlen : 0 < length (lit "<title")) by (cbn; lia).
    apply (proj1 (count_includes (lit "<title") _ Hlen)).
    rewrite (count_closed (map One (lit "<title")) (lit "title")); [|reflexivity].
    by apply (proj2 (count_includes (lit "<title") _ Hlen)).
  - by apply notgt_run.
  - intros a1 x a2 ->. cbn [accepts].
    destruct (ceqb ">" x) eqn:E; [|done]. apply ceqb_eq in E as <-.
    clear -Hattrs. exfalso. induction a1 as [|y a1 IH].
    + cbn [app mem existsb] in Hattrs. by rewrite ceqb_refl in Hattrs.
    + cbn [app mem existsb] in Hattrs. apply orb_false_iff in Hattrs as [_ H]. by apply IH.
Qed.

Lemma X3_title_over_lines_witness :
  extractTitle (lit "<head><title>" ++ nl :: lit "Miracles of the Quran" ++ nl :: lit "</title></head>")
  = lit "No title found".
Proof.
  exact (X3_title_over_lines (lit "<head>") (lit "<title") [] []
    (lit "Miracles of the Quran" ++ nl :: lit "</title></head>") nl
    eq_refl eq_refl eq_refl eq_refl (or_introl eq_refl) eq_refl).
Defined.


(** ** What a run writes *)

Module RunFacts.

(** *** The monad *)

Lemma bind_inv {A B} (m : M A) (f : A -> M B) s r s' :
  (m ≫= f) s = Some (r, s') ->
  (exists a s1, m s = Some (Ok a, s1) /\ f a s1 = Some (r, s'))
  \/ (exists e, m s = Some (Throw e, s') /\ r = Throw e).
Proof.
  unfold mbind, M_bind. destruct (m s) as [[[a|e] s1]|] eqn:E; [| |done].
  - intros H. left. by exists a, s1.
  - intros [= <- <-]. right. by exists e.
Qed.

Lemma tryCatch_inv {A} (m : M A) h s r s' :
  tryCatch m h s = Some (r, s') ->
  (exists a, m s = Some (Ok a, s') /\ r = Ok a)
  \/ (exists e s1, m s = Some (Throw e, s1) /\ h e s1 = Some (r, s')).
Proof.
  unfold tryCatch. destruct (m s) as [[[a|e] s1]|] eqn:E; [| |done].
  - intros [= <- <-]. left. by exists a.
  - intros H. right. by exists e, s1.
Qed.

Lemma still_ret {A} (a : A) : still (mret a).
Proof. by intros s r s' [= _ <-]. Qed.

Lemma still_bind {A B} (m : M A) (f : A -> M B) :
  still m -> (forall a, still (f a)) -> still (m ≫= f).
Proof.
  intros Hm Hf s r s' H. apply bind_inv in H as [(a & s1 & H1 & H2)|(e & H1 & _)].
  - apply Hm in H1 as ->. by apply Hf in H2.
  - by apply Hm in H1.
Qed.

Lemma still_tryCatch {A} (m : M A) h :
  still m -> (forall e, still (h e)) -> still (tryCatch m h).
Proof.
  intros Hm Hh s r s' H. apply tryCatch_inv in H as [(a & H1 & _)|(e & s1 & H1 & H2)].
  - by apply Hm in H1.
  - apply Hm in H1 as ->. by apply Hh in H2.
Qed.

Lemma still_reading {A} (f : node -> result A) : still (reading f).
Proof. by intros s r s' [= _ <-]. Qed.

Lemma still_quiet {A} (m : M A) : still m -> quiet m.
Proof. intros Hm s r s' H. by apply Hm in H as ->. Qed.

Lemma quiet_ret {A} (a : A) : quiet (mret a).
Proof. apply still_quiet, still_ret. Qed.

Lemma quiet_bind {A B} (m : M A) (f : A -> M B) :
  quiet m -> (forall a, quiet (f a)) -> quiet (m ≫= f).
Proof.
  intros Hm Hf s r s' H. apply bind_inv in H as [(a & s1 & H1 & H2)|(e & H1 & _)].
  - apply Hm in H1 as [E1 E2]. apply Hf in H2 as [E3 E4]. split; congruence.
  - by apply Hm in H1.
Qed.

Lemma quiet_tryCatch {A} (m : M A) h :
  quiet m -> (forall e, quiet (h e)) -> quiet (tryCatch m h).
Proof.
  intros Hm Hh s r s' H. apply tryCatch_inv in H as [(a & H1 & _)|(e & s1 & H1 & H2)].
  - by apply Hm in H1.
  - apply Hm in H1 as [E1 E2]. apply Hh in H2 as [E3 E4]. split; congruence.
Qed.

Lemma quiet_reading {A} (f : node -> result A) : quiet (reading f).
Proof. apply still_quiet, still_reading. Qed.

Lemma quiet_changing f : quiet (changing f).
Proof.
  intros s r s'. unfold changing. destruct (f (tree s)); by intros [= _ <-].
Qed.

Lemma quiet_forEach {A} (items : list A) body :
  (forall item, quiet (body item)) -> quiet (forEach items body).
Proof.
  intros Hb. induction items as [|item items IH]; cbn [forEach].
  - apply quiet_ret.
  - apply quiet_bind; [apply Hb|]. by intros _.
Qed.

Lemma quiet_outOfFuel {A} : quiet (@outOfFuel A).
Proof. by intros s r s'. Qed.

Lemma quiet_if {A} (b : bool) (m1 m2 : M A) :
  quiet m1 -> quiet m2 -> quiet (if b then m1 else m2).
Proof. by destruct b. Qed.

Lemma still_if {A} (b : bool) (m1 m2 : M A) :
  still m1 -> still m2 -> still (if b then m1 else m2).
Proof. by destruct b. Qed.

Ltac quiet_step :=
  first
    [ apply quiet_ret
    | apply quiet_reading
    | apply quiet_changing
    | apply quiet_outOfFuel
    | apply quiet_bind; [|intros ?]
    | apply quiet_tryCatch; [|intros ?]
    | apply quiet_forEach; intros ?
    | apply quiet_if ].

Ltac still_step :=
  first
    [ apply still_ret
    | apply still_reading
    | apply still_bind; [|intros ?]
    | apply still_tryCatch; [|intros ?]
    | apply still_if ].

(** *** The restructurer and the analysis write no file *)

Lemma quiet_mergeDirectories fuel src dest : quiet (mergeDirectories fuel src dest).
Proof.
  revert src dest. induction fuel as [|fuel IH]; intros src dest; cbn [mergeDirectories].
  - apply quiet_outOfFuel.
  - repeat (apply IH || quiet_step).
Qed.

Lemma quiet_moveItem fuel item : quiet (moveItem fuel item).
Proof.
  unfold moveItem. repeat (apply quiet_mergeDirectories || quiet_step).
Qed.

Lemma quiet_moveEntries fuel : quiet (moveEntries fuel).
Proof. unfold moveEntries. repeat (apply quiet_moveItem || quiet_step). Qed.

Lemma quiet_resolveIndexConflict : quiet resolveIndexConflict.
Proof. unfold resolveIndexConflict. repeat quiet_step. Qed.

Lemma quiet_moveAndFixStructure fuel : quiet (moveAndFixStructure fuel).
Proof.
  unfold moveAndFixStructure.
  repeat (apply quiet_moveEntries || apply quiet_resolveIndexConflict || quiet_step).
Qed.

Lemma still_analyzeStructure : still analyzeStructure.
Proof. unfold analyzeStructure. repeat still_step. Qed.


(** *** The two transformers write the file they were given, or nothing *)

Lemma wrote_refl s : wrote s s [].
Proof. split; cbn; [by rewrite app_nil_r|lia]. Qed.

Lemma wrote_trans s1 s2 s3 ws ws' :
  wrote s1 s2 ws -> wrote s2 s3 ws' -> wrote s1 s3 (ws ++ ws').
Proof.
  intros [E1 E2] [E3 E4]. split.
  - by rewrite E3, E1, app_assoc.
  - rewrite E4, E2, length_app. lia.
Qed.

Lemma wrote_quiet s s' : writes s' = writes s -> processedFiles s' = processedFiles s -> wrote s s' [].
Proof. intros E1 E2. split; cbn; [by rewrite app_nil_r|lia]. Qed.

Lemma fixPathsInHtml_wrote sep filePath rootPath s :
  exists s' ws, fixPathsInHtml sep filePath rootPath s = Some (Ok (), s')
    /\ wrote s s' ws /\ (ws = [] \/ ws = [filePath]).
Proof.
  destruct (readFile (tree s) filePath) as [content|e] eqn:E.
  - rewrite (fixPathsInHtml_run _ _ _ _ _ E). cbv zeta.
    destruct (bool_decide _).
    + destruct (readFile_writeFile _ _ _
        (fixContent (depthOf sep (relative sep rootPath filePath)) content) E) as [t' Ht'].
      rewrite Ht'. eexists _, [filePath]. split; [done|]. split; [|by right].
      split; cbn; [done|lia].
    + exists s, []. split; [done|]. split; [apply wrote_refl|by left].
  - exists s, []. split; [|split; [apply wrote_refl|by left]].
    unfold fixPathsInHtml, tryCatch, mbind, M_bind, readFileSync, reading.
    by rewrite E.
Qed.

Lemma processFile_wrote filePath s :
  exists o s' ws, processFile filePath s = Some (Ok o, s')
    /\ wrote s s' ws
    /\ ((ws = [] /\ o <> Success true) \/ (ws = [filePath] /\ o = Success true)).
Proof.
  destruct (readFile (tree s) filePath) as [content|e] eqn:E.
  - rewrite (processFile_run _ _ _ E).
    destruct (processContent content).2.
    + destruct (readFile_writeFile _ _ _ (processContent content).1 E) as [t' Ht'].
      rewrite Ht'. eexists _, _, [filePath]. split; [done|]. split; [|by right].
      split; cbn; [done|lia].
    + exists (Success false), s, []. split; [done|]. split; [apply wrote_refl|by left].
  - exists (Failure e), s, []. split; [|split; [apply wrote_refl|by left]].
    unfold processFile, tryCatch, mbind, M_bind, readFileSync, reading.
    by rewrite E.
Qed.

Lemma forEach_fix_wrote sep rootPath files s :
  exists s' ws,
    forEach files (fun filePath => fixPathsInHtml sep filePath rootPath) s = Some (Ok (), s')
    /\ wrote s s' ws /\ ws `sublist_of` files.
Proof.
  revert s. induction files as [|f files IH]; intros s; cbn [forEach].
  - exists s, []. split; [done|]. split; [apply wrote_refl|done].
  - destruct (fixPathsInHtml_wrote sep f rootPath s) as (s1 & ws1 & E1 & W1 & Hws1).
    destruct (IH s1) as (s2 & ws2 & E2 & W2 & Hws2).
    exists s2, (ws1 ++ ws2). unfold mbind, M_bind. rewrite E1. split; [done|].
    split; [by eapply wrote_trans|].
    destruct Hws1 as [-> | ->]; cbn [app]; by constructor.
Qed.

Lemma countOutcomes_wrote files ok bad s :
  exists ok' bad' s' ws,
    countOutcomes files ok bad s = Some (Ok (ok', bad'), s')
    /\ ok' + bad' = ok + bad + length files
    /\ wrote s s' ws /\ ws `sublist_of` files
    /\ ok + length ws <= ok' /\ bad <= bad'.
Proof.
  revert ok bad s. induction files as [|f files IH]; intros ok bad s; cbn [countOutcomes].
  - exists ok, bad, s, []. split; [done|]. split; [cbn; lia|].
    split; [apply wrote_refl|]. split; [done|]. cbn. lia.
  - destruct (processFile_wrote f s) as (o & s1 & ws1 & E1 & W1 & Hws1).
    unfold mbind, M_bind. rewrite E1.
    destruct o as [changed|e].
    + destruct (IH (S ok) bad s1) as (ok' & bad' & s2 & ws2 & E2 & Hsum & W2 & Hsub & Hok & Hbad).
      exists ok', bad', s2, (ws1 ++ ws2). split; [done|]. split; [cbn; lia|].
      split; [by eapply wrote_trans|].
      destruct Hws1 as [[-> _] | [-> _]]; cbn [app length].
      * split; [by constructor|lia].
      * split; [by constructor|lia].
    + destruct (IH ok (S bad) s1) as (ok' & bad' & s2 & ws2 & E2 & Hsum & W2 & Hsub & Hok & Hbad).
      exists ok', bad', s2, (ws1 ++ ws2). split; [done|]. split; [cbn; lia|].
      split; [by eapply wrote_trans|].
      destruct Hws1 as [[-> _] | [_ [=]]]; cbn [app length].
      split; [by constructor|lia].
Qed.

(** *** The analysis *)

Lemma analyzeStructure_run s :
  analyzeStructure s
  = Some (match stat (tree s) miraculesSubDir with
          | Ok (_, Dir _) => Ok true
          | Ok (_, _) => Throw ENOTDIR
          | Throw _ =>
              match readdir (tree s) [] with
              | Ok _ => Ok false
              | Throw e => Throw e
              end
          end, s).
Proof.
  cbv beta iota zeta delta [analyzeStructure mbind M_bind existsSync reading tryCatch
    readFileSync readdirSync mret M_ret exists_ readdir].
  destruct (stat (tree s) outsideIndex); destruct (stat (tree s) insideIndex);
    cbv beta iota delta [andb];
    repeat match goal with
           | |- context [readFile ?t ?p] => destruct (readFile t p); cbv beta iota
           end;
    destruct (stat (tree s) miraculesSubDir) as [[? [?|?|?]]|?] eqn:E;
    cbv beta iota; rewrite ?E; try reflexivity;
    destruct (stat (tree s) []) as [[? [?|?|?]]|?]; reflexivity.
Qed.

End RunFacts.

Import RunFacts.

(** X4. Whatever the tree, a run of [execute] that ends has written
    only files that its scan listed (names ending in [.html], no passed
    over name on the way), each at most as often as listed and in that
    order, and has counted each write in [processedFiles]. *)
Theorem X4_execute_writes (fuel : nat) (sep : ascii) (s s' : state) (r : result unit) :
  execute fuel sep s = Some (r, s') ->
  exists ws,
    writes s' = writes s ++ ws /\
    processedFiles s' = processedFiles s + length ws /\
    Forall (listed []) ws.
Proof.
  intros H. unfold execute in H.
  apply bind_inv in H as [(a & s1 & H1 & H2)|(e & H1 & _)].
  2:{ apply still_analyzeStructure in H1 as ->. exists []. split; [by rewrite app_nil_r|].
      split; [cbn; lia|done]. }
  apply still_analyzeStructure in H1 as ->.
  destruct a; cbn [negb] in H2.
  2:{ injection H2 as _ <-. exists []. split; [by rewrite app_nil_r|].
      split; [cbn; lia|done]. }
  apply bind_inv in H2 as [(b & s2 & H2 & H3)|(e & H2 & _)].
  2:{ apply quiet_moveAndFixStructure in H2 as [E1 E2]. exists [].
      rewrite E1, E2, app_nil_r. split; [done|]. split; [cbn; lia|done]. }
  apply quiet_moveAndFixStructure in H2 as [E1 E2].
  destruct b; cbn [negb] in H3.
  2:{ injection H3 as _ <-. exists []. rewrite E1, E2, app_nil_r.
      split; [done|]. split; [cbn; lia|done]. }
  apply bind_inv in H3 as [(files & s3 & H3 & H4)|(e & H3 & _)].
  2:{ unfold PathFixer.htmlFilesOf in H3.
      by destruct (getAllHtmlFiles fuel (tree s2) [] ∅) as [[? ?]|]. }
  unfold PathFixer.htmlFilesOf in H3.
  destruct (getAllHtmlFiles fuel (tree s2) [] ∅) as [[files' v]|] eqn:Hscan; [|done].
  injection H3 as <- <-.
  destruct (forEach_fix_wrote sep [] files' s2) as (s4 & ws & E & [W1 W2] & Hsub).
  rewrite E in H4. injection H4 as _ <-.
  exists ws. rewrite W1, W2, E1, E2. split; [done|]. split; [done|].
  apply getAllHtmlFiles_listed in Hscan.
  rewrite Forall_forall in Hscan. apply Forall_forall. intros f Hf.
  apply Hscan. by eapply elem_of_sublist.
Qed.

Lemma X4_execute_writes_witness :
  let sub := lit "www.miracles-of-quran.com" in
  let s := mkState (Dir [(sub, Dir [(lit "a.html", File (lit "<a href=../b.html>"));
                                    (lit "b.html", File (lit "<p>b</p>"));
                                    (lit "notes.txt", File (lit "../"))])]) [] 0 in
  let s' := mkState (Dir [(lit "a.html", File (lit "<a href=./b.html>"));
                          (lit "b.html", File (lit "<p>b</p>"));
                          (lit "notes.txt", File (lit "../"))]) [[lit "a.html"]] 1 in
  execute 3 "/" s = Some (Ok (), s') /\
  exists ws,
    writes s' = writes s ++ ws /\
    processedFiles s' = processedFiles s + length ws /\
    Forall (listed []) ws.
Proof.
  cbv zeta. split; [vm_compute; reflexivity|].
  apply (X4_execute_writes 3 "/"%char _ _ (Ok ())). vm_compute. reflexivity.
Defined.

(** X5. Without the subdirectory [www.miracles-of-quran.com] the run
    does nothing: [analyzeStructure] and [moveAndFixStructure] return
    false, and [execute] ends with the tree, the write log and the
    counter as they were, whatever the pages hold. *)
Theorem X5_no_subdirectory (fuel : nat) (sep : ascii) (s : state) :
  isDir (tree s) = true ->
  exists_ (tree s) miraculesSubDir = false ->
  analyzeStructure s = Some (Ok false, s) /\
  moveAndFixStructure fuel s = Some (Ok false, s) /\
  execute fuel sep s = Some (Ok (), s).
Proof.
  intros Hroot Hsub.
  assert (Ha : analyzeStructure s = Some (Ok false, s)).
  { rewrite analyzeStructure_run. unfold exists_ in Hsub.
    destruct (stat (tree s) miraculesSubDir) as [?|e]; [done|].
    destruct (tree s) as [c|es|l] eqn:Et; try done. }
  split; [done|]. split.
  - unfold moveAndFixStructure, mbind, M_bind, existsSync, reading. by rewrite Hsub.
  - unfold execute, mbind, M_bind. by rewrite Ha.
Qed.

Lemma X5_no_subdirectory_witness :
  let s := mkState (Dir [(lit "index.html", File (lit "<a href=../a.html>"))]) [] 0 in
  execute 3 "/" s = Some (Ok (), s).
Proof.
  exact (proj2 (proj2 (X5_no_subdirectory 3 "/"%char
    (mkState (Dir [(lit "index.html", File (lit "<a href=../a.html>"))]) [] 0)
    eq_refl eq_refl))).
Defined.

(** X6. When the name [www.miracles-of-quran.com] leads to something
    that is no directory, [analyzeStructure] throws on listing it and
    [execute] ends with that exception before anything is changed. *)
Theorem X6_subdirectory_is_a_file (fuel : nat) (sep : ascii) (s : state) (q : path) (c : node) :
  stat (tree s) miraculesSubDir = Ok (q, c) ->
  isDir c = false ->
  analyzeStructure s = Some (Throw ENOTDIR, s) /\
  execute fuel sep s = Some (Throw ENOTDIR, s).
Proof.
  intros Hstat Hc.
  assert (Ha : analyzeStructure s = Some (Throw ENOTDIR, s)).
  { rewrite analyzeStructure_run, Hstat. by destruct c. }
  split; [done|]. unfold execute, mbind, M_bind. by rewrite Ha.
Qed.

Lemma X6_subdirectory_is_a_file_witness :
  let s := mkState (Dir [(lit "index.html", File []);
                         (lit "www.miracles-of-quran.com", File [])]) [] 0 in
  execute 3 "/" s = Some (Throw ENOTDIR, s).
Proof.
  exact (proj2 (X6_subdirectory_is_a_file 3 "/"%char
    (mkState (Dir [(lit "index.html", File []);
                   (lit "www.miracles-of-quran.com", File [])]) [] 0)
    [lit "www.miracles-of-quran.com"] (File []) eq_refl eq_refl)).
Defined.

(** X7. [runRemoval] on a tree that lists no name twice, with fuel above
    its height: it ends without an exception; its two counters add up
    to the number of files its scan listed; the files written are
    among the listed ones, in that order, each counted in
    [processedFiles], and there are at most [successCount] of them. *)
Theorem X7_runRemoval_counts (fuel : nat) (s : state) :
  wf (tree s) = true -> height (tree s) < fuel ->
  exists files visited successCount errorCount s' ws,
    RemoveFooterSection.getAllHtmlFiles fuel (tree s) [] ∅ = Some (files, visited) /\
    runRemoval fuel s = Some (Ok (successCount, errorCount), s') /\
    successCount + errorCount = length files /\
    writes s' = writes s ++ ws /\
    processedFiles s' = processedFiles s + length ws /\
    ws `sublist_of` files /\
    length ws <= successCount.
Proof.
  intros Hwf Hh.
  destruct (getAllHtmlFiles_total_root (tree s) fuel [] ∅ Hwf Hh) as [[files v] Hscan].
  rewrite <- getAllHtmlFiles_same in Hscan.
  destruct (countOutcomes_wrote files 0 0 s)
    as (ok & bad & s' & ws & E & Hsum & [W1 W2] & Hsub & Hok & _).
  exists files, v, ok, bad, s', ws. split; [done|]. split.
  - unfold runRemoval, mbind, M_bind, RemoveFooterSection.htmlFilesOf. by rewrite Hscan.
  - repeat split; [lia|done|done|done|lia].
Qed.

Lemma X7_runRemoval_counts_witness :
  let s := mkState (Dir [(lit "a.html", File (lit "<section class='cid-tJkSLE66e9'>f</section>"));
                         (lit "b.html", File (lit "<p>b</p>"));
                         (lit "c.html", Link [lit "gone"])]) [] 0 in
  wf (tree s) = true /\ height (tree s) < 2 /\
  exists files visited successCount errorCount s' ws,
    RemoveFooterSection.getAllHtmlFiles 2 (tree s) [] ∅ = Some (files, visited) /\
    runRemoval 2 s = Some (Ok (successCount, errorCount), s') /\
    successCount + errorCount = length files /\
    writes s' = writes s ++ ws /\
    processedFiles s' = processedFiles s + length ws /\
    ws `sublist_of` files /\
    length ws <= successCount.
Proof.
  cbv zeta. split; [reflexivity|]. split; [vm_compute; lia|].
  apply X7_runRemoval_counts; [reflexivity|vm_compute; lia].
Defined.

(** The run of the example: two files processed, one of them rewritten,
    and one link that leads nowhere counted as an error. *)
Example runRemoval_sample :
  runRemoval 2 (mkState (Dir [(lit "a.html", File (lit "<section class='cid-tJkSLE66e9'>f</section>"));
                              (lit "b.html", File (lit "<p>b</p>"));
                              (lit "c.html", Link [lit "gone"])]) [] 0)
  = Some (Ok (2, 1),
          mkState (Dir [(lit "a.html", File []);
                        (lit "b.html", File (lit "<p>b</p>"));
                        (lit "c.html", Link [lit "gone"])]) [[lit "a.html"]] 1).
Proof. vm_compute. reflexivity. Qed.


(** ** The restructuring of a mirrored site *)

Module FlattenFacts.

(** *** Listings *)

Lemma find_app n (l1 l2 : list (name * node)) :
  find n (l1 ++ l2) = match find n l1 with Some c => Some c | None => find n l2 end.
Proof.
  induction l1 as [|[m c] l1 IH]; cbn [app find]; [done|].
  by destruct (nameEqb n m).
Qed.

Lemma find_None n (es : list (name * node)) : find n es = None <-> n ∉ map fst es.
Proof.
  induction es as [|[m c] es IH]; cbn [find map fst].
  - split; [intros _ H; by apply elem_of_nil in H|done].
  - rewrite not_elem_of_cons. destruct (nameEqb n m) eqn:E.
    + apply nameEqb_eq in E as ->. split; [done|]. by intros [? _].
    + rewrite IH. split; [|by intros [_ ?]]. intros H. split; [|done].
      intros ->. by rewrite nameEqb_refl in E.
Qed.

Lemma names_elem n (es : list (name * node)) :
  n ∈ map fst es -> exists c, (n, c) ∈ es.
Proof.
  induction es as [|[m c] es IH]; cbn [map fst]; [by intros H; apply elem_of_nil in H|].
  rewrite elem_of_cons. intros [-> | H].
  - exists c. by left.
  - destruct (IH H) as [c' Hc']. exists c'. by right.
Qed.

Lemma remove_absent n (es : list (name * node)) : find n es = None -> remove n es = es.
Proof.
  induction es as [|[m c] es IH]; cbn [find remove]; [done|].
  destruct (nameEqb n m); [done|]. intros H. by rewrite IH.
Qed.

Lemma remove_app n (l1 l2 : list (name * node)) :
  remove n (l1 ++ l2) = remove n l1 ++ remove n l2.
Proof.
  induction l1 as [|[m c] l1 IH]; cbn [app remove]; [done|].
  destruct (nameEqb n m); [done|]. by rewrite IH.
Qed.

Lemma put_absent n v (es : list (name * node)) :
  find n es = None -> put n v es = es ++ [(n, v)].
Proof.
  induction es as [|[m c] es IH]; cbn [find put app]; [done|].
  destruct (nameEqb n m); [done|]. intros H. by rewrite IH.
Qed.

Lemma mapEntry_app n g (l1 l2 : list (name * node)) :
  is_Some (find n l1) -> mapEntry n g (l1 ++ l2) = mapEntry n g l1 ++ l2.
Proof.
  induction l1 as [|[m c] l1 IH]; cbn [app find mapEntry].
  - by intros [? ?].
  - destruct (nameEqb n m); [done|]. intros H. by rewrite IH.
Qed.

Lemma mapEntry_mapEntry n g g' (l : list (name * node)) :
  mapEntry n g' (mapEntry n g l) = mapEntry n (fun c => g' (g c)) l.
Proof.
  induction l as [|[m c] l IH]; cbn [mapEntry]; [done|].
  destruct (nameEqb n m) eqn:E; cbn [mapEntry]; rewrite E; [done|]. by rewrite IH.
Qed.

Lemma mapEntry_ext n g g' (l : list (name * node)) :
  (forall c, find n l = Some c -> g c = g' c) -> mapEntry n g l = mapEntry n g' l.
Proof.
  induction l as [|[m c] l IH]; cbn [mapEntry find]; [done|].
  destruct (nameEqb n m); intros H; [by rewrite H|]. by rewrite IH.
Qed.

Lemma mapEntry_absent n g (l : list (name * node)) :
  find n l = None -> mapEntry n g l = l.
Proof.
  induction l as [|[m c] l IH]; cbn [mapEntry find]; [done|].
  destruct (nameEqb n m); [done|]. intros H. by rewrite IH.
Qed.

Lemma mapEntry_comm a b f g (l : list (name * node)) :
  a <> b -> mapEntry a f (mapEntry b g l) = mapEntry b g (mapEntry a f l).
Proof.
  intros Hab. induction l as [|[m c] l IH]; cbn [mapEntry]; [done|].
  destruct (nameEqb b m) eqn:Eb; destruct (nameEqb a m) eqn:Ea; cbn [mapEntry];
    rewrite ?Ea, ?Eb; try done.
  - apply nameEqb_eq in Ea, Eb. congruence.
  - by rewrite IH.
Qed.

Lemma remove_mapEntry n g (l : list (name * node)) :
  remove n (mapEntry n g l) = remove n l.
Proof.
  induction l as [|[m c] l IH]; cbn [mapEntry remove]; [done|].
  destruct (nameEqb n m) eqn:E; cbn [remove]; rewrite E; [done|]. by rewrite IH.
Qed.

Lemma names_remove n m (es : list (name * node)) :
  m ∈ map fst (remove n es) -> m ∈ map fst es /\ m <> n.
Proof.
  induction es as [|[k c] es IH]; cbn [remove map fst]; [by intros H; apply elem_of_nil in H|].
  destruct (nameEqb n k) eqn:E.
  - intros H. destruct (IH H) as [H1 H2]. split; [by right|done].
  - cbn [map fst]. rewrite !elem_of_cons. intros [-> | H].
    + split; [by left|]. intros ->. by rewrite nameEqb_refl in E.
    + destruct (IH H) as [H1 H2]. split; [by right|done].
Qed.

Lemma NoDup_remove n (es : list (name * node)) :
  NoDup (map fst es) -> NoDup (map fst (remove n es)).
Proof.
  induction es as [|[k c] es IH]; cbn [remove map fst]; [done|].
  intros H. apply NoDup_cons in H as [Hk H].
  destruct (nameEqb n k); [by apply IH|]. cbn [map fst].
  apply NoDup_cons. split; [|by apply IH].
  intros Hin. apply names_remove in Hin as [Hin _]. done.
Qed.

(** *** One entry moved up *)

Lemma rename_grandchild_up es n ses a v :
  find n es = Some (Dir ses) -> find a ses = Some v ->
  find a es = None ->
  rename (Dir es) [n; a] [a]
  = Ok (Dir (put a v (mapEntry n (alter (remove a) []) es))).
Proof.
  intros Hn Ha Hfree. unfold rename.
  rewrite (lstat_grandchild es n ses a v) by done.
  cbn [unsnoc]. rewrite stat_root. simpl app.
  rewrite bool_decide_eq_false_2 by (intros [= ?]; done).
  rewrite bool_decide_eq_false_2 by done.
  assert (Hna : nameEqb n a = false).
  { apply nameEqb_ne. intros ->. by rewrite Hn in Hfree. }
  cbn [prefixb]. rewrite Hna, andb_false_r. cbv iota. rewrite Hfree.
  unfold putAt, removeAt. cbn [unsnoc].
  by rewrite alter_cons, alter_nil.
Qed.

Lemma rmdir_child es n :
  find n es = Some (Dir []) -> rmdir (Dir es) [n] = Ok (Dir (remove n es)).
Proof.
  intros H. unfold rmdir. rewrite (lstat_child es n (Dir [])) by done.
  unfold removeAt. cbn [unsnoc]. by rewrite alter_nil.
Qed.

Lemma mapEntry_same n g (l : list (name * node)) c :
  find n l = Some c -> g c = c -> mapEntry n g l = l.
Proof.
  induction l as [|[m d] l IH]; cbn [mapEntry find]; [done|].
  destruct (nameEqb n m).
  - intros [= ->] ->. done.
  - intros H1 H2. by rewrite IH.
Qed.

Lemma readdir_child es n ses :
  find n es = Some (Dir ses) -> readdir (Dir es) [n] = Ok ses.
Proof. intros H. unfold readdir. by rewrite (stat_child es n (Dir ses)). Qed.

Lemma innerIndex_cons n v rest :
  innerIndex ((n, v) :: rest)
  = if nameEqb n (lit "index.html") then (n, v) :: innerIndex rest else innerIndex rest.
Proof. reflexivity. Qed.

Lemma pages_cons n v rest :
  pages ((n, v) :: rest)
  = if nameEqb n (lit "index.html") then pages rest else (n, v) :: pages rest.
Proof.
  unfold pages. cbn [List.filter]. unfold isIndex at 1. cbn [fst].
  by destruct (nameEqb n (lit "index.html")).
Qed.

(** *** Steps of a computation *)

Lemma bind_ok {A B} (m : M A) (f : A -> M B) s a s1 :
  m s = Some (Ok a, s1) -> (m ≫= f) s = f a s1.
Proof. intros H. unfold mbind, M_bind. by rewrite H. Qed.

Lemma tryCatch_ok {A} (m : M A) h s a s1 :
  m s = Some (Ok a, s1) -> tryCatch m h s = Some (Ok a, s1).
Proof. intros H. unfold tryCatch. by rewrite H. Qed.

Lemma readdirSync_ok p s es :
  readdir (tree s) p = Ok es -> readdirSync p s = Some (Ok (map fst es), s).
Proof. intros H. unfold readdirSync, reading. by rewrite H. Qed.

Lemma readFileSync_ok p s c :
  readFile (tree s) p = Ok c -> readFileSync p s = Some (Ok c, s).
Proof. intros H. unfold readFileSync, reading. by rewrite H. Qed.

Lemma readFile_child es n c : find n es = Some (File c) -> readFile (Dir es) [n] = Ok c.
Proof. intros H. unfold readFile. by rewrite (stat_child es n (File c)). Qed.

Lemma readFile_grandchild es n ses m c :
  find n es = Some (Dir ses) -> find m ses = Some (File c) ->
  readFile (Dir es) [n; m] = Ok c.
Proof. intros H1 H2. unfold readFile. by rewrite (stat_grandchild es n ses m (File c)). Qed.

Lemma existsSync_run p s : existsSync p s = Some (Ok (exists_ (tree s) p), s).
Proof. reflexivity. Qed.

Lemma existsSync_ok p s b :
  exists_ (tree s) p = b -> existsSync p s = Some (Ok b, s).
Proof. by intros <-. Qed.

Lemma changing_ok f s t :
  f (tree s) = Ok t -> changing f s = Some (Ok (), mkState t (writes s) (processedFiles s)).
Proof. intros H. unfold changing. by rewrite H. Qed.

(** *** The loop of [moveAndFixStructure] over free names *)

Section Loop.

Variables (fuel : nat) (es : list (name * node)).

Let sub : name := lit "www.miracles-of-quran.com".
Let index : name := lit "index.html".

Hypothesis Hsub : is_Some (find sub es).

Lemma find_sub_root g rest :
  find sub (mapEntry sub g es ++ rest) = g <$> find sub es.
Proof.
  rewrite find_app, find_mapEntry_eq. destruct Hsub as [c ->]. done.
Qed.

Lemma find_free_root g rest n :
  find n es = None -> find n rest = None ->
  find n (mapEntry sub g es ++ rest) = None.
Proof.
  intros H1 H2. rewrite find_app, find_mapEntry_ne, H1; [done|].
  intros <-. destruct Hsub as [c Hc]. congruence.
Qed.

Lemma moveItem_free kept rest movedD n v s :
  tree s = Dir (mapEntry sub (fun _ => Dir (kept ++ (n, v) :: rest)) es ++ movedD) ->
  n <> index -> find n es = None -> find n movedD = None ->
  find n kept = None -> find n rest = None ->
  moveItem fuel n s
  = Some (Ok (), mkState
      (Dir (mapEntry sub (fun _ => Dir (kept ++ rest)) es ++ movedD ++ [(n, v)]))
      (writes s) (processedFiles s)).
Proof.
  intros Hs Hn Hes Hmoved Hkept Hrest.
  unfold moveItem. fold index. rewrite (nameEqb_ne n index Hn).
  unfold tryCatch, mbind, M_bind, existsSync, reading, renameSync, changing, exists_.
  rewrite Hs. rewrite stat_child_missing by by apply find_free_root.
  fold sub. unfold miraculesSubDir. fold sub. cbn [app]. rewrite Hs.
  rewrite (rename_grandchild_up _ sub (kept ++ (n, v) :: rest) n v).
  - do 3 f_equal. rewrite mapEntry_app.
    2:{ rewrite find_mapEntry_eq. destruct Hsub as [c ->]. by eexists. }
    rewrite mapEntry_mapEntry. rewrite put_absent.
    + rewrite <- app_assoc. do 2 f_equal. apply mapEntry_ext. intros c _.
      rewrite alter_nil, remove_app, (remove_absent n kept Hkept).
      cbn [remove]. by rewrite nameEqb_refl, (remove_absent n rest Hrest).
    + rewrite find_app, find_mapEntry_ne, Hes, Hmoved; [done|].
      intros <-. destruct Hsub as [c Hc]. congruence.
  - rewrite find_sub_root. by destruct Hsub as [c ->].
  - rewrite find_app, Hkept. cbn [find]. by rewrite nameEqb_refl.
  - by apply find_free_root.
Qed.

Lemma moveLoop rest : forall kept movedD s,
  tree s = Dir (mapEntry sub (fun _ => Dir (kept ++ rest)) es ++ movedD) ->
  NoDup (map fst (kept ++ rest)) ->
  Forall (fun e => e.1 = index) kept ->
  (forall n, n ∈ map fst rest -> n <> index ->
     find n es = None /\ find n movedD = None) ->
  forEach (map fst rest) (moveItem fuel) s
  = Some (Ok (), mkState
      (Dir (mapEntry sub (fun _ => Dir (kept ++ innerIndex rest)) es
            ++ movedD ++ pages rest))
      (writes s) (processedFiles s)).
Proof.
  induction rest as [|[n v] rest IH]; intros kept movedD s Hs Hnd Hkept Hfree.
  - cbn [map forEach innerIndex pages List.filter]. rewrite !app_nil_r.
    rewrite app_nil_r in Hs. destruct s as [t w p]. cbn [tree] in Hs.
    rewrite Hs. reflexivity.
  - cbn [map fst forEach]. unfold mbind, M_bind.
    assert (Hnd' : NoDup (map fst (kept ++ rest))).
    { rewrite map_app in *. apply NoDup_app in Hnd as (H1 & H2 & H3).
      cbn [map fst] in H2, H3. apply NoDup_cons in H3 as [_ H3].
      apply NoDup_app. split; [done|]. split; [|done].
      intros x Hx Hx'. apply (H2 x Hx). by right. }
    assert (Hnrest : find n rest = None).
    { apply find_None. rewrite map_app in Hnd. apply NoDup_app in Hnd as (_ & _ & H3).
      cbn [map fst] in H3. by apply NoDup_cons in H3 as [H3 _]. }
    destruct (nameEqb n index) eqn:E.
    + apply nameEqb_eq in E as ->.
      unfold moveItem at 1. fold index. rewrite nameEqb_refl.
      unfold mret at 1, M_ret at 1. cbv iota beta.
      rewrite (IH (kept ++ [(index, v)]) movedD s).
      * rewrite innerIndex_cons, pages_cons. fold index.
        rewrite nameEqb_refl. by rewrite <- app_assoc.
      * by rewrite <- app_assoc.
      * by rewrite <- app_assoc.
      * apply Forall_app. split; [done|]. by constructor.
      * intros m Hm Hmi. apply Hfree; [by right|done].
    + assert (Hni : n <> index) by (intros ->; by rewrite nameEqb_refl in E).
      destruct (Hfree n) as [Hes Hmoved]; [by left|done|].
      assert (Hnkept : find n kept = None).
      { apply find_None. intros Hin. apply names_elem in Hin as [c Hin].
        rewrite Forall_forall in Hkept. by apply Hkept in Hin. }
      rewrite (moveItem_free kept rest movedD n v s Hs Hni Hes Hmoved Hnkept Hnrest).
      rewrite (IH kept (movedD ++ [(n, v)])); cbn [tree writes processedFiles].
      * rewrite innerIndex_cons, pages_cons. fold index. rewrite E.
        by rewrite <- !app_assoc.
      * done.
      * done.
      * done.
      * intros m Hm Hmi. destruct (Hfree m) as [H1 H2]; [by right|done|].
        split; [done|]. rewrite find_app, H2. cbn [find].
        rewrite nameEqb_ne; [done|]. intros ->.
        apply find_None in Hnrest. done.
Qed.

Lemma moveEntries_free s ses :
  tree s = Dir es -> find sub es = Some (Dir ses) ->
  NoDup (map fst ses) ->
  (forall n, n ∈ map fst ses -> n <> index -> find n es = None) ->
  moveEntries fuel s
  = Some (Ok true, mkState
      (match innerIndex ses with
       | [] => Dir (remove sub es ++ pages ses)
       | _ :: _ => Dir (mapEntry sub (fun _ => Dir (innerIndex ses)) es ++ pages ses)
       end)
      (writes s) (processedFiles s)).
Proof.
  intros Hs Hses Hnd Hfree. unfold moveEntries.
  rewrite (bind_ok _ _ s (map fst ses) s).
  2:{ apply readdirSync_ok. rewrite Hs. by apply readdir_child. }
  erewrite bind_ok.
  2:{ apply (moveLoop ses [] [] s); [|done|done|].
      - cbn [app]. rewrite app_nil_r, Hs. f_equal. symmetry.
        by apply (mapEntry_same sub _ es (Dir ses)).
      - intros n Hn Hni. split; [by apply Hfree|done]. }
  cbn [app].
  set (s1 := mkState _ _ _).
  assert (Hdir : readdir (tree s1) miraculesSubDir = Ok (innerIndex ses)).
  { unfold s1. cbn [tree]. apply readdir_child. by rewrite find_sub_root, Hses. }
  destruct (innerIndex ses) as [|e K] eqn:EK.
  - erewrite bind_ok; [reflexivity|].
    apply tryCatch_ok. erewrite bind_ok; [|by apply readdirSync_ok].
    cbn [map length]. rewrite bool_decide_eq_true_2 by done.
    unfold rmdirSync. rewrite (changing_ok _ s1 (Dir (remove sub es ++ pages ses))); [done|].
    unfold s1. cbn [tree]. unfold miraculesSubDir. fold sub. rewrite rmdir_child.
    2:{ by rewrite find_sub_root, Hses. }
    f_equal. f_equal.
    rewrite remove_app, remove_mapEntry. f_equal.
    apply remove_absent, find_None. intros Hin.
    apply names_elem in Hin as [c Hin].
    unfold pages in Hin. apply list_elem_of_In, filter_In in Hin as [Hin Hni].
    apply list_elem_of_In in Hin.
    assert (Hsi : sub <> index) by done.
    rewrite (Hfree sub) in Hses; [done| |done].
    by apply (elem_names sub c).
  - erewrite bind_ok; [reflexivity|].
    apply tryCatch_ok. erewrite bind_ok; [|by apply readdirSync_ok].
    cbn [map length]. rewrite bool_decide_eq_false_2 by done. done.
Qed.

End Loop.

Lemma innerIndex_remove ses : innerIndex (remove (lit "index.html") ses) = [].
Proof.
  induction ses as [|[n v] ses IH]; cbn [remove]; [done|].
  destruct (nameEqb (lit "index.html") n) eqn:E; [done|].
  rewrite innerIndex_cons, IH.
  destruct (nameEqb n (lit "index.html")) eqn:E'; [|done].
  apply nameEqb_eq in E' as ->. by rewrite nameEqb_refl in E.
Qed.

Lemma pages_remove ses : pages (remove (lit "index.html") ses) = pages ses.
Proof.
  induction ses as [|[n v] ses IH]; cbn [remove]; [done|].
  rewrite pages_cons.
  destruct (nameEqb (lit "index.html") n) eqn:E.
  - apply nameEqb_eq in E as <-. by rewrite nameEqb_refl.
  - rewrite pages_cons, IH. done.
Qed.

Lemma pages_all ses : innerIndex ses = [] -> pages ses = ses.
Proof.
  induction ses as [|[n v] ses IH]; [done|].
  rewrite innerIndex_cons, pages_cons.
  destruct (nameEqb n (lit "index.html")); [done|]. intros H. by rewrite IH.
Qed.

Lemma exists_child es n c : find n es = Some c -> notLink c -> exists_ (Dir es) [n] = true.
Proof. intros H1 H2. unfold exists_. by rewrite (stat_child es n c). Qed.

Lemma exists_grandchild_missing es n ses m :
  find n es = Some (Dir ses) -> find m ses = None -> exists_ (Dir es) [n; m] = false.
Proof.
  intros H1 H2. unfold exists_, stat. rewrite (resolve_lost _ _ _ ENOENT); [done|].
  cbn. by rewrite H1, H2.
Qed.

Lemma exists_grandchild es n ses m c :
  find n es = Some (Dir ses) -> find m ses = Some c -> notLink c ->
  exists_ (Dir es) [n; m] = true.
Proof. intros H1 H2 H3. unfold exists_. by rewrite (stat_grandchild es n ses m c). Qed.

Lemma exists_child_missing es n : find n es = None -> exists_ (Dir es) [n] = false.
Proof. intros H. unfold exists_. by rewrite stat_child_missing. Qed.

End FlattenFacts.

Import FlattenFacts.

(** X8. [moveAndFixStructure] on a site without a conflict of index
    files, where no name of the subdirectory is taken at the root:
    every entry of the subdirectory other than [index.html] moves to
    the end of the root listing, in listing order.  The subdirectory is
    removed when it is empty then; an [index.html] in it is passed over
    by the loop, so that it stays where it is and the subdirectory with
    it. *)
Theorem X8_flatten_free (fuel : nat) (s : state) (es ses : list (name * node)) :
  let sub := lit "www.miracles-of-quran.com" in
  tree s = Dir es ->
  find sub es = Some (Dir ses) ->
  find (lit "index.html") es = None \/ find (lit "index.html") ses = None ->
  NoDup (map fst ses) ->
  (forall n, n ∈ map fst ses -> n <> lit "index.html" -> find n es = None) ->
  moveAndFixStructure fuel s
  = Some (Ok true, mkState
      (match innerIndex ses with
       | [] => Dir (remove sub es ++ pages ses)
       | _ :: _ => Dir (mapEntry sub (fun _ => Dir (innerIndex ses)) es ++ pages ses)
       end)
      (writes s) (processedFiles s)).
Proof.
  intros sub Hs Hsub Hidx Hnd Hfree. subst sub. unfold moveAndFixStructure.
  rewrite (bind_ok _ _ s true s).
  2:{ apply existsSync_ok. rewrite Hs. by apply (exists_child es _ (Dir ses)). }
  cbn [negb].
  rewrite (bind_ok _ _ s _ s (existsSync_run _ s)).
  rewrite (bind_ok _ _ s _ s (existsSync_run _ s)).
  assert (Hno : exists_ (tree s) outsideIndex && exists_ (tree s) insideIndex = false).
  { rewrite Hs. destruct Hidx as [H|H].
    - unfold outsideIndex. by rewrite exists_child_missing.
    - unfold insideIndex, miraculesSubDir. cbn [app].
      rewrite (exists_grandchild_missing es _ ses); [|done|done].
      apply andb_false_r. }
  rewrite Hno. rewrite (bind_ok _ _ s () s eq_refl).
  apply moveEntries_free; [by eexists|done..].
Qed.

Lemma X8_flatten_free_witness :
  let sub := lit "www.miracles-of-quran.com" in
  let s := mkState (Dir [(lit "readme.txt", File (lit "r"));
                         (sub, Dir [(lit "css", Dir [(lit "site.css", File (lit "c"))]);
                                    (lit "index.html", File (lit "home"));
                                    (lit "a.html", File (lit "a"))])]) [] 0 in
  moveAndFixStructure 1 s
  = Some (Ok true, mkState
      (Dir [(lit "readme.txt", File (lit "r"));
            (sub, Dir [(lit "index.html", File (lit "home"))]);
            (lit "css", Dir [(lit "site.css", File (lit "c"))]);
            (lit "a.html", File (lit "a"))]) [] 0).
Proof.
  cbv zeta.
  pose (ses := [(lit "css", Dir [(lit "site.css", File (lit "c"))]);
                (lit "index.html", File (lit "home"));
                (lit "a.html", File (lit "a"))]).
  pose (es := [(lit "readme.txt", File (lit "r"));
               (lit "www.miracles-of-quran.com", Dir ses)]).
  refine (X8_flatten_free 1 (mkState (Dir es) [] 0) es ses
            eq_refl eq_refl (or_introl eq_refl) _ _).
  - vm_compute. repeat constructor; rewrite ?elem_of_cons; intros H;
      repeat (destruct H as [H|H]; [discriminate H|]); by apply elem_of_nil in H.
  - apply (proj1 (Forall_forall
      (fun n : name => n <> lit "index.html" -> find n es = None) (map fst ses))).
    repeat constructor; done.
Defined.

(** X9. [moveAndFixStructure] on the layout the mirroring tool leaves:
    an index file at the root and one in the subdirectory, every other
    name of the subdirectory and the backup name free.  The outer index
    is kept under the backup name, the inner one becomes the index of
    the root, every other entry of the subdirectory follows in listing
    order, and the subdirectory is removed; no file is written. *)
Theorem X9_flatten_site (fuel : nat) (s : state) (es ses : list (name * node))
    (outsideContent insideContent : str) :
  let sub := lit "www.miracles-of-quran.com" in
  let index := lit "index.html" in
  let backup := backupName outsideContent in
  tree s = Dir es ->
  find index es = Some (File outsideContent) ->
  find sub es = Some (Dir ses) ->
  find index ses = Some (File insideContent) ->
  NoDup (map fst ses) ->
  (forall n, n ∈ map fst ses -> n <> index -> find n es = None) ->
  find backup es = None ->
  backup ∉ map fst ses ->
  moveAndFixStructure fuel s
  = Some (Ok true, mkState
      (Dir (remove sub (remove index es)
            ++ (backup, File outsideContent) :: (index, File insideContent) :: pages ses))
      (writes s) (processedFiles s)).
Proof.
  intros sub index backup Hs Hout Hsub Hin Hnd Hfree Hbackup Hbses.
  subst sub index.
  set (sub := lit "www.miracles-of-quran.com") in *.
  set (index := lit "index.html") in *.
  assert (Hbi : backup <> index).
  { unfold backup, backupName. by destruct (looksLikeHTTrack outsideContent). }
  assert (Hbs : backup <> sub).
  { unfold backup, backupName. by destruct (looksLikeHTTrack outsideContent). }
  assert (Hsi : sub <> index) by done.
  set (es1 := put backup (File outsideContent) (remove index es)).
  set (es2 := put index (File insideContent) (mapEntry sub (alter (remove index) []) es1)).
  assert (Hsub1 : find sub es1 = Some (Dir ses)).
  { unfold es1. rewrite find_put_ne by done. by rewrite find_remove_ne. }
  assert (Hidx1 : find index es1 = None).
  { unfold es1. rewrite find_put_ne by done. apply find_remove_eq. }
  assert (Hconflict : resolveIndexConflict s
            = Some (Ok (), mkState (Dir es2) (writes s) (processedFiles s))).
  { unfold resolveIndexConflict.
    rewrite (bind_ok _ _ s outsideContent s).
    2:{ apply readFileSync_ok. rewrite Hs. by apply readFile_child. }
    rewrite (bind_ok _ _ s insideContent s).
    2:{ apply readFileSync_ok. rewrite Hs. by apply (readFile_grandchild es sub ses). }
    assert (Hstep : forall b : name, b = backup ->
      (renameSync outsideIndex [b] ≫= fun _ => renameSync insideIndex outsideIndex) s
      = Some (Ok (), mkState (Dir es2) (writes s) (processedFiles s))).
    { intros b ->. unfold renameSync.
      erewrite bind_ok.
      2:{ apply changing_ok. rewrite Hs. unfold outsideIndex. fold index.
          apply (rename_child_file es index backup outsideContent); [done| |].
          - intros E. by apply Hbi.
          - intros es'. by rewrite Hbackup. }
      erewrite changing_ok; [reflexivity|].
      cbn [tree]. unfold insideIndex, outsideIndex, miraculesSubDir.
      cbn [app]. fold sub index es1.
      by apply (rename_grandchild_up es1 sub ses index (File insideContent)). }
    unfold backup, backupName in Hstep.
    destruct (looksLikeHTTrack outsideContent); by apply Hstep. }
  unfold moveAndFixStructure.
  rewrite (bind_ok _ _ s true s).
  2:{ apply existsSync_ok. rewrite Hs. by apply (exists_child es sub (Dir ses)). }
  cbn [negb].
  rewrite (bind_ok _ _ s true s).
  2:{ apply existsSync_ok. rewrite Hs.
      by apply (exists_child es index (File outsideContent)). }
  rewrite (bind_ok _ _ s true s).
  2:{ apply existsSync_ok. rewrite Hs.
      by apply (exists_grandchild es sub ses index (File insideContent)). }
  cbn [andb]. rewrite (bind_ok _ _ s () _ Hconflict).
  assert (Hsub2 : find sub es2 = Some (Dir (remove index ses))).
  { unfold es2. rewrite find_put_ne by done. rewrite find_mapEntry_eq, Hsub1.
    reflexivity. }
  rewrite (moveEntries_free fuel es2 (ltac:(by eexists)) _ (remove index ses));
    cbn [tree writes processedFiles]; [|done|done|by apply NoDup_remove|].
  - rewrite innerIndex_remove, pages_remove. do 3 f_equal.
    unfold es2. rewrite put_absent.
    2:{ rewrite find_mapEntry_ne by done. done. }
    rewrite remove_app, remove_mapEntry. cbn [remove].
    match goal with
    | |- context [nameEqb ?a index] => rewrite (nameEqb_ne a index) by done
    end.
    unfold es1. rewrite put_absent.
    2:{ rewrite find_remove_ne; [done|]. intros E. by apply Hbi. }
    rewrite remove_app. cbn [remove].
    match goal with
    | |- context [nameEqb ?a backup] =>
        rewrite (nameEqb_ne a backup) by (intros E; by apply Hbs)
    end.
    by rewrite <- !app_assoc.
  - intros n Hn Hni. apply names_remove in Hn as [Hn _].
    assert (Hnes : find n es = None) by by apply Hfree.
    assert (Hns : n <> sub) by (intros ->; congruence).
    assert (Hnb : n <> backup) by (intros ->; done).
    unfold es2. rewrite find_put_ne by done.
    rewrite find_mapEntry_ne by done.
    unfold es1. rewrite find_put_ne by done.
    rewrite find_remove_ne by done. done.
Qed.

Lemma X9_flatten_site_witness :
  let sub := lit "www.miracles-of-quran.com" in
  let outer := lit "<title>Local index - HTTrack Website Copier</title>" in
  let s := mkState (Dir [(lit "index.html", File outer);
                         (lit "hts-log.txt", File (lit "log"));
                         (sub, Dir [(lit "index.html", File (lit "home"));
                                    (lit "a.html", File (lit "a"));
                                    (lit "css", Dir [])])]) [] 0 in
  moveAndFixStructure 1 s
  = Some (Ok true, mkState
      (Dir [(lit "hts-log.txt", File (lit "log"));
            (lit "httrack-index.html", File outer);
            (lit "index.html", File (lit "home"));
            (lit "a.html", File (lit "a"));
            (lit "css", Dir [])]) [] 0).
Proof.
  cbv zeta.
  pose (ses := [(lit "index.html", File (lit "home"));
                (lit "a.html", File (lit "a"));
                (lit "css", Dir [])]).
  pose (es := [(lit "index.html",
                File (lit "<title>Local index - HTTrack Website Copier</title>"));
               (lit "hts-log.txt", File (lit "log"));
               (lit "www.miracles-of-quran.com", Dir ses)]).
  refine (X9_flatten_site 1 (mkState (Dir es) [] 0) es ses
            (lit "<title>Local index - HTTrack Website Copier</title>") (lit "home")
            eq_refl eq_refl eq_refl eq_refl _ _ eq_refl _).
  - vm_compute. repeat constructor; rewrite ?elem_of_cons; intros H;
      repeat (destruct H as [H|H]; [discriminate H|]); by apply elem_of_nil in H.
  - apply (proj1 (Forall_forall
      (fun n : name => n <> lit "index.html" -> find n es = None) (map fst ses))).
    repeat constructor; done.
  - apply (bool_decide_unpack _). by vm_compute.
Defined.

(** ** The merge of two directories of files *)

Module MergeFacts.

Lemma find_merged n dst src :
  NoDup (map fst src) ->
  find n (merged dst src)
  = match find n src with Some v => Some v | None => find n dst end.
Proof.
  unfold merged. revert dst. induction src as [|[m v] src IH]; intros dst Hnd; [done|].
  cbn [foldl fst find map] in *. apply NoDup_cons in Hnd as [Hm Hnd].
  rewrite (IH _ Hnd). destruct (nameEqb n m) eqn:E.
  - apply nameEqb_eq in E as ->.
    apply find_None in Hm. rewrite Hm.
    rewrite find_app, find_remove_eq. cbn [find]. by rewrite nameEqb_refl.
  - assert (Hne : m <> n) by (intros ->; by rewrite nameEqb_refl in E).
    destruct (find n src); [done|].
    rewrite find_app, find_remove_ne by done. cbn [find]. rewrite E.
    by destruct (find n dst).
Qed.

Lemma unlink_grandchild_file es b D n c :
  find b es = Some (Dir D) -> find n D = Some (File c) ->
  unlink (Dir es) [b; n] = Ok (Dir (mapEntry b (alter (remove n) []) es)).
Proof.
  intros Hb Hn. unfold unlink. rewrite (lstat_grandchild es b D n (File c)) by done.
  unfold removeAt. cbn [unsnoc]. by rewrite alter_cons.
Qed.

Lemma rename_grandchild_across es a b S D n v :
  a <> b ->
  find a es = Some (Dir S) -> find n S = Some v -> isDir v = false ->
  find b es = Some (Dir D) -> find n D = None ->
  rename (Dir es) [a; n] [b; n]
  = Ok (Dir (mapEntry b (alter (put n v) []) (mapEntry a (alter (remove n) []) es))).
Proof.
  intros Hab Ha Hn Hv Hb Hfree. unfold rename.
  rewrite (lstat_grandchild es a S n v) by done.
  cbn [unsnoc]. rewrite (stat_child es b (Dir D)) by done. simpl app.
  rewrite bool_decide_eq_false_2 by (intros [= ?]; done).
  rewrite bool_decide_eq_false_2 by done.
  rewrite Hv. cbn [andb]. rewrite Hfree.
  unfold putAt, removeAt. cbn [unsnoc].
  by rewrite !alter_cons.
Qed.

Lemma statIsDirectory_grandchild es a S n c :
  find a es = Some (Dir S) -> find n S = Some (File c) ->
  statIsDirectory (Dir es) [a; n] = Ok false.
Proof.
  intros Ha Hn. unfold statIsDirectory.
  by rewrite (stat_grandchild es a S n (File c)).
Qed.

Section Merge.

Variables (es : list (name * node)) (a b : name).

Hypothesis Hab : a <> b.
Hypothesis Ha : is_Some (find a es).
Hypothesis Hb : is_Some (find b es).

(** The root listing with [S] as the listing of [a] and [D] as the one
    of [b]. *)
Lemma find_a S D :
  find a (mapEntry a (fun _ => Dir S) (mapEntry b (fun _ => Dir D) es)) = Some (Dir S).
Proof.
  rewrite find_mapEntry_eq, find_mapEntry_ne by done. by destruct Ha as [c ->].
Qed.

Lemma find_b S D :
  find b (mapEntry a (fun _ => Dir S) (mapEntry b (fun _ => Dir D) es)) = Some (Dir D).
Proof.
  rewrite find_mapEntry_ne, find_mapEntry_eq by done. by destruct Hb as [c ->].
Qed.

Lemma update_both S D g h S' D' :
  g (Dir S) = Dir S' -> h (Dir D) = Dir D' ->
  mapEntry b h (mapEntry a g
    (mapEntry a (fun _ => Dir S) (mapEntry b (fun _ => Dir D) es)))
  = mapEntry a (fun _ => Dir S') (mapEntry b (fun _ => Dir D') es).
Proof.
  intros Hg Hh. rewrite mapEntry_mapEntry.
  rewrite (mapEntry_comm b a) by (intros E; by apply Hab).
  rewrite mapEntry_mapEntry. by rewrite Hg, Hh.
Qed.

Local Abbreviation both S D :=
  (Dir (mapEntry a (fun _ => Dir S) (mapEntry b (fun _ => Dir D) es))).

Lemma mergeDirectories_files fuel s src dst :
  tree s = Dir es ->
  find a es = Some (Dir src) -> find b es = Some (Dir dst) ->
  filesOnly src -> NoDup (map fst src) ->
  (forall n, n ∈ map fst src ->
     find n dst = None \/ exists c, find n dst = Some (File c)) ->
  mergeDirectories (S fuel) [a] [b] s
  = Some (Ok (), mkState
      (Dir (remove a (mapEntry b (fun _ => Dir (merged dst src)) es)))
      (writes s) (processedFiles s)).
Proof.
  intros Hs Hsrc Hdst Hfiles Hnd Hcoll. cbn [mergeDirectories].
  rewrite (bind_ok _ _ s (map fst src) s).
  2:{ apply readdirSync_ok. rewrite Hs. by apply readdir_child. }
  match goal with |- context [forEach _ ?f] => set (body := f) end.
  assert (Hstep : forall S0 D n c s0,
    tree s0 = both ((n, File c) :: S0) D ->
    find n S0 = None ->
    (find n D = None \/ exists c', find n D = Some (File c')) ->
    body n s0 = Some (Ok (), mkState (both S0 (remove n D ++ [(n, File c)]))
                               (writes s0) (processedFiles s0))).
  { intros S0 D n c s0 Hs0 HnS HnD. subst body. cbv beta. cbn [app].
    assert (Hfa := find_a ((n, File c) :: S0) D).
    assert (Hfb := find_b ((n, File c) :: S0) D).
    assert (Hfn : find n ((n, File c) :: S0) = Some (File c)).
    { cbn [find]. by rewrite nameEqb_refl. }
    destruct HnD as [Hnone | [c' Hsome]].
    - rewrite (bind_ok _ _ s0 false s0).
      2:{ apply existsSync_ok. rewrite Hs0.
          by apply (exists_grandchild_missing _ b D). }
      unfold renameSync. erewrite changing_ok; [reflexivity|]. rewrite Hs0.
      rewrite (rename_grandchild_across _ a b ((n, File c) :: S0) D n (File c));
        [|done..].
      do 2 f_equal. apply update_both.
      + rewrite alter_nil. cbn [remove]. by rewrite nameEqb_refl, remove_absent.
      + rewrite alter_nil, put_absent by done. by rewrite remove_absent.
    - rewrite (bind_ok _ _ s0 true s0).
      2:{ apply existsSync_ok. rewrite Hs0.
          by apply (exists_grandchild _ b D n (File c')). }
      rewrite (bind_ok _ _ s0 false s0).
      2:{ unfold statSyncIsDirectory, reading. rewrite Hs0.
          by rewrite (statIsDirectory_grandchild _ a ((n, File c) :: S0) n c). }
      rewrite (bind_ok _ _ s0 false s0 eq_refl).
      unfold unlinkSync. erewrite bind_ok.
      2:{ apply changing_ok. rewrite Hs0.
          by apply (unlink_grandchild_file _ b D n c'). }
      unfold renameSync. erewrite changing_ok; [reflexivity|]. cbn [tree].
      rewrite (mapEntry_comm b a) by (intros E; by apply Hab).
      rewrite mapEntry_mapEntry.
      rewrite (rename_grandchild_across _ a b ((n, File c) :: S0)
                 (remove n D) n (File c)); [|done| | |done| |].
      + do 2 f_equal. rewrite mapEntry_mapEntry, (mapEntry_comm b a) by (intros E; by apply Hab).
        rewrite mapEntry_mapEntry. cbv beta. rewrite !alter_nil. cbn [remove].
        rewrite nameEqb_refl, (remove_absent n S0 HnS).
        by rewrite (put_absent n (File c) (remove n D)) by apply find_remove_eq.
      + rewrite find_mapEntry_eq, find_mapEntry_ne by done. by destruct Ha as [x ->].
      + done.
      + rewrite find_mapEntry_ne, find_mapEntry_eq by done.
        destruct Hb as [x ->]. reflexivity.
      + apply find_remove_eq. }
  assert (Hloop : forall rest D s0,
    tree s0 = both rest D ->
    filesOnly rest -> NoDup (map fst rest) ->
    (forall n, n ∈ map fst rest ->
       find n D = None \/ exists c, find n D = Some (File c)) ->
    forEach (map fst rest) body s0
    = Some (Ok (), mkState (both [] (merged D rest)) (writes s0) (processedFiles s0))).
  { clearbody body. induction rest as [|[n v] rest IH]; intros D s0 Hs0 Hf Hn Hc.
    - cbn [map forEach merged foldl]. destruct s0 as [t w p]. cbn [tree] in Hs0.
      by rewrite Hs0.
    - apply Forall_cons in Hf as [[c Hv] Hf]. cbn [snd] in Hv. subst v.
      cbn [map fst] in Hn. apply NoDup_cons in Hn as [Hnr Hn].
      cbn [map fst forEach]. erewrite bind_ok.
      2:{ apply Hstep; [done|by apply find_None|]. apply Hc. by left. }
      rewrite (IH (remove n D ++ [(n, File c)])); [done|done|done|done|].
      intros m Hm. assert (Hmn : n <> m) by (intros ->; done).
      rewrite find_app, find_remove_ne by done. cbn [find].
      rewrite (nameEqb_ne m n) by (intros E; by apply Hmn).
      destruct (Hc m) as [H|[c' H]]; [by right|..]; rewrite H; [by left|].
      right. by exists c'. }
  erewrite bind_ok.
  2:{ apply (Hloop src dst s); [|done..]. rewrite Hs. f_equal. symmetry.
      rewrite (mapEntry_same b _ es (Dir dst)) by done.
      by apply (mapEntry_same a _ es (Dir src)). }
  apply tryCatch_ok. erewrite bind_ok.
  2:{ apply readdirSync_ok. cbn [tree]. apply readdir_child. apply find_a. }
  cbn [map length]. rewrite bool_decide_eq_true_2 by done.
  unfold rmdirSync. erewrite changing_ok; [reflexivity|]. cbn [tree].
  rewrite rmdir_child by apply find_a. by rewrite remove_mapEntry.
Qed.

End Merge.

End MergeFacts.

Import MergeFacts.

(** X10. [mergeDirectories] on two sibling directories of the root, the
    source holding files only and no name twice, the destination
    holding files (or nothing) under the names of the source: every
    file of the source ends in the destination, in place of the entry
    of its name, and the emptied source directory is removed; nothing
    else changes and no file is written.  In the merged listing a name
    of the source leads to the file of the source, any other name to
    what the destination had. *)
Theorem X10_merge_files (fuel : nat) (s : state) (es src dst : list (name * node))
    (a b : name) :
  tree s = Dir es -> a <> b ->
  find a es = Some (Dir src) -> find b es = Some (Dir dst) ->
  filesOnly src -> NoDup (map fst src) ->
  (forall n, n ∈ map fst src ->
     find n dst = None \/ exists c, find n dst = Some (File c)) ->
  mergeDirectories (S fuel) [a] [b] s
  = Some (Ok (), mkState
      (Dir (remove a (mapEntry b (fun _ => Dir (merged dst src)) es)))
      (writes s) (processedFiles s))
  /\ forall n, find n (merged dst src)
               = match find n src with Some v => Some v | None => find n dst end.
Proof.
  intros Hs Hab Ha Hb Hfiles Hnd Hcoll. split.
  - apply mergeDirectories_files; [done|by eexists|by eexists|done..].
  - intros n. by apply find_merged.
Qed.

Lemma X10_merge_files_witness :
  let s := mkState (Dir [(lit "new", Dir [(lit "a.css", File (lit "new"));
                                          (lit "c.css", File (lit "added"))]);
                         (lit "css", Dir [(lit "a.css", File (lit "old"));
                                          (lit "b.css", File (lit "kept"))])]) [] 0 in
  mergeDirectories 1 [lit "new"] [lit "css"] s
  = Some (Ok (), mkState (Dir [(lit "css", Dir [(lit "b.css", File (lit "kept"));
                                                (lit "a.css", File (lit "new"));
                                                (lit "c.css", File (lit "added"))])]) [] 0).
Proof.
  cbv zeta.
  pose (src := [(lit "a.css", File (lit "new")); (lit "c.css", File (lit "added"))]).
  pose (dst := [(lit "a.css", File (lit "old")); (lit "b.css", File (lit "kept"))]).
  pose (es := [(lit "new", Dir src); (lit "css", Dir dst)]).
  refine (proj1 (X10_merge_files 0 (mkState (Dir es) [] 0) es src dst (lit "new") (lit "css")
                   eq_refl _ eq_refl eq_refl _ _ _)).
  - done.
  - repeat constructor; by eexists.
  - apply (bool_decide_unpack _). by vm_compute.
  - apply (proj1 (Forall_forall
      (fun n : name => find n dst = None \/ exists c, find n dst = Some (File c))
      (map fst src))).
    apply Forall_cons. split; [right; by eexists|].
    apply Forall_cons. split; [by left|]. constructor.
Defined.


(** ** What the scan finds *)

Module CompleteFacts.

Lemma wanted_split dir c f : wanted dir c f <-> direct dir c f /\ listed dir f.
Proof.
  split.
  - intros (dirs & file & es & x & -> & Hg & Hf & Hx & Hn & Hh). split.
    + by exists dirs, file, es, x.
    + by exists dirs, file.
  - intros [(dirs & file & es & x & -> & Hg & Hf & Hx) (dirs' & file' & E & Hn & Hh)].
    apply app_inv_head in E. apply app_inj_tail in E as [-> ->].
    by exists dirs', file', es, x.
Qed.

Lemma prefix_snoc_length (dir p : path) (nm : name) : ¬ (dir ++ [nm]) `prefix_of` dir.
Proof.
  intros [k Hk]. apply (f_equal length) in Hk. rewrite !length_app in Hk. cbn in Hk. lia.
Qed.

Lemma prefix_snoc_below (dir p : path) (nm : name) :
  (dir ++ [nm]) `prefix_of` p -> dir `prefix_of` p.
Proof. intros [k ->]. exists ([nm] ++ k). by rewrite <- app_assoc. Qed.

Lemma prefix_snoc_same (dir p : path) (nm nm' : name) :
  (dir ++ [nm]) `prefix_of` p -> (dir ++ [nm']) `prefix_of` p -> nm = nm'.
Proof.
  intros [k ->] [k' Hk]. rewrite <- !app_assoc in Hk. apply app_inv_head in Hk.
  by injection Hk.
Qed.

(** The loop of the scan over entries with distinct names. *)
Lemma scanLoop_complete (rec : path -> gset path -> option (list path * gset path))
    (dir : path) (items : list (name * node)) :
  forall (files : list path) (visited : gset path) (out : list path) (visited' : gset path),
  NoDup (map fst items) ->
  (forall (nm : name) es' v found v',
     (nm, Dir es') ∈ items ->
     (forall p, p ∈ v -> ¬ (dir ++ [nm]) `prefix_of` p) ->
     rec (dir ++ [nm]) v = Some (found, v') ->
     (forall f, wanted (dir ++ [nm]) (Dir es') f -> f ∈ found) /\
     (forall p, p ∈ v' -> p ∈ v \/ (dir ++ [nm]) `prefix_of` p)) ->
  (forall p (nm : name), p ∈ visited -> nm ∈ map fst items ->
     ¬ (dir ++ [nm]) `prefix_of` p) ->
  scanLoop rec dir items files visited = Some (out, visited') ->
  (forall f, f ∈ files -> f ∈ out) /\
  (forall (nm : name) x, (nm, x) ∈ items -> skipped nm = false ->
     (isDir x = false -> endsWith (lit ".html") nm = true -> dir ++ [nm] ∈ out) /\
     (forall es' f, x = Dir es' -> wanted (dir ++ [nm]) (Dir es') f -> f ∈ out)) /\
  (forall p, p ∈ visited' ->
     p ∈ visited \/ exists nm : name, nm ∈ map fst items /\ (dir ++ [nm]) `prefix_of` p).
Proof.
  induction items as [|[nm x] rest IH]; intros files visited out visited' Hnd Hrec Hvis Hrun.
  - injection Hrun as <- <-. split; [done|]. split.
    + intros nm x Hin. by apply elem_of_nil in Hin.
    + intros p Hp. by left.
  - cbn [map fst] in Hnd. apply NoDup_cons in Hnd as [Hnm Hnd].
    assert (Hrec' : forall (nm0 : name) es' v found v',
      (nm0, Dir es') ∈ rest ->
      (forall p, p ∈ v -> ¬ (dir ++ [nm0]) `prefix_of` p) ->
      rec (dir ++ [nm0]) v = Some (found, v') ->
      (forall f, wanted (dir ++ [nm0]) (Dir es') f -> f ∈ found) /\
      (forall p, p ∈ v' -> p ∈ v \/ (dir ++ [nm0]) `prefix_of` p)).
    { intros nm0 es' v found v' Hin. apply Hrec. by right. }
    assert (Hvis' : forall p (nm0 : name), p ∈ visited -> nm0 ∈ map fst rest ->
      ¬ (dir ++ [nm0]) `prefix_of` p).
    { intros p nm0 Hp Hin. apply Hvis; [done|]. cbn [map fst]. by right. }
    cbn [scanLoop] in Hrun. cbv zeta in Hrun.
    destruct (skipped nm) eqn:Hskip.
    { destruct (IH _ _ _ _ Hnd Hrec' Hvis' Hrun) as (H1 & H2 & H3).
      split; [done|]. split.
      - intros nm0 x0 Hin Hs0. apply elem_of_cons in Hin as [[= -> ->]|Hin]; [congruence|].
        by apply H2.
      - intros p Hp. destruct (H3 p Hp) as [H|(nm0 & Hn0 & Hpre)]; [by left|].
        right. exists nm0. split; [|done]. cbn [map fst]. by right. }
    destruct (isDirectory (kindOf x)) eqn:Hdir.
    { destruct (isDirectory_Dir x Hdir) as [es' ->].
      destruct (rec (dir ++ [nm]) visited) as [[found v1]|] eqn:Hcall; [|done].
      destruct (Hrec nm es' visited found v1) as [Hfound Hv1]; [by left| |done|].
      { intros p Hp. apply Hvis; [done|]. cbn [map fst]. by left. }
      assert (Hvis1 : forall p (nm0 : name), p ∈ v1 -> nm0 ∈ map fst rest ->
        ¬ (dir ++ [nm0]) `prefix_of` p).
      { intros p nm0 Hp Hin Hpre. destruct (Hv1 p Hp) as [H|H].
        - by apply (Hvis' p nm0).
        - assert (nm = nm0) by (by eapply prefix_snoc_same). by subst nm0. }
      destruct (IH _ _ _ _ Hnd Hrec' Hvis1 Hrun) as (H1 & H2 & H3).
      split; [|split].
      - intros f Hf. apply H1. apply elem_of_app. by left.
      - intros nm0 x0 Hin Hs0. apply elem_of_cons in Hin as [[= -> ->]|Hin]; [|by apply H2].
        split; [done|]. intros es0 f [= <-] Hw. apply H1, elem_of_app. right. by apply Hfound.
      - intros p Hp. destruct (H3 p Hp) as [H|(nm0 & Hn0 & Hpre)].
        + destruct (Hv1 p H) as [H'|H']; [by left|]. right. exists nm.
          split; [|done]. cbn [map fst]. by left.
        + right. exists nm0. split; [|done]. cbn [map fst]. by right. }
    destruct (endsWith (lit ".html") nm) eqn:Hhtml.
    { destruct (IH _ _ _ _ Hnd Hrec' Hvis' Hrun) as (H1 & H2 & H3).
      split; [|split].
      - intros f Hf. apply H1. apply elem_of_app. by left.
      - intros nm0 x0 Hin Hs0. apply elem_of_cons in Hin as [[= -> ->]|Hin]; [|by apply H2].
        split.
        + intros _ _. apply H1, elem_of_app. right. by left.
        + intros es0 f ->. done.
      - intros p Hp. destruct (H3 p Hp) as [H|(nm0 & Hn0 & Hpre)]; [by left|].
        right. exists nm0. split; [|done]. cbn [map fst]. by right. }
    destruct (IH _ _ _ _ Hnd Hrec' Hvis' Hrun) as (H1 & H2 & H3).
    split; [done|]. split.
    + intros nm0 x0 Hin Hs0. apply elem_of_cons in Hin as [[= -> ->]|Hin]; [|by apply H2].
      split; [intros _ ?; congruence|]. intros es0 f ->. done.
    + intros p Hp. destruct (H3 p Hp) as [H|(nm0 & Hn0 & Hpre)]; [by left|].
      right. exists nm0. split; [|done]. cbn [map fst]. by right.
Qed.

Lemma getAllHtmlFiles_complete t fuel : forall dir visited q c files visited',
  stat t dir = Ok (q, c) -> wf c = true ->
  (forall p, p ∈ visited -> ¬ dir `prefix_of` p) ->
  getAllHtmlFiles fuel t dir visited = Some (files, visited') ->
  (forall f, wanted dir c f -> f ∈ files) /\
  (forall p, p ∈ visited' -> p ∈ visited \/ dir `prefix_of` p).
Proof.
  induction fuel as [|fuel IH]; intros dir visited q c files visited' Hstat Hwf Hvis Hrun;
    [done|].
  rewrite getAllHtmlFiles_step in Hrun.
  rewrite bool_decide_eq_false_2 in Hrun.
  2:{ intros Hin. by apply (Hvis dir Hin). }
  rewrite readdir_stat, Hstat in Hrun.
  destruct c as [content|es|target].
  - injection Hrun as <- <-. split.
    + intros f (dirs & file & es & x & _ & Hg & _). by destruct dirs.
    + intros p Hp. apply elem_of_union in Hp as [Hp|Hp]; [|by left].
      apply elem_of_singleton in Hp as ->. by right.
  - destruct (scanLoop_complete (getAllHtmlFiles fuel t) dir es [] ({[dir]} ∪ visited)
                files visited') as (_ & H2 & H3).
    + by apply wf_dir.
    + intros nm es' v found v' Hin Hv Hcall.
      apply (IH (dir ++ [nm]) v (q ++ [nm]) (Dir es')); [|by eapply wf_elem|done|done].
      apply (stat_snoc t dir q es nm (Dir es')); [done| |done].
      apply find_NoDup; [by apply wf_dir|done].
    + intros p nm Hp _ Hpre. apply elem_of_union in Hp as [Hp|Hp].
      * apply elem_of_singleton in Hp as ->. by apply (prefix_snoc_length dir dir nm).
      * apply (Hvis p Hp). by eapply prefix_snoc_below.
    + done.
    + split.
      * intros f (dirs & file & es0 & x & -> & Hg & Hf & Hx & Hn & Hh).
        destruct dirs as [|nm dirs].
        -- cbn [get] in Hg. injection Hg as <-. cbn [app] in *.
           rewrite Forall_singleton in Hn.
           destruct (H2 file x) as [Hfile _]; [by apply find_elem|done|].
           by apply Hfile.
        -- cbn [get] in Hg. destruct (find nm es) as [c1|] eqn:Hnm; [|done].
           cbn [app] in Hn. apply Forall_cons in Hn as [Hs Hn].
           assert (exists es1, c1 = Dir es1) as [es1 ->].
           { destruct dirs; cbn [get] in Hg; [injection Hg as ->; by eexists|].
             destruct c1; try done. by eexists. }
           destruct (H2 nm (Dir es1)) as [_ Hsub]; [by apply find_elem|done|].
           apply (Hsub es1); [done|].
           exists dirs, file, es0, x. split; [by rewrite <- app_assoc|done].
      * intros p Hp. destruct (H3 p Hp) as [H|(nm & _ & Hpre)].
        -- apply elem_of_union in H as [H|H]; [|by left].
           apply elem_of_singleton in H as ->. by right.
        -- right. by eapply prefix_snoc_below.
  - injection Hrun as <- <-. split.
    + intros f (dirs & file & es & x & _ & Hg & _). by destruct dirs.
    + intros p Hp. apply elem_of_union in Hp as [Hp|Hp]; [|by left].
      apply elem_of_singleton in Hp as ->. by right.
Qed.

End CompleteFacts.

Import CompleteFacts.

(** X11. The scan finds every file it looks for.  When no directory at
    or below [dir] is in the set of visited directories, as in every
    call the scripts make from outside, [getAllHtmlFiles] returns as
    soon as its fuel is above the height of the directory, and the files
    it returns are exactly the entries below [dir] that are no
    directories, have a name ending in [.html] and are reached through
    directories only, without a passed over name on the way. *)
Theorem X11_scan_complete (t : node) (fuel : nat) (dir q : path) (c : node)
    (visited : gset path) :
  stat t dir = Ok (q, c) -> wf c = true ->
  (forall p, p ∈ visited -> ¬ dir `prefix_of` p) ->
  (height c < fuel -> is_Some (getAllHtmlFiles fuel t dir visited)) /\
  (forall (files : list path) (visited' : gset path),
     getAllHtmlFiles fuel t dir visited = Some (files, visited') ->
     forall f, f ∈ files <-> direct dir c f /\ listed dir f).
Proof.
  intros Hstat Hwf Hvis. split.
  { intros Hh. by eapply getAllHtmlFiles_total. }
  intros files visited' Hrun f. split.
  - intros Hf. split.
    + pose proof (getAllHtmlFiles_direct t fuel dir visited q c files visited' Hstat Hwf Hrun) as H.
      rewrite Forall_forall in H. by apply H.
    + pose proof (getAllHtmlFiles_listed fuel t dir visited files visited' Hrun) as H.
      rewrite Forall_forall in H. by apply H.
  - intros H. apply wanted_split in H.
    by apply (getAllHtmlFiles_complete t fuel dir visited q c files visited' Hstat Hwf Hvis Hrun).
Qed.

Lemma X11_scan_complete_witness :
  let t := Dir [(lit "index.html", File []);
                (lit "pages", Dir [(lit "a.html", File []);
                                   (lit "deep", Dir [(lit "b.html", File [])]);
                                   (lit "notes.txt", File [])])] in
  let files := [[lit "index.html"]; [lit "pages"; lit "a.html"];
                [lit "pages"; lit "deep"; lit "b.html"]] in
  is_Some (getAllHtmlFiles 4 t [] ∅) /\
  getAllHtmlFiles 4 t [] ∅ = Some (files, {[ []; [lit "pages"]; [lit "pages"; lit "deep"] ]}) /\
  forall f, f ∈ files <-> direct [] t f /\ listed [] f.
Proof.
  cbv zeta.
  pose (t := Dir [(lit "index.html", File []);
                  (lit "pages", Dir [(lit "a.html", File []);
                                     (lit "deep", Dir [(lit "b.html", File [])]);
                                     (lit "notes.txt", File [])])]).
  assert (Hvis : forall p : path, p ∈ (∅ : gset path) -> ¬ [] `prefix_of` p).
  { intros p Hp. by apply not_elem_of_empty in Hp. }
  destruct (X11_scan_complete t 4 [] [] t ∅ eq_refl eq_refl Hvis) as [Htotal Hfiles].
  split; [apply Htotal; vm_compute; lia|].
  split; [vm_compute; reflexivity|].
  apply (Hfiles _ {[ []; [lit "pages"]; [lit "pages"; lit "deep"] ]}).
  vm_compute. reflexivity.
Defined.


(** ** The removal of the footer section *)

Module RemovalFacts.

Ltac reassoc := repeat (progress (rewrite <- ?app_assoc; cbn [app])).

(** *** The global replacement with any pattern *)

Lemma subst_skip r repl k x rest :
  length x = k -> subst r repl k (x ++ rest) = subst r repl 0 rest.
Proof.
  revert k. induction x as [|c x IH]; intros k H; cbn [length] in H; subst k; [done|].
  cbn [app subst]. by apply IH.
Qed.

Lemma subst_copy r repl pre rest :
  (forall a1 x a2, pre = a1 ++ x :: a2 -> match_here r (x :: a2 ++ rest) = None) ->
  subst r repl 0 (pre ++ rest) = pre ++ subst r repl 0 rest.
Proof.
  induction pre as [|c pre IH]; intros H; [done|].
  cbn [app subst]. unfold match_len. rewrite (H [] c pre eq_refl). f_equal.
  apply IH. intros a1 x a2 ->. by apply (H (c :: a1)).
Qed.

Lemma subst_match r repl m rest :
  m <> [] -> match_here r (m ++ rest) = Some rest ->
  subst r repl 0 (m ++ rest) = repl ++ subst r repl 0 rest.
Proof.
  destruct m as [|c m]; [done|]. intros _ H.
  cbn [app subst]. unfold match_len. cbn [app] in H. rewrite H.
  cbn [length]. rewrite length_app.
  replace (S (length m + length rest) - length rest) with (S (length m)) by lia.
  f_equal. by apply subst_skip.
Qed.

Lemma test_none r s :
  (forall a b, s = a ++ b -> match_here r b = None) -> test r s = false.
Proof.
  induction s as [|c s IH]; intros H; cbn [test].
  - by rewrite (H [] [] eq_refl).
  - rewrite (H [] (c :: s) eq_refl). apply IH. intros a b ->. by apply (H (c :: a)).
Qed.

(** *** A greedy star whose rest agrees on its result *)

Lemma greedyK_none {A} c (rest : str -> option A) run s :
  Forall (fun y => accepts c y = true) run ->
  match s with [] => True | x :: _ => accepts c x = false end ->
  (forall u v, run = u ++ v -> rest (v ++ s) = None) ->
  greedyK c rest (run ++ s) = None.
Proof.
  intros Hrun Hs. induction Hrun as [|y run Hy Hrun IH]; intros Hc.
  - cbn [app]. pose proof (Hc [] [] eq_refl) as H0. cbn [app] in H0.
    destruct s as [|x s]; cbn [greedyK]; [done|]. by rewrite Hs.
  - cbn [app greedyK]. rewrite Hy, IH.
    + apply (Hc [] (y :: run) eq_refl).
    + intros u v ->. by apply (Hc (y :: u) v).
Qed.

Lemma greedyK_weak {A} c (rest : str -> option A) run s R :
  Forall (fun y => accepts c y = true) run ->
  match s with [] => True | x :: _ => accepts c x = false end ->
  (forall u v, run = u ++ v -> rest (v ++ s) = None \/ rest (v ++ s) = Some R) ->
  greedyK c rest (run ++ s) = None \/ greedyK c rest (run ++ s) = Some R.
Proof.
  intros Hrun Hs. induction Hrun as [|y run Hy Hrun IH]; intros Hc.
  - cbn [app]. pose proof (Hc [] [] eq_refl) as H0. cbn [app] in H0.
    destruct s as [|x s]; cbn [greedyK]; [done|]. by rewrite Hs.
  - cbn [app greedyK]. rewrite Hy.
    destruct IH as [-> | ->]; [|apply (Hc [] (y :: run) eq_refl)|by right].
    intros u v ->. by apply (Hc (y :: u) v).
Qed.

Lemma greedyK_agree {A} c (rest : str -> option A) run s R :
  Forall (fun y => accepts c y = true) run ->
  match s with [] => True | x :: _ => accepts c x = false end ->
  (forall u v, run = u ++ v -> rest (v ++ s) = None \/ rest (v ++ s) = Some R) ->
  (exists u v, run = u ++ v /\ rest (v ++ s) = Some R) ->
  greedyK c rest (run ++ s) = Some R.
Proof.
  intros Hrun Hs. induction Hrun as [|y run Hy Hrun IH]; intros Hc (u & v & Huv & Hv).
  - symmetry in Huv. apply app_eq_nil in Huv as [-> ->]. cbn [app] in *.
    destruct s as [|x s]; cbn [greedyK]; [done|]. by rewrite Hs.
  - cbn [app greedyK]. rewrite Hy.
    assert (Hc' : forall u v, run = u ++ v ->
              rest (v ++ s) = None \/ rest (v ++ s) = Some R).
    { intros u0 v0 ->. by apply (Hc (y :: u0) v0). }
    destruct (greedyK_weak c rest run s R Hrun Hs Hc') as [E|E]; rewrite E; [|done].
    destruct u as [|y' u].
    + cbn [app] in Huv. subst v. done.
    + cbn [app] in Huv. injection Huv as <- ->.
      rewrite IH in E; [done|done|by exists u, v].
Qed.

(** *** The parts of the footer pattern *)

Lemma reFooter_parts : reFooter = map C ksSectionOpen ++ footerAfterOpen.
Proof. reflexivity. Qed.

Lemma footerAfterOpen_parts :
  footerAfterOpen = StarG notGt :: (map C ksMarker ++ footerAfterMarker).
Proof. reflexivity. Qed.

Lemma startsWith_within (p y rest : str) :
  apart (map One p) p = true -> y <> [] ->
  startsWith p (y ++ p ++ rest) = startsWith p y.
Proof.
  intros Hap Hy. rewrite <- !fixedMatch_One.
  destruct (decide (length (map One p) <= length y)) as [Hle|Hgt].
  - by apply fixedMatch_app.
  - destruct (fixedMatch (map One p) (y ++ p ++ rest)) eqn:E.
    + exfalso. apply fixedMatch_straddle in E; [|lia].
      rewrite <- (app_nil_r (p ++ rest)) in E. apply fixedMatch_compat in E.
      rewrite apart_spec in E; [done|by apply apart_app|].
      destruct y; [done|]. cbn [length] in *. lia.
    + destruct (fixedMatch (map One p) y) eqn:E'; [|done].
      apply fixedMatch_length in E'. lia.
Qed.

Lemma mem_app c (a b : str) : mem c (a ++ b) = mem c a || mem c b.
Proof. apply existsb_app. Qed.

Lemma mem_split c z :
  mem c z = true -> exists run z', z = run ++ c :: z' /\ mem c run = false.
Proof.
  induction z as [|x z IH]; [done|]. cbn [mem existsb].
  destruct (ceqb c x) eqn:E.
  - apply ceqb_eq in E as <-. intros _. by exists [], z.
  - cbn [orb]. intros H. destruct (IH H) as (run & z' & -> & Hrun).
    exists (x :: run), z'. split; [done|]. cbn [mem existsb]. by rewrite E.
Qed.

Lemma accepts_notGt : accepts notGt ">"%char = false.
Proof. reflexivity. Qed.

(** The body of the section and its closing tag. *)
Lemma section_body body post :
  includes (lit "</section>") body = false ->
  matchK (StarL AnyChar :: map C ksSectionClose) Some (body ++ lit "</section>" ++ post)
  = Some post.
Proof.
  intros Hbody. cbn [matchK].
  assert (Hhere : matchK (map C ksSectionClose) Some (lit "</section>" ++ post) = Some post).
  { rewrite <- (app_nil_r (map C ksSectionClose)), matchK_fixed.
    unfold ksSectionClose. rewrite fixedMatch_One, startsWith_app. cbn [matchK].
    by rewrite length_map, drop_app_length. }
  rewrite lazyK_run.
  - rewrite lazyK_here; [done|]. rewrite Hhere. by eexists.
  - by apply Forall_forall.
  - intros a1 x a2 ->.
    rewrite <- (app_nil_r (map C ksSectionClose)), matchK_fixed.
    unfold ksSectionClose. rewrite fixedMatch_One.
    rewrite startsWith_before; [done|cbn; lia|reflexivity|].
    by apply includes_suffix in Hbody.
Qed.

(** The pattern after the marker, on the rest of the tag. *)
Lemma after_marker v body post :
  mem ">"%char v = false ->
  includes (lit "</section>") body = false ->
  matchK footerAfterMarker Some (v ++ ">"%char :: body ++ lit "</section>" ++ post)
  = Some post.
Proof.
  intros Hv Hbody. unfold footerAfterMarker. cbn [matchK].
  rewrite greedyK_run.
  - cbn [matchK accepts]. rewrite ceqb_refl. by apply section_body.
  - by apply notgt_run.
  - cbn [matchK accepts]. rewrite ceqb_refl.
    pose proof (section_body body post Hbody) as H. cbn [matchK] in H. rewrite H. by eexists.
  - apply accepts_notGt.
Qed.

(** The marker at a place of the tag: it lies before the [>]. *)
Lemma marker_candidate v B :
  matchK (map C ksMarker ++ footerAfterMarker) Some (v ++ ">"%char :: B) = None
  \/ exists v', v = footerMarker ++ v' /\
       matchK (map C ksMarker ++ footerAfterMarker) Some (v ++ ">"%char :: B)
       = matchK footerAfterMarker Some (v' ++ ">"%char :: B).
Proof.
  rewrite matchK_fixed. unfold ksMarker. rewrite fixedMatch_One.
  destruct (startsWith footerMarker (v ++ ">"%char :: B)) eqn:E; [|by left].
  right. destruct (startsWith footerMarker v) eqn:Ev.
  - apply startsWith_spec in Ev as [v' ->]. exists v'. split; [done|].
    by rewrite length_map, <- app_assoc, drop_app_length.
  - by rewrite startsWith_blocked in E.
Qed.

(** The pattern matches a section element with the marker, up to its
    closing tag. *)
Lemma footer_at_section a1 a2 body post :
  mem ">"%char a1 = false -> mem ">"%char a2 = false ->
  includes (lit "</section>") body = false ->
  match_here reFooter (footerSection a1 a2 body ++ post) = Some post.
Proof.
  intros H1 H2 Hbody. rewrite <- matchK_match_here, reFooter_parts, matchK_fixed.
  unfold ksSectionOpen, footerSection. rewrite <- !app_assoc.
  rewrite fixedMatch_One, startsWith_app, length_map, drop_app_length.
  rewrite footerAfterOpen_parts. cbn [matchK].
  set (s := ">"%char :: body ++ lit "</section>" ++ post).
  replace (a1 ++ footerMarker ++ a2 ++ (">"%char :: body ++ lit "</section>") ++ post)
    with ((a1 ++ footerMarker ++ a2) ++ s).
  2:{ unfold s. rewrite <- !app_assoc. cbn [app]. by rewrite <- !app_assoc. }
  assert (Hrun : mem ">"%char (a1 ++ footerMarker ++ a2) = false).
  { by rewrite !mem_app, H1, H2. }
  apply greedyK_agree.
  - by apply notgt_run.
  - apply accepts_notGt.
  - intros u v Huv. destruct (marker_candidate v (body ++ lit "</section>" ++ post))
      as [H|(v' & -> & H)]; [by left|right].
    unfold s. rewrite H. apply after_marker; [|done].
    rewrite Huv, !mem_app in Hrun.
    apply orb_false_iff in Hrun as [_ Hrun]. by apply orb_false_iff in Hrun as [_ Hrun].
  - exists a1, (footerMarker ++ a2). split; [done|]. unfold s.
    rewrite matchK_fixed. unfold ksMarker.
    rewrite <- app_assoc, fixedMatch_One, startsWith_app, length_map, drop_app_length.
    by apply after_marker.
Qed.

Lemma sealed_spec pre :
  sealed pre = true ->
  forall x z, pre = x ++ lit "<section" ++ z -> mem ">"%char z = true.
Proof.
  intros H x. revert pre H. induction x as [|c x IH]; intros pre H z ->.
  - simpl in H. apply andb_true_iff in H as [H _]. exact H.
  - cbn [app sealed] in H. apply andb_true_iff in H as [_ H].
    by apply (IH _ H).
Qed.

(** No match starts in a text without the marker whose section tags are
    closed. *)
Lemma footer_not_before pre rest :
  includes footerMarker pre = false -> sealed pre = true ->
  forall a1 x a2, pre = a1 ++ x :: a2 ->
    match_here reFooter (x :: a2 ++ lit "<section" ++ rest) = None.
Proof.
  intros Hmark Hsealed a1 x a2 Hpre.
  rewrite <- matchK_match_here, reFooter_parts, matchK_fixed.
  unfold ksSectionOpen. rewrite fixedMatch_One.
  change (x :: a2 ++ lit "<section" ++ rest) with ((x :: a2) ++ lit "<section" ++ rest).
  rewrite startsWith_within; [|reflexivity|done].
  destruct (startsWith (lit "<section") (x :: a2)) eqn:E; [|done].
  apply startsWith_spec in E as [z Hz]. rewrite Hz, length_map.
  rewrite <- app_assoc, drop_app_length.
  rewrite Hz in Hpre.
  destruct (mem_split ">"%char z (sealed_spec pre Hsealed a1 z Hpre))
    as (run & z' & -> & Hrun).
  rewrite footerAfterOpen_parts. cbn [matchK]. rewrite <- app_assoc. cbn [app].
  apply greedyK_none.
  - by apply notgt_run.
  - apply accepts_notGt.
  - intros u v Huv.
    destruct (marker_candidate v (z' ++ lit "<section" ++ rest)) as [H|(v' & -> & _)];
      [done|].
    exfalso. rewrite Hpre, Huv in Hmark.
    assert (includes footerMarker
              (a1 ++ lit "<section" ++ (u ++ footerMarker ++ v') ++ ">"%char :: z') = true)
      as Hin; [|congruence].
    apply includes_spec. exists (a1 ++ lit "<section" ++ u), (v' ++ ">"%char :: z').
    by rewrite <- !app_assoc.
Qed.

(** A match of the pattern holds the marker. *)
Lemma footer_needs_marker s t :
  match_here reFooter s = Some t -> includes footerMarker s = true.
Proof.
  rewrite <- matchK_match_here, reFooter_parts, matchK_fixed.
  destruct (fixedMatch ksSectionOpen s); [|done].
  rewrite footerAfterOpen_parts. cbn [matchK]. intros H.
  apply greedyK_some in H as (u & v & Huv & H).
  rewrite matchK_fixed in H. unfold ksMarker in H. rewrite fixedMatch_One in H.
  destruct (startsWith footerMarker v) eqn:E; [|done].
  apply startsWith_spec in E as [v' ->].
  rewrite <- (take_drop (length ksSectionOpen) s), Huv.
  apply includes_spec. exists (take (length ksSectionOpen) s ++ u), v'.
  by rewrite <- !app_assoc.
Qed.

Lemma footer_no_marker s : includes footerMarker s = false -> test reFooter s = false.
Proof.
  intros H. apply test_none. intros a b ->.
  destruct (match_here reFooter b) eqn:E; [|done].
  apply footer_needs_marker in E. apply includes_suffix in H. congruence.
Qed.

(** The replacement on a page with one marked section. *)
Lemma footer_removed pre a1 a2 body post :
  includes footerMarker pre = false -> sealed pre = true ->
  mem ">"%char a1 = false -> mem ">"%char a2 = false ->
  includes (lit "</section>") body = false ->
  includes footerMarker post = false ->
  replaceAll reFooter [] (pre ++ footerSection a1 a2 body ++ post) = pre ++ post.
Proof.
  intros Hpre Hsealed H1 H2 Hbody Hpost.
  rewrite replaceAll_plain by done.
  rewrite subst_copy.
  - rewrite subst_match.
    + cbn [app]. rewrite <- replaceAll_plain by done.
      by rewrite replaceAll_no_match by by apply footer_no_marker.
    + by unfold footerSection.
    + by apply footer_at_section.
  - intros a x b Hab. unfold footerSection. rewrite <- !app_assoc.
    by apply (footer_not_before pre _ Hpre Hsealed a x b).
Qed.

End RemovalFacts.

Import RemovalFacts.

(** ** The widget put back *)

Module WidgetFacts.

Lemma splitFirst_none p s : includes p s = false -> splitFirst p s = None.
Proof.
  induction s as [|c s IH]; cbn [includes splitFirst]; intros H;
    apply orb_false_iff in H as [H1 H2]; rewrite H1; [done|].
  by rewrite IH.
Qed.

Lemma expand_app_plain b m a x y :
  plain x = true -> expand b m a (x ++ y) = x ++ expand b m a y.
Proof.
  induction x as [|c x IH]; [done|]. cbn [plain forallb]. intros H.
  apply andb_true_iff in H as [Hc Hx]. apply negb_true_iff in Hc.
  cbn [app expand]. rewrite Hc. f_equal. by apply IH.
Qed.

(** The flag and the text of [processFile] on a page with a widget from
    which the replacement removed something. *)
Lemma processContent_widget content w :
  matchFirst reWidget content = Some w ->
  includes footerMarker content = true ->
  replaceAll reFooter [] content <> content ->
  processContent content
  = (replaceFirst (lit "</body>") (wrapper w) (replaceAll reFooter [] content), true).
Proof.
  intros Hw Hin Hne. unfold processContent. rewrite Hw, Hin.
  rewrite (bool_decide_eq_true_2 _ Hne).
  rewrite reWidget_container in Hw. apply matchFirst_fixed in Hw as [_ Hlen].
  assert (Hwne : w <> []) by (intros ->; cbn in Hlen; lia).
  by rewrite (bool_decide_eq_false_2 _ Hwne).
Qed.

End WidgetFacts.

Import WidgetFacts.



(** ** A second run *)

Module AgainFacts.



Lemma unsnoc_snoc (q : path) :
  q <> [] -> exists parent m, unsnoc q = Some (parent, m) /\ q = parent ++ [m].
Proof.
  induction q as [|n q IH]; [done|]. intros _. cbn [unsnoc].
  destruct q as [|n' q'].
  - by exists [], n.
  - destruct IH as (parent & m & -> & E); [done|].
    exists (n :: parent), m. split; [done|]. by rewrite E.
Qed.




End AgainFacts.

Import AgainFacts.




(** ** What the rewriting passes leave alone *)

Module SkeletonFacts.

Lemma skeleton_put m c c0 (es : list (name * node)) :
  find m es = Some (File c0) ->
  map (fun e => (e.1, skeleton e.2)) (put m (File c) es)
  = map (fun e => (e.1, skeleton e.2)) es.
Proof.
  induction es as [|[n d] es IH]; cbn [find put map]; [done|].
  destruct (nameEqb m n).
  - by intros [= ->].
  - intros H. cbn [map]. by rewrite IH.
Qed.

Lemma skeleton_mapEntry n g (es : list (name * node)) :
  (forall c, find n es = Some c -> skeleton (g c) = skeleton c) ->
  map (fun e => (e.1, skeleton e.2)) (mapEntry n g es)
  = map (fun e => (e.1, skeleton e.2)) es.
Proof.
  induction es as [|[m d] es IH]; cbn [find mapEntry map]; [done|].
  destruct (nameEqb n m).
  - intros H. cbn [map fst snd]. by rewrite H.
  - intros H. cbn [map]. by rewrite IH.
Qed.

Lemma skeleton_alter m c c0 parent : forall t,
  get t (parent ++ [m]) = Some (File c0) ->
  skeleton (alter (put m (File c)) parent t) = skeleton t.
Proof.
  induction parent as [|n parent IH]; intros t Hget.
  - destruct t as [?|es|?]; try done. rewrite alter_nil. cbn [skeleton]. f_equal.
    cbn [app get] in Hget. destruct (find m es) as [x|] eqn:E; [|done].
    injection Hget as ->. by apply (skeleton_put m c c0).
  - destruct t as [?|es|?]; try done. rewrite alter_cons. cbn [skeleton]. f_equal.
    apply skeleton_mapEntry. intros c1 Hc1. apply IH.
    cbn [app get] in Hget. by rewrite Hc1 in Hget.
Qed.

(** Writing over a file changes its text only. *)
Lemma skeleton_putAt t q c c0 :
  get t q = Some (File c0) -> skeleton (putAt q (File c) t) = skeleton t.
Proof.
  intros Hget. unfold putAt. destruct q as [|n q].
  - cbn [unsnoc]. cbn [get] in Hget. by injection Hget as ->.
  - destruct (unsnoc_snoc (n :: q)) as (parent & m & -> & E); [done|].
    rewrite E in Hget. by apply (skeleton_alter m c c0).
Qed.

Lemma skeleton_writeFile t p c c0 t' :
  readFile t p = Ok c0 -> writeFile t p c = Ok t' -> skeleton t' = skeleton t.
Proof.
  unfold readFile, writeFile.
  destruct (stat t p) as [[q [c1|?|?]]|?] eqn:Hstat; try done.
  intros _ [= <-]. apply stat_get in Hstat. by apply (skeleton_putAt t q c c1).
Qed.

Lemma fixPathsInHtml_skeleton sep filePath rootPath s r s' :
  fixPathsInHtml sep filePath rootPath s = Some (r, s') ->
  skeleton (tree s') = skeleton (tree s).
Proof.
  intros Hrun.
  destruct (readFile (tree s) filePath) as [content|e] eqn:E.
  - rewrite (fixPathsInHtml_run _ _ _ _ _ E) in Hrun. cbv zeta in Hrun.
    destruct (bool_decide _) in Hrun; [|by injection Hrun as _ <-].
    destruct (writeFile _ _ _) as [t'|e] eqn:Hw in Hrun; [|by injection Hrun as _ <-].
    injection Hrun as _ <-. cbn [tree]. by eapply skeleton_writeFile.
  - unfold fixPathsInHtml, tryCatch, mbind, M_bind, readFileSync, reading in Hrun.
    rewrite E in Hrun. by injection Hrun as _ <-.
Qed.

Lemma processFile_skeleton filePath s r s' :
  processFile filePath s = Some (r, s') ->
  skeleton (tree s') = skeleton (tree s).
Proof.
  intros Hrun.
  destruct (readFile (tree s) filePath) as [content|e] eqn:E.
  - rewrite (processFile_run _ _ _ E) in Hrun.
    destruct ((processContent content).2) in Hrun; [|by injection Hrun as _ <-].
    destruct (writeFile _ _ _) as [t'|e] eqn:Hw in Hrun; [|by injection Hrun as _ <-].
    injection Hrun as _ <-. cbn [tree]. by eapply skeleton_writeFile.
  - unfold processFile, tryCatch, mbind, M_bind, readFileSync, reading in Hrun.
    rewrite E in Hrun. by injection Hrun as _ <-.
Qed.

Lemma countOutcomes_skeleton files : forall ok bad s r s',
  countOutcomes files ok bad s = Some (r, s') ->
  skeleton (tree s') = skeleton (tree s).
Proof.
  induction files as [|f files IH]; intros ok bad s r s' Hrun; cbn [countOutcomes] in Hrun.
  - by injection Hrun as _ <-.
  - apply bind_inv in Hrun as [(o & s1 & H1 & H2)|(e & H1 & _)].
    + apply processFile_skeleton in H1. rewrite <- H1.
      destruct o; by apply IH in H2.
    + by apply processFile_skeleton in H1.
Qed.

End SkeletonFacts.

Import SkeletonFacts.

(** X16. The rewriting passes change the text of files only.  After
    [fixPathsInHtml] or [processFile] on any path, and after a whole
    [runRemoval], the tree has the directories, the names in their
    order and the links it had: no entry is created, removed, renamed
    or turned into something else, also when the path leads through
    links. *)
Theorem X16_text_only (sep : ascii) (fuel : nat) (filePath rootPath : path) (s : state) :
  (forall r s', fixPathsInHtml sep filePath rootPath s = Some (r, s') ->
     skeleton (tree s') = skeleton (tree s)) /\
  (forall r s', processFile filePath s = Some (r, s') ->
     skeleton (tree s') = skeleton (tree s)) /\
  (forall r s', runRemoval fuel s = Some (r, s') ->
     skeleton (tree s') = skeleton (tree s)).
Proof.
  split; [|split].
  - intros r s'. apply fixPathsInHtml_skeleton.
  - intros r s'. apply processFile_skeleton.
  - intros r s' Hrun. unfold runRemoval in Hrun.
    apply bind_inv in Hrun as [(files & s1 & H1 & H2)|(e & H1 & _)].
    + unfold RemoveFooterSection.htmlFilesOf in H1.
      destruct (RemoveFooterSection.getAllHtmlFiles fuel (tree s) [] ∅) as [[fs v]|]; [|done].
      injection H1 as _ <-. by apply countOutcomes_skeleton in H2.
    + unfold RemoveFooterSection.htmlFilesOf in H1.
      by destruct (RemoveFooterSection.getAllHtmlFiles fuel (tree s) [] ∅) as [[fs v]|].
Qed.

Lemma X16_text_only_witness :
  let s := mkState (Dir [(lit "real", Dir [(lit "deep",
                            Dir [(lit "a.html", File (lit "<a href=../b.html>"))])]);
                         (lit "alias", Link [lit "real"])]) [] 0 in
  let s' := mkState (Dir [(lit "real", Dir [(lit "deep",
                             Dir [(lit "a.html", File (lit "<a href=../../b.html>"))])]);
                          (lit "alias", Link [lit "real"])])
                    [[lit "alias"; lit "deep"; lit "a.html"]] 1 in
  fixPathsInHtml "/" [lit "alias"; lit "deep"; lit "a.html"] [] s = Some (Ok (), s') /\
  skeleton (tree s') = skeleton (tree s).
Proof.
  cbv zeta. split; [vm_compute; reflexivity|].
  apply (proj1 (X16_text_only "/"%char 0 [lit "alias"; lit "deep"; lit "a.html"] [] _) (Ok ())).
  vm_compute. reflexivity.
Defined.

(** X17. The two classes scan alike: with the tests on the name in a
    different order and the path joined before or after them, the
    [getAllHtmlFiles] of [RemoveFooterSection] returns the files, and
    leaves the set of visited directories, that the one of [PathFixer]
    does, or runs out of the same fuel. *)
Theorem X17_scanners_agree (fuel : nat) (t : node) (dir : path) (visited : gset path) :
  RemoveFooterSection.getAllHtmlFiles fuel t dir visited
  = PathFixer.getAllHtmlFiles fuel t dir visited.
Proof.
  revert dir visited. induction fuel as [|fuel IH]; intros dir visited; [done|].
  cbn [RemoveFooterSection.getAllHtmlFiles PathFixer.getAllHtmlFiles]. cbv zeta.
  destruct (bool_decide (dir ∈ visited)); [done|].
  destruct (readdir t dir) as [items|e]; [|done].
  by apply scanLoop_same.
Qed.


(** ** The widget the pattern finds *)

Module WidgetMatch.

(** A lazy star whose rest agrees on its result. *)
Lemma lazyK_agree {A} c (rest : str -> option A) run s R :
  Forall (fun y => accepts c y = true) run ->
  (forall u v, run = u ++ v -> rest (v ++ s) = None \/ rest (v ++ s) = Some R) ->
  (exists u v, run = u ++ v /\ rest (v ++ s) = Some R) ->
  lazyK c rest (run ++ s) = Some R.
Proof.
  intros Hrun. induction Hrun as [|y run Hy Hrun IH]; intros Hc (u & v & Huv & Hv).
  - symmetry in Huv. apply app_eq_nil in Huv as [-> ->]. cbn [app] in *.
    rewrite lazyK_here; [done|by eexists].
  - destruct (Hc [] (y :: run) eq_refl) as [E|E].
    + cbn [app] in E |- *. cbn [lazyK]. rewrite E, Hy. apply IH.
      * intros u0 v0 ->. by apply (Hc (y :: u0) v0).
      * destruct u as [|y' u].
        -- cbn [app] in Huv. subst v. cbn [app] in Hv. congruence.
        -- cbn [app] in Huv. injection Huv as <- ->. by exists u, v.
    + rewrite lazyK_here; [done|by eexists].
Qed.

Lemma matchFirst_unfold r s :
  matchFirst r s
  = match match_len r s with
    | Some n => Some (take n s)
    | None => match s with [] => None | _ :: s' => matchFirst r s' end
    end.
Proof. by destruct s. Qed.

Lemma matchFirst_skip r pre rest :
  (forall a1 x a2, pre = a1 ++ x :: a2 -> match_here r (x :: a2 ++ rest) = None) ->
  matchFirst r (pre ++ rest) = matchFirst r rest.
Proof.
  induction pre as [|c pre IH]; intros H; [done|].
  cbn [app matchFirst]. unfold match_len. rewrite (H [] c pre eq_refl).
  apply IH. intros a1 x a2 ->. by apply (H (c :: a1)).
Qed.

Lemma matchFirst_here r m post :
  match_here r (m ++ post) = Some post -> matchFirst r (m ++ post) = Some m.
Proof.
  intros H. rewrite matchFirst_unfold. unfold match_len. rewrite H.
  rewrite length_app. replace (length m + length post - length post) with (length m) by lia.
  by rewrite take_app_length.
Qed.

Lemma splitFirst_unfold p s :
  splitFirst p s
  = if startsWith p s then Some ([], drop (length p) s)
    else match s with
         | [] => None
         | c :: s' =>
             match splitFirst p s' with
             | Some (a, b) => Some (c :: a, b)
             | None => None
             end
         end.
Proof. by destruct s. Qed.

Lemma splitFirst_first (p x y : str) :
  0 < length p -> apart (map One p) p = true ->
  includes p x = false -> splitFirst p (x ++ p ++ y) = Some (x, y).
Proof.
  intros Hlen Hap. induction x as [|c x IH]; intros Hinc.
  - cbn [app]. by rewrite splitFirst_unfold, startsWith_app, drop_app_length.
  - cbn [app]. rewrite splitFirst_unfold. rewrite startsWith_before by done.
    rewrite IH; [done|]. cbn [includes] in Hinc.
    by apply orb_false_iff in Hinc as [_ Hinc].
Qed.

(** *** The parts of the widget pattern *)

Lemma reWidgetRest_parts : reWidgetRest = StarL AnyChar :: reWidgetScript.
Proof. reflexivity. Qed.

Lemma mem_suffix c (u v : str) : mem c (u ++ v) = false -> mem c v = false.
Proof. rewrite mem_app. intros H. by apply orb_false_iff in H as [_ H]. Qed.

(** The end of the line of the script tag, up to the closing tag. *)
Lemma widget_end z post :
  mem nl z = false -> mem cr z = false ->
  includes scriptClose z = false ->
  matchK reWidgetEnd Some (z ++ scriptClose ++ post) = Some post.
Proof.
  intros Hnl Hcr Hz. unfold reWidgetEnd. cbn [matchK].
  assert (Hhere : matchK (map C (map One scriptClose)) Some (scriptClose ++ post) = Some post).
  { rewrite <- (app_nil_r (map C (map One scriptClose))), matchK_fixed.
    rewrite fixedMatch_One, startsWith_app. cbn [matchK].
    by rewrite length_map, drop_app_length. }
  rewrite lazyK_run.
  - rewrite lazyK_here; [done|]. rewrite Hhere. by eexists.
  - by apply dot_run.
  - intros a1 x a2 ->.
    rewrite <- (app_nil_r (map C (map One scriptClose))), matchK_fixed.
    rewrite fixedMatch_One.
    rewrite startsWith_before; [done|cbn; lia|reflexivity|].
    by apply includes_suffix in Hz.
Qed.

(** The line of the script tag: the path of the translation service
    somewhere on it. *)
Lemma widget_line line post :
  includes elementPath line = true ->
  mem nl line = false -> mem cr line = false ->
  includes scriptClose line = false ->
  matchK reWidgetLine Some (line ++ scriptClose ++ post) = Some post.
Proof.
  intros Hpath Hnl Hcr Hclose. unfold reWidgetLine. cbn [matchK].
  assert (Hcand : forall u v, line = u ++ v ->
    startsWith elementPath (v ++ scriptClose ++ post) = true ->
    matchK (map C (map One elementPath) ++ reWidgetEnd) Some (v ++ scriptClose ++ post)
    = Some post).
  { intros u v Huv Hstart. rewrite matchK_fixed, fixedMatch_One, Hstart.
    destruct (startsWith elementPath v) eqn:Ev.
    - apply startsWith_spec in Ev as [z ->].
      rewrite length_map, <- app_assoc, drop_app_length.
      rewrite Huv in Hnl, Hcr, Hclose.
      apply mem_suffix, mem_suffix in Hnl. apply mem_suffix, mem_suffix in Hcr.
      apply includes_suffix, includes_suffix in Hclose.
      by apply widget_end.
    - change (scriptClose ++ post) with ("<"%char :: lit "/script>" ++ post) in Hstart.
      by rewrite startsWith_blocked in Hstart. }
  apply lazyK_agree.
  - by apply dot_run.
  - intros u v Huv.
    destruct (startsWith elementPath (v ++ scriptClose ++ post)) eqn:E.
    + right. by apply (Hcand u v).
    + left. by rewrite matchK_fixed, fixedMatch_One, E.
  - apply includes_spec in Hpath as (u & v & Huv).
    exists u, (elementPath ++ v). split; [done|].
    apply (Hcand u); [done|]. by rewrite <- app_assoc, startsWith_app.
Qed.

(** The pattern matches a widget, up to the closing tag of its script. *)
Lemma widget_here mid line post :
  includes scriptOpen mid = false ->
  includes elementPath line = true ->
  mem nl line = false -> mem cr line = false ->
  includes scriptClose line = false ->
  match_here reWidget (widgetOf mid line ++ post) = Some post.
Proof.
  intros Hmid Hpath Hnl Hcr Hclose.
  rewrite <- matchK_match_here, reWidget_container, matchK_fixed.
  unfold widgetOf. rewrite <- !app_assoc.
  rewrite fixedMatch_One, startsWith_app, length_map, drop_app_length.
  rewrite reWidgetRest_parts. cbn [matchK].
  assert (Hhere : matchK reWidgetScript Some (scriptOpen ++ line ++ scriptClose ++ post)
                  = Some post).
  { unfold reWidgetScript. rewrite matchK_fixed, fixedMatch_One, startsWith_app.
    rewrite length_map, drop_app_length. by apply widget_line. }
  rewrite lazyK_run.
  - rewrite lazyK_here; [done|]. rewrite Hhere. by eexists.
  - by apply Forall_forall.
  - intros a1 x a2 ->. unfold reWidgetScript. rewrite matchK_fixed, fixedMatch_One.
    rewrite startsWith_before; [done|cbn; lia|reflexivity|].
    by apply includes_suffix in Hmid.
Qed.

(** No match starts in a text without the container. *)
Lemma widget_not_before pre rest :
  includes container pre = false ->
  forall a1 x a2, pre = a1 ++ x :: a2 ->
    match_here reWidget (x :: a2 ++ container ++ rest) = None.
Proof.
  intros Hpre a1 x a2 ->.
  rewrite <- matchK_match_here, reWidget_container, matchK_fixed, fixedMatch_One.
  rewrite startsWith_before; [done|cbn; lia|reflexivity|].
  by apply includes_suffix in Hpre.
Qed.

End WidgetMatch.

Import WidgetMatch.


(** X18. What the widget pattern finds.  On a page whose first container
    element is followed, without another opening of a script tag with a
    source in between, by such a tag whose line holds the path
    [translate_a/element] and runs without a line break up to the first
    closing script tag, the match is the text from the container to that
    closing tag. *)
Theorem X18_widget_found (pre mid line post : str) :
  includes container pre = false ->
  includes scriptOpen mid = false ->
  includes elementPath line = true ->
  mem nl line = false -> mem cr line = false ->
  includes scriptClose line = false ->
  matchFirst reWidget (pre ++ widgetOf mid line ++ post) = Some (widgetOf mid line).
Proof.
  intros Hpre Hmid Hpath Hnl Hcr Hclose.
  rewrite matchFirst_skip.
  - apply matchFirst_here. by apply widget_here.
  - intros a1 x a2 Hx. unfold widgetOf. rewrite <- !app_assoc.
    by apply (widget_not_before pre _ Hpre a1).
Qed.

Lemma X18_widget_found_witness :
  matchFirst reWidget
    (lit "<body><p>text</p>"
     ++ quoted ["<div id="; "google_translate_element"; "></div>"]
     ++ nl :: lit "<script>function init() {}</script>" ++ [nl]
     ++ quoted ["<script src="; "//translate.google.com/translate_a/element.js?cb=init";
                "></script>"]
     ++ lit "</body>")
  = Some (quoted ["<div id="; "google_translate_element"; "></div>"]
          ++ nl :: lit "<script>function init() {}</script>" ++ [nl]
          ++ quoted ["<script src="; "//translate.google.com/translate_a/element.js?cb=init";
                     "></script>"]).
Proof.
  pose proof (X18_widget_found (lit "<body><p>text</p>")
    (nl :: lit "<script>function init() {}</script>" ++ [nl])
    (lit "//translate.google.com/translate_a/element.js?cb=init" ++ dq :: lit ">")
    (lit "</body>") eq_refl eq_refl eq_refl eq_refl eq_refl eq_refl) as H.
  exact H.
Defined.



(** ** What a file holds after a pass *)

Module ReadBack.

(** Two listings with the same names, kinds and links answer a name
    alike. *)
Lemma find_skeleton n (es es' : list (name * node)) :
  map (fun e => (e.1, skeleton e.2)) es = map (fun e => (e.1, skeleton e.2)) es' ->
  match find n es, find n es' with
  | Some c, Some c' => skeleton c = skeleton c'
  | None, None => True
  | _, _ => False
  end.
Proof.
  revert es'. induction es as [|[m c] es IH]; intros [|[m' c'] es']; cbn [map find];
    try done.
  cbn [fst snd]. intros [= -> Hc Hes]. destruct (nameEqb n m'); [done|by apply IH].
Qed.

(** A walk depends on the directories, the names and the links only. *)
Lemma walk_skeleton todo : forall cur cur' sofar,
  skeleton cur = skeleton cur' ->
  match walk cur sofar todo, walk cur' sofar todo with
  | Reached p c, Reached p' c' => p = p' /\ skeleton c = skeleton c'
  | Jump t, Jump t' => t = t'
  | Lost e, Lost e' => e = e'
  | _, _ => False
  end.
Proof.
  induction todo as [|n todo IH]; intros cur cur' sofar H;
    destruct cur as [c|es|t], cur' as [c'|es'|t']; try discriminate H;
    cbn [walk].
  - by split.
  - by split.
  - cbn [skeleton] in H. by injection H as ->.
  - reflexivity.
  - cbn [skeleton] in H. injection H as H.
    pose proof (find_skeleton n es es' H) as Hf.
    destruct (find n es) as [x|], (find n es') as [x'|]; try done. by apply IH.
  - cbn [skeleton] in H. by injection H as ->.
Qed.

Lemma resolve_skeleton hops root root' : forall p,
  skeleton root = skeleton root' ->
  match resolve hops root p, resolve hops root' p with
  | Ok (q, c), Ok (q', c') => q = q' /\ skeleton c = skeleton c'
  | Throw e, Throw e' => e = e'
  | _, _ => False
  end.
Proof.
  induction hops as [|h IH]; intros p H; cbn [resolve];
    pose proof (walk_skeleton p root root' [] H) as Hw;
    destruct (walk root [] p) as [q c|t|e], (walk root' [] p) as [q' c'|t'|e'];
    try done.
  subst t'. by apply IH.
Qed.

(** The entry put at a path is the entry found there. *)
Lemma get_alter_put parent : forall t n v c0,
  get t (parent ++ [n]) = Some c0 ->
  get (alter (put n v) parent t) (parent ++ [n]) = Some v.
Proof.
  induction parent as [|m parent IH]; intros t n v c0 Hget;
    destruct t as [?|es|?]; try done.
  - rewrite alter_nil. cbn [app get]. by rewrite find_put_eq.
  - rewrite alter_cons. cbn [app get] in Hget |- *. rewrite find_mapEntry_eq.
    destruct (find m es) as [c|]; [|done]. cbn [fmap option_fmap option_map].
    by apply (IH c n v c0).
Qed.

Lemma get_putAt t q v c0 : get t q = Some c0 -> get (putAt q v t) q = Some v.
Proof.
  intros Hget. unfold putAt. destruct q as [|n q]; [done|].
  destruct (unsnoc_snoc (n :: q)) as (parent & m & -> & E); [done|].
  rewrite E in Hget |- *. by apply (get_alter_put parent t m v c0).
Qed.

(** A file that was read and then written holds the text written. *)
Lemma readFile_written t p c0 c t' :
  readFile t p = Ok c0 -> writeFile t p c = Ok t' -> readFile t' p = Ok c.
Proof.
  unfold readFile, writeFile.
  destruct (stat t p) as [[q [c1|?|?]]|?] eqn:Hstat; try done.
  intros _ [= <-]. pose proof (stat_get _ _ _ _ Hstat) as Hget.
  pose proof (resolve_skeleton maxHops (putAt q (File c) t) t p
                (skeleton_putAt t q c c1 Hget)) as Hres.
  fold (stat (putAt q (File c) t) p) in Hres. fold (stat t p) in Hres.
  rewrite Hstat in Hres.
  destruct (stat (putAt q (File c) t) p) as [[q' x]|e] eqn:Hstat'; [|done].
  destruct Hres as [-> Hx]. apply stat_get in Hstat'.
  rewrite (get_putAt t q (File c) (File c1) Hget) in Hstat'. by injection Hstat' as <-.
Qed.

(** After [fixPathsInHtml] a file that could be read holds the text
    rewritten for its depth. *)
Lemma fixPathsInHtml_result sep filePath rootPath s content :
  readFile (tree s) filePath = Ok content ->
  exists s',
    fixPathsInHtml sep filePath rootPath s = Some (Ok (), s') /\
    readFile (tree s') filePath
    = Ok (fixContent (depthOf sep (relative sep rootPath filePath)) content).
Proof.
  intros Hr. rewrite (fixPathsInHtml_run sep filePath rootPath s content Hr). cbv zeta.
  set (fixed := fixContent _ content).
  destruct (bool_decide (fixed <> content)) eqn:E.
  - destruct (readFile_writeFile _ _ _ fixed Hr) as [t' Hw]. rewrite Hw.
    eexists. split; [done|]. cbn [tree]. by apply (readFile_written _ _ content _ _ Hr).
  - apply bool_decide_eq_false in E. apply dec_stable in E.
    exists s. split; [done|]. by rewrite E.
Qed.

(** After [processFile] on a page from which the removal took something,
    the file holds the text computed, and the write is logged and
    counted. *)
Lemma processFile_result filePath s content output :
  readFile (tree s) filePath = Ok content ->
  processContent content = (output, true) ->
  exists s',
    processFile filePath s = Some (Ok (Success true), s') /\
    readFile (tree s') filePath = Ok output /\
    wrote s s' [filePath].
Proof.
  intros Hr Hp. rewrite (processFile_run filePath s content Hr), Hp. cbn [fst snd].
  destruct (readFile_writeFile _ _ _ output Hr) as [t' Hw]. rewrite Hw.
  eexists. split; [done|]. cbn [tree]. split.
  - by apply (readFile_written _ _ content _ _ Hr).
  - split; cbn [writes processedFiles length]; [done|lia].
Qed.

End ReadBack.

Import ReadBack.

(** ** The substitutions in the file processed *)

Module PassFacts.

(** A quote before the old domain directory given from the root. *)
Lemma fixContent_quote_abs d q pre post :
  q = dq \/ q = sq ->
  fixContent d (pre ++ q :: lit "/www.miracles-of-quran.com/" ++ post)
  = fixContent d pre ++ dq :: lit "/" ++ fixContent d post.
Proof.
  intros Hq. unfold fixContent. rewrite !fixTraversal_subst, !fixDomain_subst.
  unfold subSrc, subHref, subRel, subAbs.
  change (pre ++ q :: lit "/www.miracles-of-quran.com/" ++ post)
    with (pre ++ (q :: lit "/www.miracles-of-quran.com/") ++ post).
  rewrite (sub_inert ksTraversal);
    [|simpl; lia|destruct Hq as [-> | ->]; reflexivity..].
  rewrite (sub_occurrence ksAbsDomain);
    [|simpl; lia|destruct Hq as [-> | ->]; reflexivity..].
  change (dq :: lit "/" ++ ?x) with ((dq :: lit "/") ++ x).
  rewrite (sub_inert ksRelDomain); [|simpl; lia|reflexivity..].
  rewrite (sub_inert ksHref); [|simpl; lia|reflexivity..].
  rewrite (sub_inert ksSrc); [|simpl; lia|reflexivity..].
  done.
Qed.

(** A quote before the old domain directory given as a relative path. *)
Lemma fixContent_quote_rel d q pre post :
  q = dq \/ q = sq ->
  fixContent d (pre ++ q :: lit "www.miracles-of-quran.com/" ++ post)
  = fixContent d pre ++ dq :: lit "./" ++ fixContent d post.
Proof.
  intros Hq. unfold fixContent. rewrite !fixTraversal_subst, !fixDomain_subst.
  unfold subSrc, subHref, subRel, subAbs.
  change (pre ++ q :: lit "www.miracles-of-quran.com/" ++ post)
    with (pre ++ (q :: lit "www.miracles-of-quran.com/") ++ post).
  rewrite (sub_inert ksTraversal);
    [|simpl; lia|destruct Hq as [-> | ->]; reflexivity..].
  rewrite (sub_inert ksAbsDomain);
    [|simpl; lia|destruct Hq as [-> | ->]; reflexivity..].
  rewrite (sub_occurrence ksRelDomain);
    [|simpl; lia|destruct Hq as [-> | ->]; reflexivity..].
  change (dq :: lit "./" ++ ?x) with ((dq :: lit "./") ++ x).
  rewrite (sub_inert ksHref); [|simpl; lia|reflexivity..].
  rewrite (sub_inert ksSrc); [|simpl; lia|reflexivity..].
  done.
Qed.

End PassFacts.

Import PassFacts.

(** C1.  For a file processed by [fixPathsInHtml], the depth is the
    number of segments of its path relative to the root, minus one.  A
    file that holds an occurrence of the parent-traversal token holds
    after the call, in the place of that occurrence, [./] when the depth
    is 0, [../] when it is 1 and [d] copies of [../] when it is [d >= 2]
    (two copies at depth 2, three at depth 3), between the texts to which
    the text before and the text after the occurrence are rewritten on
    their own, so that the same holds of every occurrence in them; in
    general the file holds after the call the text of all the
    substitutions at its depth.  The traversal step alone rewrites in the
    same way, and leaves a text without the token as it is. *)
Theorem C1_depth_rule (sep : ascii) (s : state) (rootPath segments : path)
    (pre post content : str) :
  let filePath := rootPath ++ segments in
  let relativePath := relative sep rootPath filePath in
  let d := depthOf sep relativePath in
  length (split sep relativePath) = S d /\
  (segments <> [] -> Forall (fun n => mem sep n = false) segments ->
   d = length segments - 1) /\
  (readFile (tree s) filePath = Ok (pre ++ lit "../" ++ post) ->
   exists s',
     PathFixer.fixPathsInHtml sep filePath rootPath s = Some (Ok (), s') /\
     readFile (tree s') filePath
     = Ok (fixContent d pre ++ specReplacement d ++ fixContent d post)) /\
  (readFile (tree s) filePath = Ok content ->
   exists s',
     PathFixer.fixPathsInHtml sep filePath rootPath s = Some (Ok (), s') /\
     readFile (tree s') filePath = Ok (fixContent d content)) /\
  fixTraversal d (pre ++ lit "../" ++ post)
  = fixTraversal d pre ++ specReplacement d ++ fixTraversal d post /\
  fixContent d (pre ++ lit "../" ++ post)
  = fixContent d pre ++ specReplacement d ++ fixContent d post /\
  (includes (lit "../") content = false -> fixTraversal d content = content) /\
  specReplacement 0 = lit "./" /\
  specReplacement 1 = lit "../" /\
  specReplacement 2 = lit "../../" /\
  specReplacement 3 = lit "../../../" /\
  (2 <= d -> specReplacement d = repeat (lit "../") d).
Proof.
  intros filePath relativePath d.
  split; [|split; [|split; [|split; [|split; [|split; [|split]]]]]].
  - unfold d, depthOf. pose proof (split_length sep relativePath). lia.
  - intros Hne HF. by apply depthOf_below.
  - intros Hr.
    destruct (fixPathsInHtml_result sep filePath rootPath s _ Hr) as (s' & Hrun & Hread).
    exists s'. split; [done|]. fold relativePath in Hread. fold d in Hread.
    by rewrite fixContent_occurrence in Hread.
  - intros Hr. by apply fixPathsInHtml_result.
  - rewrite !fixTraversal_subst. apply sub_occurrence; [simpl; lia|done..].
  - apply fixContent_occurrence.
  - intros H. apply fixTraversal_no_match. by right.
  - repeat split; try done. intros H. destruct d as [|[|d']]; [lia|lia|done].
Qed.

Lemma C1_depth_rule_witness :
  let page := lit "<a href=" ++ dq :: lit "../a.html" ++ dq :: lit ">" in
  let filePath := [lit "a"; lit "b"; lit "c.html"] in
  let s := mkState (Dir [(lit "a", Dir [(lit "b", Dir [(lit "c.html", File page)])])]) [] 0 in
  depthOf "/" (relative "/" [] filePath) = 2 /\
  (exists s',
     PathFixer.fixPathsInHtml "/" filePath [] s = Some (Ok (), s') /\
     readFile (tree s') filePath
     = Ok (lit "<a href=" ++ dq :: lit "../../a.html" ++ dq :: lit ">")) /\
  fixTraversal 2 (lit "css/site.css") = lit "css/site.css" /\
  specReplacement 2 = repeat (lit "../") 2.
Proof.
  intros page filePath s.
  pose proof (C1_depth_rule "/" s [] filePath
                (lit "<a href=" ++ [dq]) (lit "a.html" ++ dq :: lit ">")
                (lit "css/site.css"))
    as (_ & H1 & H2 & _ & _ & _ & H3 & _ & _ & _ & _ & H8).
  split; [apply H1; [done|by repeat constructor]|].
  split; [exact (H2 eq_refl)|].
  split; [apply H3; reflexivity|]. apply H8. vm_compute. lia.
Defined.

(** C10.  In [fixPathsInHtml], a double or a single quote followed by
    [/www.miracles-of-quran.com/] becomes a double quote and a slash, and
    one followed by [www.miracles-of-quran.com/] becomes a double quote, a
    dot and a slash: through all the substitutions, at any depth, and in
    the file processed, which holds after the call the replacement
    between the texts to which the text before and the text after the
    occurrence are rewritten on their own, so that the same holds of
    every occurrence in them.  The quote of the input is not kept. *)
Theorem C10_quote_replaced (d : nat) (sep : ascii) (s : state) (filePath rootPath : path)
    (q : ascii) (pre post : str) :
  q = dq \/ q = sq ->
  let depth := depthOf sep (relative sep rootPath filePath) in
  fixContent d (pre ++ q :: lit "/www.miracles-of-quran.com/" ++ post)
  = fixContent d pre ++ dq :: lit "/" ++ fixContent d post /\
  fixContent d (pre ++ q :: lit "www.miracles-of-quran.com/" ++ post)
  = fixContent d pre ++ dq :: lit "./" ++ fixContent d post /\
  (readFile (tree s) filePath = Ok (pre ++ q :: lit "/www.miracles-of-quran.com/" ++ post) ->
   exists s',
     PathFixer.fixPathsInHtml sep filePath rootPath s = Some (Ok (), s') /\
     readFile (tree s') filePath
     = Ok (fixContent depth pre ++ dq :: lit "/" ++ fixContent depth post)) /\
  (readFile (tree s) filePath = Ok (pre ++ q :: lit "www.miracles-of-quran.com/" ++ post) ->
   exists s',
     PathFixer.fixPathsInHtml sep filePath rootPath s = Some (Ok (), s') /\
     readFile (tree s') filePath
     = Ok (fixContent depth pre ++ dq :: lit "./" ++ fixContent depth post)).
Proof.
  intros Hq depth.
  split; [by apply fixContent_quote_abs|]. split; [by apply fixContent_quote_rel|].
  split; intros Hr;
    destruct (fixPathsInHtml_result sep filePath rootPath s _ Hr) as (s' & Hrun & Hread);
    exists s'; (split; [done|]); fold depth in Hread.
  - by rewrite fixContent_quote_abs in Hread.
  - by rewrite fixContent_quote_rel in Hread.
Qed.

Lemma C10_quote_replaced_witness :
  let s := mkState (Dir [(lit "index.html",
                          File (lit "<a href='www.miracles-of-quran.com/a.html'>"))]) [] 0 in
  fixContent 0 (lit "<a href='www.miracles-of-quran.com/a.html'>")
  = lit "<a href=" ++ dq :: lit "./a.html'>" /\
  exists s',
    PathFixer.fixPathsInHtml "/" [lit "index.html"] [] s = Some (Ok (), s') /\
    readFile (tree s') [lit "index.html"] = Ok (lit "<a href=" ++ dq :: lit "./a.html'>").
Proof.
  intros s.
  pose proof (C10_quote_replaced 0 "/" s [lit "index.html"] [] sq (lit "<a href=")
                (lit "a.html'>") (or_intror eq_refl)) as (_ & H & _ & Hfile).
  split; [exact H|]. exact (Hfile eq_refl).
Defined.

(** ** The scan and the links *)

Module VisitedFacts.

Lemma scanLoop_added (rec : path -> gset path -> option (list path * gset path))
    (dir : path) (items : list (name * node)) (files : list path)
    (visited : gset path) (out : list path) (visited' : gset path) :
  (forall (nm : name) v found v', rec (dir ++ [nm]) v = Some (found, v') ->
     forall p, p ∈ v' -> p ∈ v \/ (dir ++ [nm]) `prefix_of` p) ->
  scanLoop rec dir items files visited = Some (out, visited') ->
  forall p, p ∈ visited' -> p ∈ visited \/ dir `prefix_of` p.
Proof.
  intros Hrec. revert files visited.
  induction items as [|[nm item] items IH]; intros files visited H p Hp;
    cbn [scanLoop] in H; cbv zeta in H.
  - injection H as _ <-. by left.
  - destruct (skipped nm); [by eapply IH|].
    destruct (isDirectory (kindOf item)).
    + destruct (rec (dir ++ [nm]) visited) as [[found v']|] eqn:Er; [|done].
      destruct (IH _ _ H p Hp) as [Hv|Hv]; [|by right].
      destruct (Hrec nm _ _ _ Er p Hv) as [Hv'|Hv']; [by left|right].
      by eapply prefix_snoc_below.
    + destruct (endsWith (lit ".html") nm); by eapply IH.
Qed.

(** The paths a call adds to the set of visited directories are paths
    below the one it was given, as they were walked. *)
Lemma getAllHtmlFiles_added t fuel : forall dir visited files visited',
  getAllHtmlFiles fuel t dir visited = Some (files, visited') ->
  forall p, p ∈ visited' -> p ∈ visited \/ dir `prefix_of` p.
Proof.
  induction fuel as [|fuel IH]; intros dir visited files visited' H p Hp; [done|].
  rewrite getAllHtmlFiles_step in H.
  destruct (bool_decide (dir ∈ visited)) eqn:E.
  - injection H as _ <-. by left.
  - assert (Hfirst : forall p, p ∈ ({[dir]} ∪ visited : gset path) ->
                       p ∈ visited \/ dir `prefix_of` p).
    { intros p' Hp'. apply elem_of_union in Hp' as [Hp'|Hp']; [right|by left].
      by apply elem_of_singleton in Hp' as ->. }
    destruct (readdir t dir) as [items|].
    + destruct (scanLoop_added _ _ _ _ _ _ _ (fun nm v found v' Hr => IH _ _ _ _ Hr)
                  H p Hp) as [Hv|Hv]; [by apply Hfirst|by right].
    + injection H as _ <-. by apply Hfirst.
Qed.

End VisitedFacts.

Import VisitedFacts.

(** C8, as the specification states it, fails in the reason it gives:
    the set of visited directories holds the paths as [path.resolve]
    makes them, with the links in them, and not the paths of the
    directories themselves.  In a site whose directory [pages] holds a
    link [up] to the root, [pages/up/pages] is the directory [pages];
    after a scan of [pages], which puts [pages] in the set, a scan of
    [pages/up/pages] with that set does not skip the directory: it lists
    the same files again under the other name and adds the other name to
    the set. *)
Lemma C8_counterexample :
  let pages := [lit "pages"] in
  let again := [lit "pages"; lit "up"; lit "pages"] in
  (exists es, stat cyclicSite pages = Ok (pages, Dir es) /\
              stat cyclicSite again = Ok (pages, Dir es)) /\
  getAllHtmlFiles 3 cyclicSite pages ∅
  = Some ([pages ++ [lit "a.html"]; pages ++ [lit "home.html"]], {[ pages ]}) /\
  getAllHtmlFiles 3 cyclicSite again {[ pages ]}
  = Some ([again ++ [lit "a.html"]; again ++ [lit "home.html"]], {[ again; pages ]}).
Proof.
  split; [eexists; split; vm_compute; reflexivity|].
  split; vm_compute; reflexivity.
Qed.

(** C8, amended.  On a tree whose directories list no name twice, with
    symbolic links to any place (an ancestor too), [getAllHtmlFiles]
    returns as soon as its fuel is above the height of the tree, because
    the recursion enters the entries reported as directories only and a
    link is reported as a link: no file is listed twice, and every listed
    file is an entry reached from the scanned directory through
    directories, none of them a link.  The set of visited directories
    holds the paths made absolute by [path.resolve], in which links are
    not resolved: the directory scanned is added to it under the path
    given, a directory already in it under that path is skipped, and
    every path added is the path given followed by the names walked. *)
Theorem C8_cycle_safety (t : node) (fuel : nat) (dir : path) (visited : gset path) :
  wf t = true -> height t < fuel ->
  exists files visited',
    getAllHtmlFiles fuel t dir visited = Some (files, visited') /\
    NoDup files /\
    (forall f, f ∈ files ->
       exists q c dirs file es x,
         stat t dir = Ok (q, c) /\ f = dir ++ dirs ++ [file] /\
         get c dirs = Some (Dir es) /\ find file es = Some x /\ isDir x = false) /\
    {[dir]} ∪ visited ⊆ visited' /\
    (dir ∈ visited -> files = [] /\ visited' = visited) /\
    (forall p, p ∈ visited' -> p ∈ visited \/ dir `prefix_of` p).
Proof.
  intros Hw Hh.
  destruct (getAllHtmlFiles_total_root t fuel dir visited Hw Hh) as [[files visited'] H].
  exists files, visited'. split; [done|]. split; [by eapply getAllHtmlFiles_NoDup|].
  split; [|split; [by eapply getAllHtmlFiles_visited|split]].
  - intros f Hin. destruct (stat t dir) as [[q c]|e] eqn:Hs.
    + assert (wf c = true) as Hwc by (eapply wf_get; [done|by eapply stat_get]).
      pose proof (getAllHtmlFiles_direct _ _ _ _ _ _ _ _ Hs Hwc H) as Hd.
      rewrite Forall_forall in Hd.
      destruct (Hd f Hin) as (dirs & file & es & x & ? & ? & ? & ?).
      by exists q, c, dirs, file, es, x.
    + destruct fuel as [|fuel']; [lia|]. rewrite getAllHtmlFiles_step in H.
      destruct (bool_decide (dir ∈ visited)).
      * injection H as <- _. by apply elem_of_nil in Hin.
      * rewrite readdir_stat, Hs in H. injection H as <- _. by apply elem_of_nil in Hin.
  - by eapply getAllHtmlFiles_visited.
  - by eapply getAllHtmlFiles_added.
Qed.

Lemma C8_cycle_safety_witness :
  wf cyclicSite = true /\ height cyclicSite < 3 /\
  exists files visited',
    getAllHtmlFiles 3 cyclicSite [] ∅ = Some (files, visited') /\ NoDup files /\
    forall p, p ∈ visited' -> p ∈ (∅ : gset path) \/ [] `prefix_of` p.
Proof.
  assert (wf cyclicSite = true) as Hw by reflexivity.
  assert (height cyclicSite < 3) as Hh by (vm_compute; lia).
  split; [exact Hw|]. split; [exact Hh|].
  destruct (C8_cycle_safety cyclicSite 3 [] ∅ Hw Hh)
    as (files & visited' & H & Hn & _ & _ & _ & Hp).
  by exists files, visited'.
Defined.

(** ** Pages with several footer sections *)

Module PageFacts.

Lemma pageOf_cons p ps last : pageOf (p :: ps) last = partText p ++ pageOf ps last.
Proof. done. Qed.

Lemma outsideOf_cons p ps last :
  outsideOf (p :: ps) last = partBefore p ++ outsideOf ps last.
Proof. done. Qed.

(** The sections make the page longer than the text outside them. *)
Lemma pageOf_longer ps last :
  ps <> [] -> length (outsideOf ps last) < length (pageOf ps last).
Proof.
  assert (Hle : forall qs, length (outsideOf qs last) <= length (pageOf qs last)).
  { induction qs as [|q qs IH]; [done|].
    rewrite pageOf_cons, outsideOf_cons. unfold partText.
    rewrite !length_app. lia. }
  destruct ps as [|p ps]; [done|]. intros _.
  rewrite pageOf_cons, outsideOf_cons. unfold partText, footerSection.
  rewrite !length_app. cbn [length]. pose proof (Hle ps). lia.
Qed.

Lemma pageOf_marker ps last : ps <> [] -> includes footerMarker (pageOf ps last) = true.
Proof.
  destruct ps as [|p ps]; [done|]. intros _. apply includes_spec.
  exists (partBefore p ++ lit "<section" ++ partAttrs1 p),
    (partAttrs2 p ++ ">"%char :: partBody p ++ lit "</section>" ++ pageOf ps last).
  rewrite pageOf_cons. unfold partText, footerSection. by reassoc.
Qed.

(** The replacement removes the footer sections and nothing else. *)
Lemma footers_removed ps last :
  forallb partOk ps = true ->
  includes footerMarker (outsideOf ps last) = false ->
  replaceAll reFooter [] (pageOf ps last) = outsideOf ps last.
Proof.
  intros Hok Hout. rewrite replaceAll_plain by done.
  induction ps as [|p ps IH].
  - cbn [pageOf outsideOf foldr] in *. rewrite <- replaceAll_plain by done.
    by rewrite replaceAll_no_match by by apply footer_no_marker.
  - cbn [forallb] in Hok. apply andb_true_iff in Hok as [Hp Hok].
    unfold partOk in Hp. apply andb_true_iff in Hp as [Hp Hbody].
    apply andb_true_iff in Hp as [Hp H2]. apply andb_true_iff in Hp as [Hsealed H1].
    apply negb_true_iff in Hbody, H1, H2.
    rewrite outsideOf_cons in Hout |- *.
    apply includes_app_false in Hout as [Hbefore Hout].
    rewrite pageOf_cons. unfold partText. rewrite <- app_assoc.
    rewrite subst_copy.
    + rewrite subst_match.
      * cbn [app]. by rewrite IH.
      * by unfold footerSection.
      * by apply footer_at_section.
    + intros a x b Hab. unfold footerSection. rewrite <- !app_assoc.
      by apply (footer_not_before (partBefore p) _ Hbefore Hsealed a x b).
Qed.

End PageFacts.

Import PageFacts.

(** C4, as the specification states it, fails.  (1) With the widget after
    the footer section, the widget stays where it is and a second copy is
    put before the closing body tag.  (2) With the marker on another tag
    than [section], nothing is removed and the marker stays.  (3) With
    the closing body tag in capitals, the footer is removed with the
    widget in it and the widget is put nowhere.  (4) With a dollar and
    an ampersand in the widget, the copy put before the closing body tag
    holds a closing body tag in their place: the widget as it was is not
    in the output.  (5) With the marker inside the widget, the copy put
    back brings the marker with it.  (6) With the two halves of the
    marker on the two sides of the footer section, the removal joins
    them: every marker of the page lay in the section removed, and the
    output holds the marker. *)
Lemma C4_counterexample :
  let page1 := lit "<body><section class='cid-tJkSLE66e9'>footer</section>"
               ++ sampleWidget ++ lit "</body>" in
  let page2 := lit "<body><div class='cid-tJkSLE66e9'>footer"
               ++ sampleWidget ++ lit "</div></body>" in
  let page3 := lit "<BODY><section class='cid-tJkSLE66e9'>" ++ sampleWidget
               ++ lit "</section></BODY>" in
  let widget4 := quoted ["<div id="; "google_translate_element";
                         "></div><script>x='$&';</script><script src=";
                         "//translate.google.com/translate_a/element.js"; "></script>"] in
  let page4 := lit "<body><section class='cid-tJkSLE66e9'>" ++ widget4
               ++ lit "</section></body>" in
  let widget5 := quoted ["<div id="; "google_translate_element";
                         "></div><!-- cid-tJkSLE66e9 --><script src=";
                         "//translate.google.com/translate_a/element.js"; "></script>"] in
  let page5 := lit "<body><section class='cid-tJkSLE66e9'>" ++ widget5
               ++ lit "</section></body>" in
  let page6 := lit "<body>cid-tJk<section class='cid-tJkSLE66e9'>" ++ sampleWidget
               ++ lit "</section>SLE66e9</body>" in
  (includes footerMarker page1 = true /\
   matchFirst reWidget page1 = Some sampleWidget /\
   (processContent page1).1
   = lit "<body>" ++ sampleWidget ++ wrapper sampleWidget /\
   count (map One container) (processContent page1).1 = 2) /\
  (includes footerMarker page2 = true /\
   matchFirst reWidget page2 = Some sampleWidget /\
   processContent page2 = (page2, false) /\
   includes footerMarker (processContent page2).1 = true) /\
  (includes footerMarker page3 = true /\
   matchFirst reWidget page3 = Some sampleWidget /\
   processContent page3 = (lit "<BODY></BODY>", true) /\
   includes container (processContent page3).1 = false) /\
  (includes footerMarker page4 = true /\
   matchFirst reWidget page4 = Some widget4 /\
   (processContent page4).2 = true /\
   includes widget4 (processContent page4).1 = false) /\
  (includes footerMarker page5 = true /\
   matchFirst reWidget page5 = Some widget5 /\
   (processContent page5).2 = true /\
   includes footerMarker (processContent page5).1 = true) /\
  (count (map One footerMarker) page6 = 1 /\
   includes footerMarker (lit "<body>cid-tJk") = false /\
   includes footerMarker (lit "SLE66e9</body>") = false /\
   matchFirst reWidget page6 = Some sampleWidget /\
   (processContent page6).1
   = lit "<body>cid-tJkSLE66e9" ++ wrapper sampleWidget /\
   includes footerMarker (processContent page6).1 = true).
Proof. repeat split; vm_compute; reflexivity. Qed.

(** C4, amended.  Let the page be made of footer sections, at least one,
    each after a text, and of the text after the last of them, where a
    footer section is a section element with the marker inside its
    opening tag, from the first opening of a section tag that the text
    before it leaves open to the first closing section tag after the
    marker.  Let the page hold a widget fragment [w] (the first match
    of the widget pattern), without the marker and without a dollar, and
    let the text outside the footer sections, read in one piece, hold
    neither the marker nor the container element, and hold a closing
    body tag.  Then the replacement leaves exactly the text outside the
    sections; the text [processFile] writes to the file is that text with
    the template around [w] in the place of its first closing body tag,
    the template ending with the closing body tag; the output holds no
    marker; [w] starts with the container element, and the container
    occurs in the output as often as in [w], at least once: in the copy
    put back and nowhere else. *)
Theorem C4_footer_and_widget (s : state) (filePath : path) (ps : list footerPart)
    (last w t1 t2 : str) :
  let content := pageOf ps last in
  let outside := outsideOf ps last in
  let output := t1 ++ wrapperHead ++ w ++ wrapperTail ++ t2 in
  ps <> [] -> forallb partOk ps = true ->
  matchFirst reWidget content = Some w ->
  includes footerMarker outside = false ->
  includes container outside = false ->
  outside = t1 ++ lit "</body>" ++ t2 ->
  includes (lit "</body>") t1 = false ->
  includes footerMarker w = false ->
  includes (lit "$") w = false ->
  includes footerMarker content = true /\
  replaceAll reFooter [] content = outside /\
  processContent content = (output, true) /\
  (readFile (tree s) filePath = Ok content ->
   exists s',
     processFile filePath s = Some (Ok (Success true), s') /\
     readFile (tree s') filePath = Ok output /\
     wrote s s' [filePath]) /\
  (exists tail', wrapperTail = tail' ++ lit "</body>") /\
  includes footerMarker output = false /\
  startsWith container w = true /\
  count (map One container) output = count (map One container) w /\
  1 <= count (map One container) w.
Proof.
  intros content outside output Hps Hok Hw Hclean Hnoc Hsplit Ht1 Hwm Hwd.
  (* the widget *)
  rewrite reWidget_container in Hw.
  pose proof Hw as Hw'. apply matchFirst_fixed in Hw' as [Hwc Hwl].
  rewrite <- reWidget_container in Hw.
  assert (plain w = true) as Hplain by by apply plain_no_dollar.
  (* the removal *)
  assert (Hmark : includes footerMarker content = true) by by apply pageOf_marker.
  assert (Hrem : replaceAll reFooter [] content = outside) by by apply footers_removed.
  assert (Hchanged : replaceAll reFooter [] content <> content).
  { rewrite Hrem. intros E. apply (f_equal length) in E.
    pose proof (pageOf_longer ps last Hps). unfold outside, content in E. lia. }
  (* the text computed *)
  assert (Hrun : processContent content = (output, true)).
  { rewrite (processContent_widget content w Hw Hmark Hchanged), Hrem, Hsplit. f_equal.
    unfold replaceFirst.
    rewrite splitFirst_first; [|cbn; lia|reflexivity|done].
    rewrite expand_plain by by apply plain_wrapper.
    unfold output. by rewrite wrapper_pieces, <- !app_assoc. }
  (* nothing of the marker or of the container outside the widget *)
  rewrite Hsplit in Hclean, Hnoc.
  apply includes_app_false in Hclean as [Hpre_m Hclean].
  apply includes_app_false in Hclean as [_ Hpost_m].
  apply includes_app_false in Hnoc as [Hpre_c Hnoc].
  apply includes_app_false in Hnoc as [_ Hpost_c].
  assert (forall l, 0 < length l ->
            apart (map One l) wrapperHead = true -> closed (map One l) wrapperHead = true ->
            apart (map One l) wrapperTail = true -> closed (map One l) wrapperTail = true ->
            includes l t1 = false -> includes l t2 = false ->
            count (map One l) output = count (map One l) w)
    as Hcount.
  { intros l Hl Hah Hch Hat Hct Hp Hq. unfold output.
    assert (0 < length (map One l)) as Hl' by by rewrite length_map.
    rewrite count_inert by done. rewrite count_inert by done.
    apply count_includes in Hp, Hq; try done. lia. }
  split; [done|]. split; [done|]. split; [done|].
  split; [intros Hr; by apply (processFile_result filePath s content)|].
  split; [by eexists (take (length wrapperTail - 7) wrapperTail)|].
  split; [|split; [|split]].
  - apply count_includes; [simpl; lia|].
    rewrite (Hcount footerMarker); try done; [|simpl; lia].
    apply count_includes; [simpl; lia|done].
  - by rewrite <- fixedMatch_One.
  - apply (Hcount container); try done. simpl; lia.
  - rewrite <- (app_nil_r w). apply count_positive; [done|].
    rewrite length_map in Hwl. simpl in Hwl. lia.
Qed.

Lemma C4_footer_and_widget_witness :
  let page := lit "<html><body><section class='cid-tJkSLE66e9'><p>old</p></section>"
              ++ lit "<p>text</p><section class='cid-tJkSLE66e9' id='f'><div>foot</div>"
              ++ sampleWidget ++ lit "</section></body></html>" in
  let output := lit "<html><body><p>text</p>" ++ wrapperHead ++ sampleWidget
                ++ wrapperTail ++ lit "</html>" in
  let s := mkState (Dir [(lit "page.html", File page)]) [] 0 in
  processContent page = (output, true) /\
  (exists s',
     processFile [lit "page.html"] s = Some (Ok (Success true), s') /\
     readFile (tree s') [lit "page.html"] = Ok output /\
     wrote s s' [[lit "page.html"]]) /\
  includes footerMarker output = false /\
  count (map One container) output = 1.
Proof.
  intros page output s.
  pose (ps := [mkFooterPart (lit "<html><body>") (lit " class='") (lit "'") (lit "<p>old</p>");
               mkFooterPart (lit "<p>text</p>") (lit " class='") (lit "' id='f'")
                 (lit "<div>foot</div>" ++ sampleWidget)]).
  destruct (C4_footer_and_widget s [lit "page.html"] ps (lit "</body></html>") sampleWidget
              (lit "<html><body><p>text</p>") (lit "</html>"))
    as (_ & _ & Hout & Hfile & _ & Hm & _ & Hc & _);
    try (vm_compute; reflexivity).
  { discriminate. }
  split; [exact Hout|]. split; [exact (Hfile eq_refl)|]. split; [exact Hm|].
  etrans; [exact Hc|]. vm_compute. reflexivity.
Defined.

(** X12. The removal of the footer.  Let the page be a text [pre]
    without the marker in which every opening of a section tag is
    closed, then a section tag with the marker inside it, a body
    without a closing section tag, the closing section tag, and a text
    [post] without the marker.  Then the replacement of [processFile]
    removes the text from that opening tag to that closing tag, the
    first after the marker, and nothing else: when a section is nested
    in the footer, the text after the closing tag of the nested section
    is part of [post] and stays.  The flag [changesMade] is set, and the
    text written to the file is what is left, with the template around
    the widget in place of its first closing body tag when the page held
    a widget. *)
Theorem X12_footer_removed (pre a1 a2 body post : str) :
  includes footerMarker pre = false -> sealed pre = true ->
  mem ">"%char a1 = false -> mem ">"%char a2 = false ->
  includes (lit "</section>") body = false ->
  includes footerMarker post = false ->
  let content := pre ++ footerSection a1 a2 body ++ post in
  let output := match matchFirst reWidget content with
                | Some w => replaceFirst (lit "</body>") (wrapper w) (pre ++ post)
                | None => pre ++ post
                end in
  replaceAll reFooter [] content = pre ++ post /\
  (processContent content).2 = true /\
  (processContent content).1 = output /\
  (forall (s : state) (filePath : path),
     readFile (tree s) filePath = Ok content ->
     exists s',
       processFile filePath s = Some (Ok (Success true), s') /\
       readFile (tree s') filePath = Ok output /\
       wrote s s' [filePath]).
Proof.
  intros Hpre Hsealed H1 H2 Hbody Hpost content output.
  assert (Hrem : replaceAll reFooter [] content = pre ++ post).
  { by apply footer_removed. }
  assert (Hin : includes footerMarker content = true).
  { apply includes_spec. exists (pre ++ lit "<section" ++ a1),
      (a2 ++ ">"%char :: body ++ lit "</section>" ++ post).
    unfold content, footerSection. by reassoc. }
  assert (Hne : pre ++ post <> content).
  { intros E. apply (f_equal length) in E. unfold content, footerSection in E.
    rewrite !length_app in E. cbn [length] in E. rewrite !length_app in E.
    cbn [length] in E. lia. }
  assert (Hrun : processContent content = (output, true)).
  { unfold processContent, output. rewrite Hin, Hrem.
    rewrite (bool_decide_eq_true_2 _ Hne).
    destruct (matchFirst reWidget content) as [w|] eqn:Hw.
    - rewrite reWidget_container in Hw. apply matchFirst_fixed in Hw as [_ Hlen].
      assert (Hwne : w <> []) by (intros ->; cbn in Hlen; lia).
      by rewrite (bool_decide_eq_false_2 _ Hwne).
    - by rewrite bool_decide_eq_true_2. }
  split; [done|]. rewrite Hrun. split; [done|]. split; [done|].
  intros s filePath Hr. by apply (processFile_result filePath s content).
Qed.

Lemma X12_footer_removed_witness :
  let page := lit "<body><section class='cid-tJkSLE66e9'><section>inner</section>"
              ++ lit "REST-OF-FOOTER</section></body>" in
  let s := mkState (Dir [(lit "page.html", File page)]) [] 0 in
  replaceAll reFooter [] page = lit "<body>REST-OF-FOOTER</section></body>" /\
  exists s',
    processFile [lit "page.html"] s = Some (Ok (Success true), s') /\
    readFile (tree s') [lit "page.html"] = Ok (lit "<body>REST-OF-FOOTER</section></body>") /\
    wrote s s' [[lit "page.html"]].
Proof.
  intros page s.
  destruct (X12_footer_removed (lit "<body>") (lit " class='") (lit "'")
              (lit "<section>inner") (lit "REST-OF-FOOTER</section></body>")
              eq_refl eq_refl eq_refl eq_refl eq_refl eq_refl) as (Hrem & _ & _ & Hfile).
  split; [exact Hrem|]. exact (Hfile s [lit "page.html"] eq_refl).
Defined.

(** X13. A page without a closing body tag in lower case loses its
    widget: when the replacement removed something and the text left
    holds no [</body>], that text is written to the file as it is,
    although a widget was found; the template is put nowhere. *)
Theorem X13_no_body_tag (content w : str) :
  matchFirst reWidget content = Some w ->
  includes footerMarker content = true ->
  let removed := replaceAll reFooter [] content in
  removed <> content ->
  includes (lit "</body>") removed = false ->
  processContent content = (removed, true) /\
  (includes container removed = false ->
   includes container (processContent content).1 = false) /\
  (forall (s : state) (filePath : path),
     readFile (tree s) filePath = Ok content ->
     exists s',
       processFile filePath s = Some (Ok (Success true), s') /\
       readFile (tree s') filePath = Ok removed /\
       wrote s s' [filePath]).
Proof.
  intros Hw Hin removed Hne Hbody.
  assert (H : processContent content = (removed, true)).
  { rewrite (processContent_widget content w Hw Hin Hne). fold removed.
    unfold replaceFirst. by rewrite splitFirst_none. }
  split; [done|]. split; [by rewrite H|].
  intros s filePath Hr. by apply (processFile_result filePath s content).
Qed.

Lemma X13_no_body_tag_witness :
  let page := lit "<BODY><section class='cid-tJkSLE66e9'>" ++ sampleWidget
              ++ lit "</section></BODY>" in
  let s := mkState (Dir [(lit "page.html", File page)]) [] 0 in
  processContent page = (lit "<BODY></BODY>", true) /\
  includes container (processContent page).1 = false /\
  exists s',
    processFile [lit "page.html"] s = Some (Ok (Success true), s') /\
    readFile (tree s') [lit "page.html"] = Ok (lit "<BODY></BODY>") /\
    wrote s s' [[lit "page.html"]].
Proof.
  intros page s.
  destruct (X13_no_body_tag page sampleWidget) as (Hrun & Hcont & Hfile).
  - vm_compute. reflexivity.
  - vm_compute. reflexivity.
  - intros E. vm_compute in E. discriminate E.
  - vm_compute. reflexivity.
  - split; [exact Hrun|]. split; [apply Hcont; vm_compute; reflexivity|].
    exact (Hfile s [lit "page.html"] eq_refl).
Defined.

(** X14. The text of the widget is read as a replacement pattern.  The
    template around the widget is the second argument of a [replace]
    with a string pattern, so that in the text written to the file a
    dollar followed by a dollar, an ampersand, a backquote or a quote in
    the widget stands for a dollar, the closing body tag, the page
    before that tag or the page after it. *)
Theorem X14_widget_dollar (content w pre post a b : str) (d : ascii) (text : str) :
  matchFirst reWidget content = Some w ->
  includes footerMarker content = true ->
  let removed := replaceAll reFooter [] content in
  let output := pre ++ wrapperHead ++ a ++ text ++ b ++ wrapperTail ++ post in
  removed <> content ->
  splitFirst (lit "</body>") removed = Some (pre, post) ->
  (d, text) ∈ [("$"%char, lit "$"); ("&"%char, lit "</body>");
               ("`"%char, pre); (sq, post)] ->
  w = a ++ "$"%char :: d :: b ->
  plain a = true -> plain b = true ->
  (processContent content).1 = output /\
  (forall (s : state) (filePath : path),
     readFile (tree s) filePath = Ok content ->
     exists s',
       processFile filePath s = Some (Ok (Success true), s') /\
       readFile (tree s') filePath = Ok output /\
       wrote s s' [filePath]).
Proof.
  intros Hw Hin removed output Hne Hsplit Hd -> Ha Hb.
  assert (Hrun : processContent content = (output, true)).
  { rewrite (processContent_widget content _ Hw Hin Hne). fold removed. f_equal.
    unfold replaceFirst. rewrite Hsplit. unfold output. f_equal.
    rewrite wrapper_pieces, <- !app_assoc.
    rewrite expand_app_plain by reflexivity.
    rewrite expand_app_plain by done. cbn [app].
    assert (Htail : expand pre (lit "</body>") post (b ++ wrapperTail) = b ++ wrapperTail).
    { apply expand_plain. rewrite plain_app, Hb. reflexivity. }
    rewrite !elem_of_cons in Hd.
    destruct Hd as [[= -> ->]|[[= -> ->]|[[= -> ->]|[[= -> ->]|Hd]]]];
      [| | | |by apply elem_of_nil in Hd];
      cbn [expand];
      repeat match goal with
             | |- context [ceqb ?x ?y] =>
                 let v := eval vm_compute in (ceqb x y) in change (ceqb x y) with v
             end;
      cbv iota; rewrite Htail; reassoc; reflexivity. }
  rewrite Hrun. split; [done|].
  intros s filePath Hr. by apply (processFile_result filePath s content).
Qed.

Lemma X14_widget_dollar_witness :
  let w := quoted ["<div id="; "google_translate_element"; "></div><script>x='$&';</script><script src=";
                   "//translate.google.com/translate_a/element.js"; "></script>"] in
  let page := lit "<body><section class='cid-tJkSLE66e9'>" ++ w ++ lit "</section></body>" in
  let output := lit "<body>" ++ wrapperHead
    ++ quoted ["<div id="; "google_translate_element"; "></div><script>x='"]
    ++ lit "</body>"
    ++ quoted ["';</script><script src=";
               "//translate.google.com/translate_a/element.js"; "></script>"]
    ++ wrapperTail ++ [] in
  let s := mkState (Dir [(lit "page.html", File page)]) [] 0 in
  (processContent page).1 = output /\
  exists s',
    processFile [lit "page.html"] s = Some (Ok (Success true), s') /\
    readFile (tree s') [lit "page.html"] = Ok output /\
    wrote s s' [[lit "page.html"]].
Proof.
  intros w page output s.
  destruct (X14_widget_dollar page w (lit "<body>") []
    (quoted ["<div id="; "google_translate_element"; "></div><script>x='"])
    (quoted ["';</script><script src=";
             "//translate.google.com/translate_a/element.js"; "></script>"])
    "&"%char (lit "</body>")) as (Hout & Hfile).
  - vm_compute. reflexivity.
  - vm_compute. reflexivity.
  - intros E. vm_compute in E. discriminate E.
  - vm_compute. reflexivity.
  - right. left.
  - vm_compute. reflexivity.
  - vm_compute. reflexivity.
  - vm_compute. reflexivity.
  - split; [exact Hout|]. exact (Hfile s [lit "page.html"] eq_refl).
Defined.

(** X19. [processFile] on a page of the site.  Let the page be a text
    [pre], the footer section with the marker in its opening tag and the
    widget inside it, a text [postA], the closing body tag and a text
    [postB], where [pre] and the texts after the section hold no marker,
    the section tags of [pre] are closed, the section holds no closing
    section tag of its own, no container element comes before the
    widget, no closing body tag before the one named, and the widget
    holds no dollar.  Then the text written to the file is the page
    without the footer section and with the template around the widget
    right before the closing body tag. *)
Theorem X19_page_cleaned (pre a1 a2 b1 mid line b2 postA postB : str) :
  let widget := widgetOf mid line in
  let content := pre ++ footerSection a1 a2 (b1 ++ widget ++ b2)
                 ++ postA ++ lit "</body>" ++ postB in
  let output := pre ++ postA ++ wrapperHead ++ widget ++ wrapperTail ++ postB in
  includes footerMarker pre = false -> sealed pre = true ->
  mem ">"%char a1 = false -> mem ">"%char a2 = false ->
  includes (lit "</section>") (b1 ++ widget ++ b2) = false ->
  includes footerMarker (postA ++ lit "</body>" ++ postB) = false ->
  includes container (pre ++ lit "<section" ++ a1 ++ footerMarker ++ a2 ++ ">"%char :: b1)
  = false ->
  includes scriptOpen mid = false ->
  includes elementPath line = true ->
  mem nl line = false -> mem cr line = false ->
  includes scriptClose line = false ->
  includes (lit "</body>") (pre ++ postA) = false ->
  plain mid = true -> plain line = true ->
  processContent content = (output, true) /\
  (forall (s : state) (filePath : path),
     readFile (tree s) filePath = Ok content ->
     exists s',
       processFile filePath s = Some (Ok (Success true), s') /\
       readFile (tree s') filePath = Ok output /\
       wrote s s' [filePath]).
Proof.
  intros widget content output Hpre Hsealed H1 H2 Hbody Hpost Hcont Hmid Hpath Hnl Hcr
    Hclose Hbt Hpm Hpl.
  assert (Hrem : replaceAll reFooter [] content = pre ++ postA ++ lit "</body>" ++ postB).
  { by apply footer_removed. }
  assert (Hw : matchFirst reWidget content = Some widget).
  { unfold content, footerSection.
    replace (pre ++ (lit "<section" ++ a1 ++ footerMarker ++ a2
                     ++ ">"%char :: (b1 ++ widget ++ b2) ++ lit "</section>")
             ++ postA ++ lit "</body>" ++ postB)
      with ((pre ++ lit "<section" ++ a1 ++ footerMarker ++ a2 ++ ">"%char :: b1)
            ++ widget ++ (b2 ++ lit "</section>" ++ postA ++ lit "</body>" ++ postB)).
    2:{ by reassoc. }
    rewrite matchFirst_skip.
    - apply matchFirst_here. by apply widget_here.
    - intros x1 x x2 Hx. unfold widget, widgetOf. rewrite <- !app_assoc.
      by apply (widget_not_before _ _ Hcont x1). }
  assert (Hin : includes footerMarker content = true).
  { apply includes_spec. exists (pre ++ lit "<section" ++ a1),
      (a2 ++ ">"%char :: (b1 ++ widget ++ b2) ++ lit "</section>"
       ++ postA ++ lit "</body>" ++ postB).
    unfold content, footerSection. by reassoc. }
  assert (Hne : replaceAll reFooter [] content <> content).
  { rewrite Hrem. intros E. apply (f_equal length) in E.
    unfold content, footerSection in E.
    rewrite !length_app in E. cbn [length] in E. rewrite !length_app in E.
    cbn [length] in E. lia. }
  assert (Hrun : processContent content = (output, true)).
  { rewrite (processContent_widget content widget Hw Hin Hne), Hrem. f_equal.
    unfold replaceFirst.
    rewrite (app_assoc pre postA), splitFirst_first; [|cbn; lia|reflexivity|done].
    rewrite expand_plain.
    - rewrite wrapper_pieces. unfold output. by reassoc.
    - apply plain_wrapper. unfold widget, widgetOf.
      rewrite !plain_app, Hpm, Hpl. reflexivity. }
  split; [done|].
  intros s filePath Hr. by apply (processFile_result filePath s content).
Qed.

Lemma X19_page_cleaned_witness :
  let page := lit "<html><body><section class='cid-a'><p>text</p></section>"
     ++ lit "<section class='cid-tJkSLE66e9' id='f'><div>foot</div>"
     ++ sampleWidget ++ lit "</section><p>end</p></body></html>" in
  let output := lit "<html><body><section class='cid-a'><p>text</p></section><p>end</p>"
     ++ wrapperHead ++ sampleWidget ++ wrapperTail ++ lit "</html>" in
  let s := mkState (Dir [(lit "page.html", File page)]) [] 0 in
  processContent page = (output, true) /\
  exists s',
    processFile [lit "page.html"] s = Some (Ok (Success true), s') /\
    readFile (tree s') [lit "page.html"] = Ok output /\
    wrote s s' [[lit "page.html"]].
Proof.
  intros page output s.
  destruct (X19_page_cleaned
    (lit "<html><body><section class='cid-a'><p>text</p></section>")
    (lit " class='") (lit "' id='f'") (lit "<div>foot</div>")
    [] (lit "//translate.google.com/translate_a/element.js" ++ dq :: lit ">") []
    (lit "<p>end</p>") (lit "</html>")
    eq_refl eq_refl eq_refl eq_refl eq_refl eq_refl eq_refl eq_refl eq_refl eq_refl
    eq_refl eq_refl eq_refl eq_refl eq_refl) as (Hrun & Hfile).
  split; [exact Hrun|]. exact (Hfile s [lit "page.html"] eq_refl).
Defined.
